(** * LiDAR_2_LEGO: a shallow embedding of the brick pipeline

    The development follows the Python sources module by module:
    [merge.py] (bricks and merge rules), [solver.py] (greedy stripe solver),
    [LIDAR_couches.py] (voxelizer), [LIDAR_traitement.py] (voxel graph
    processing), [cost_func_change.py] (solidity cost) and
    [donnees_echantillonnees_LIDAR.py] (spatial samplers).

    Python integers are [Z]; array indices and lengths are [nat]; NumPy
    arrays are nested lists in C order; dictionaries are [gmap]s; sets of
    node identifiers are [gset]s. *)

From Stdlib Require Import ZArith List Bool Lia QArith Qabs.
From stdpp Require Import base option gmap sets strings numbers list.


(** ** Outcomes of Python calls

    A call either returns, raises an exception (named by its Python class),
    or loops for ever; [Diverge] is what a fuelled loop answers when the
    fuel is spent. *)

Inductive outcome (A : Type) : Type :=
  | Return (a : A)
  | Raise (e : string)
  | Diverge.

Arguments Return {A} a.
Arguments Raise {A} e.
Arguments Diverge {A}.

Definition obind {A B} (m : outcome A) (k : A -> outcome B) : outcome B :=
  match m with
  | Return a => k a
  | Raise e => Raise e
  | Diverge => Diverge
  end.

Notation "'do' x <- m ; k" := (obind m (fun x => k))
  (at level 10, x name, m at level 100, k at level 200).

Definition ZeroDivisionError : string := "ZeroDivisionError".
Definition ValueError : string := "ValueError".

(** ** Python built-ins on lists *)

Section Builtins.
Local Open Scope Z_scope.

(** Stable insertion sort on a key, as [list.sort(key=...)]. *)
Fixpoint insert_by {A} (le : A -> A -> bool) (a : A) (l : list A) : list A :=
  match l with
  | [] => [a]
  | b :: l' => if le b a then b :: insert_by le a l' else a :: l
  end.

Definition sort_by {A} (le : A -> A -> bool) (l : list A) : list A :=
  foldl (fun acc a => insert_by le a acc) [] l.

Definition key_le (p q : Z * Z) : bool :=
  (p.1 <? q.1) || ((p.1 =? q.1) && (p.2 <=? q.2)).

(** [sorted(list(set(l)), reverse=True)]. *)
Fixpoint insert_desc (a : Z) (l : list Z) : list Z :=
  match l with
  | [] => [a]
  | b :: l' =>
      if a =? b then l
      else if b <? a then a :: l
      else b :: insert_desc a l'
  end.

Definition sorted_set_desc (l : list Z) : list Z :=
  foldr insert_desc [] l.

(** [sorted(set(l))], also [np.unique]. *)
Fixpoint insert_asc (a : Z) (l : list Z) : list Z :=
  match l with
  | [] => [a]
  | b :: l' =>
      if a =? b then l
      else if a <? b then a :: l
      else b :: insert_asc a l'
  end.

Definition sorted_set_asc (l : list Z) : list Z :=
  foldr insert_asc [] l.

Definition sum_Z (l : list Z) : Z := foldr Z.add 0 l.

End Builtins.

(** A catalog of brick sizes: the Python set of pairs, listed in any order. *)
Definition catalog : Type := list (Z * Z).

Definition pair_eqb (p q : Z * Z) : bool :=
  (p.1 =? q.1)%Z && (p.2 =? q.2)%Z.

Definition in_catalog (p : Z * Z) (V : catalog) : bool :=
  existsb (pair_eqb p) V.

(** ** merge.py *)

Module Merge.
Local Open Scope Z_scope.

(** The default [VALID_SIZES] of merge.py. *)
Definition VALID_SIZES : catalog :=
  [ (1, 1); (1, 2); (1, 4);
    (2, 2); (2, 4);
    (2, 1); (4, 1);
    (4, 2) ].

(** [class Brick]; the fields carry a [b_] prefix because [length], [x] and
    [y] are wanted for other things. *)
Record Brick : Type := mkBrick {
  b_layer : Z;
  b_x : Z;
  b_y : Z;
  b_length : Z;
  b_width : Z;
  b_color : Z;
  b_orientation : string
}.

(** [Brick.bbox]: (x1, y1, x2, y2), upper bounds exclusive. *)
Definition bbox (b : Brick) : Z * Z * Z * Z :=
  (b_x b, b_y b, b_x b + b_length b, b_y b + b_width b).

Definition is_valid_lego_part (V : catalog) (length width : Z) : bool :=
  in_catalog (length, width) V.

Definition are_neighbors (b1 b2 : Brick) : bool :=
  if negb (b_layer b1 =? b_layer b2) then false
  else
    let '(x1a, y1a, x2a, y2a) := bbox b1 in
    let '(x1b, y1b, x2b, y2b) := bbox b2 in
    let vertical_touch :=
      ((x2a =? x1b) || (x2b =? x1a)) && negb ((y2a <=? y1b) || (y2b <=? y1a)) in
    let horizontal_touch :=
      ((y2a =? y1b) || (y2b =? y1a)) && negb ((x2a <=? x1b) || (x2b <=? x1a)) in
    vertical_touch || horizontal_touch.

(** Longitudinal merge. *)
Definition can_merge (b1 b2 : Brick) : bool :=
  if negb (b_layer b1 =? b_layer b2) || negb (b_color b1 =? b_color b2)
     || negb (String.eqb (b_orientation b1) (b_orientation b2))
  then false
  else if negb (are_neighbors b1 b2) then false
  else if String.eqb (b_orientation b1) "H"
  then (b_y b1 =? b_y b2) && (b_width b1 =? b_width b2)
  else if String.eqb (b_orientation b1) "V"
  then (b_x b1 =? b_x b2) && (b_length b1 =? b_length b2)
  else false.

Definition merge_bricks (V : catalog) (b1 b2 : Brick) : option Brick :=
  if negb (can_merge b1 b2) then None
  else if String.eqb (b_orientation b1) "H" then
    let x := Z.min (b_x b1) (b_x b2) in
    let length := b_length b1 + b_length b2 in
    if is_valid_lego_part V length (b_width b1)
    then Some (mkBrick (b_layer b1) x (b_y b1) length (b_width b1) (b_color b1) "H")
    else None
  else if String.eqb (b_orientation b1) "V" then
    let y := Z.min (b_y b1) (b_y b2) in
    let width := b_width b1 + b_width b2 in
    if is_valid_lego_part V (b_length b1) width
    then Some (mkBrick (b_layer b1) (b_x b1) y (b_length b1) width (b_color b1) "V")
    else None
  else None.

(** Lateral merge. *)
Definition can_merge_side (b1 b2 : Brick) : bool :=
  if negb (b_layer b1 =? b_layer b2) || negb (b_color b1 =? b_color b2)
     || negb (String.eqb (b_orientation b1) (b_orientation b2))
  then false
  else if negb (are_neighbors b1 b2) then false
  else if String.eqb (b_orientation b1) "H"
  then (b_x b1 =? b_x b2) && (b_length b1 =? b_length b2)
  else if String.eqb (b_orientation b1) "V"
  then (b_y b1 =? b_y b2) && (b_width b1 =? b_width b2)
  else false.

Definition merge_bricks_side (V : catalog) (b1 b2 : Brick) : option Brick :=
  if negb (can_merge_side b1 b2) then None
  else if String.eqb (b_orientation b1) "H" then
    let y := Z.min (b_y b1) (b_y b2) in
    let new_width := b_width b1 + b_width b2 in
    if is_valid_lego_part V (b_length b1) new_width
    then Some (mkBrick (b_layer b1) (b_x b1) y (b_length b1) new_width (b_color b1) "H")
    else None
  else if String.eqb (b_orientation b1) "V" then
    let x := Z.min (b_x b1) (b_x b2) in
    let new_length := b_length b1 + b_length b2 in
    if is_valid_lego_part V new_length (b_width b1)
    then Some (mkBrick (b_layer b1) x (b_y b1) new_length (b_width b1) (b_color b1) "V")
    else None
  else None.

End Merge.

(** The inventory that main.py injects into merge.py
    ([configurer_inventaire]). *)
Definition INVENTAIRE_BRIQUES : catalog :=
  [ (1, 1); (1, 2); (1, 3); (1, 4); (1, 6); (1, 8);
    (2, 2); (2, 3); (2, 4); (2, 6);
    (2, 1); (3, 1); (4, 1); (6, 1); (8, 1);
    (3, 2); (4, 2); (6, 2) ]%Z.

(** ** solver.py *)

Module Solver.
Import Merge.
Local Open Scope Z_scope.

(** The lengths of the catalog compatible with [width_ref]: each pair
    (l, w) gives l when w is the reference width and w when l is. *)
Definition compatible_lengths (V : catalog) (width_ref : Z) : list Z :=
  flat_map (fun lw : Z * Z =>
    (if lw.2 =? width_ref then [lw.1] else []) ++
    (if lw.1 =? width_ref then [lw.2] else [])) V.

Definition valid_lengths (V : catalog) (width_ref : Z) : list Z :=
  sorted_set_desc (compatible_lengths V width_ref).

(** The inner [for L in valid_lengths]: the first length that fits. *)
Definition first_fit (valid : list Z) (remaining : Z) : option Z :=
  find (fun L => L <=? remaining) valid.

(** The [while remaining > 0] loop, [parts] being returned in order. *)
Fixpoint partition_loop (fuel : nat) (valid : list Z) (remaining : Z)
  : outcome (list Z) :=
  if remaining <=? 0 then Return []
  else match fuel with
       | O => Diverge
       | S fuel' =>
           let L := default 1 (first_fit valid remaining) in
           do rest <- partition_loop fuel' valid (remaining - L);
           Return (L :: rest)
       end.

(** [get_best_partition]. The fuel is the total length: every turn of the
    loop takes at least 1 off [remaining] as soon as the compatible lengths
    are all positive. *)
Definition get_best_partition (V : catalog) (total_length width_ref : Z)
  : outcome (list Z) :=
  partition_loop (Z.to_nat total_length) (valid_lengths V width_ref) total_length.

(** The bricks laid along a run, one per segment. *)
Fixpoint lay_H (ref_b : Brick) (width_ref curr_x : Z) (segments : list Z)
  : list Brick :=
  match segments with
  | [] => []
  | seg_len :: rest =>
      mkBrick (b_layer ref_b) curr_x (b_y ref_b) seg_len width_ref (b_color ref_b) "H"
      :: lay_H ref_b width_ref (curr_x + seg_len) rest
  end.

Fixpoint lay_V (ref_b : Brick) (width_ref curr_y : Z) (segments : list Z)
  : list Brick :=
  match segments with
  | [] => []
  | seg_len :: rest =>
      mkBrick (b_layer ref_b) (b_x ref_b) curr_y width_ref seg_len (b_color ref_b) "V"
      :: lay_V ref_b width_ref (curr_y + seg_len) rest
  end.

Definition process_run (V : catalog) (run_bricks : list Brick)
  (orientation : string) : outcome (list Brick) :=
  match run_bricks with
  | [] => Return []
  | ref_b :: _ =>
      if String.eqb orientation "H" then
        let total_len := sum_Z (map b_length run_bricks) in
        let width_ref := b_width ref_b in
        do segments <- get_best_partition V total_len width_ref;
        Return (lay_H ref_b width_ref (b_x ref_b) segments)
      else
        let total_len := sum_Z (map b_width run_bricks) in
        let width_ref := b_length ref_b in
        do segments <- get_best_partition V total_len width_ref;
        Return (lay_V ref_b width_ref (b_y ref_b) segments)
  end.

(** The scan of [optimize_layer_smart]: [run] is [current_run] (never
    empty), [last] its last brick. *)
Fixpoint scan_runs (V : catalog) (orientation : string)
  (run : list Brick) (last : Brick) (bricks : list Brick)
  : outcome (list Brick) :=
  let H := String.eqb orientation "H" in
  match bricks with
  | [] => process_run V run orientation
  | b :: rest =>
      let is_continuous :=
        (if H then b_y b =? b_y last else b_x b =? b_x last)
        && (b_color b =? b_color last)
        && (if H then b_x b =? b_x last + b_length last
            else b_y b =? b_y last + b_width last) in
      if is_continuous then scan_runs V orientation (run ++ [b]) b rest
      else
        do done_run <- process_run V run orientation;
        do others <- scan_runs V orientation [b] b rest;
        Return (done_run ++ others)
  end.

Definition optimize_layer_smart (V : catalog) (bricks : list Brick)
  (orientation : string) : outcome (list Brick) :=
  let sorted :=
    if String.eqb orientation "H"
    then sort_by (fun a b => key_le (b_y a, b_x a) (b_y b, b_x b)) bricks
    else sort_by (fun a b => key_le (b_x a, b_y a) (b_x b, b_y b)) bricks in
  match sorted with
  | [] => Return []
  | b0 :: rest => scan_runs V orientation [b0] b0 rest
  end.

(** The pairwise scan of [optimize_layer_2d_side]; the index [i] advances
    by one or two, so the list length is fuel enough. *)
Fixpoint side_scan (fuel : nat) (V : catalog) (bricks : list Brick) : list Brick :=
  match fuel with
  | O => []
  | S fuel' =>
      match bricks with
      | [] => []
      | [current] => [current]
      | current :: ((next_b :: rest) as tail) =>
          match merge_bricks_side V current next_b with
          | Some merged => merged :: side_scan fuel' V rest
          | None => current :: side_scan fuel' V tail
          end
      end
  end.

Definition optimize_layer_2d_side (V : catalog) (bricks : list Brick)
  (orientation : string) : list Brick :=
  let sorted :=
    if String.eqb orientation "H"
    then sort_by (fun a b => key_le (b_x a, b_y a) (b_x b, b_y b)) bricks
    else sort_by (fun a b => key_le (b_y a, b_x a) (b_y b, b_x b)) bricks in
  side_scan (List.length sorted) V sorted.

(** [sorted(layers.keys())]: the distinct layers, ascending. *)
Definition sorted_layers (bricks : list Brick) : list Z :=
  sorted_set_asc (map b_layer bricks).

(** [layers[layer_idx]]: the bricks of a layer, in input order. *)
Definition layer_content (bricks : list Brick) (layer_idx : Z) : list Brick :=
  filter (fun b => b_layer b = layer_idx) bricks.

Fixpoint solve_layers (VS VM : catalog) (bricks : list Brick)
  (layer_ids : list Z) : outcome (list Brick) :=
  match layer_ids with
  | [] => Return []
  | layer_idx :: rest =>
      let orient := if layer_idx mod 2 =? 0 then "H"%string else "V"%string in
      do pass1_bricks <- optimize_layer_smart VS (layer_content bricks layer_idx) orient;
      let pass2_bricks := optimize_layer_2d_side VM pass1_bricks orient in
      do others <- solve_layers VS VM bricks rest;
      Return (pass2_bricks ++ others)
  end.

(** [solve_greedy_stripe]. [VS] is the catalog bound to the name
    [VALID_SIZES] inside solver.py, [VM] the one merge.py reads. The
    reduction percentage [100 * (1 - len(final) / len(bricks))] is only
    printed; what remains of it here is the division by [len(bricks)]. *)
Definition solve_greedy_stripe (VS VM : catalog) (bricks : list Brick)
  : outcome (list Brick) :=
  do final_bricks <- solve_layers VS VM bricks (sorted_layers bricks);
  if Nat.eqb (List.length bricks) 0 then Raise ZeroDivisionError
  else Return final_bricks.

End Solver.

(** ** NumPy arrays of rank 3

    Nested lists in C order: [g !! i] is the slice [g[i]]. *)

Abbreviation array3 A := (list (list (list A))).

Section Array3.
Context {A B C : Type}.

(** [g[i, j, k]], [None] out of range. *)
Definition get3 (g : array3 A) (i j k : nat) : option A :=
  match g !! i with
  | Some plane =>
      match plane !! j with
      | Some row => row !! k
      | None => None
      end
  | None => None
  end.

(** The array of shape (n1, n2, n3) whose cell (i, j, k) holds [f i j k]. *)
Definition build3 (n1 n2 n3 : nat) (f : nat -> nat -> nat -> A) : array3 A :=
  (fun i => (fun j => (fun k => f i j k) <$> seq 0 n3) <$> seq 0 n2) <$> seq 0 n1.

(** [np.zeros((n1, n2, n3))] and the like. *)
Definition full3 (n1 n2 n3 : nat) (a : A) : array3 A :=
  replicate n1 (replicate n2 (replicate n3 a)).

(** A pointwise operation on one array, and on two arrays of one shape. *)
Definition map3 (f : A -> B) (g : array3 A) : array3 B :=
  fmap (M := list) (fmap (M := list) (fmap (M := list) f)) g.

Definition zip_with3 (f : A -> B -> C) (g : array3 A) (h : array3 B) : array3 C :=
  zip_with (zip_with (zip_with f)) g h.

(** [g[i, j, k] = f(g[i, j, k])] for an index in range. *)
Definition alter3 (f : A -> A) (i j k : nat) (g : array3 A) : array3 A :=
  alter (alter (alter f k) j) i g.

(** [g.shape == (n1, n2, n3)]. *)
Definition shape3 (n1 n2 n3 : nat) (g : array3 A) : Prop :=
  length g = n1 /\
  Forall (fun plane => length plane = n2 /\
            Forall (fun row : list A => length row = n3) plane) g.

(** [np.argwhere] of the cells that satisfy [p], in C order. *)
Definition argwhere3 (p : A -> bool) (g : array3 A) : list (nat * nat * nat) :=
  concat (imap (fun i plane =>
    concat (imap (fun j row =>
      concat (imap (fun k a => if p a then [(i, j, k)] else []) row)) plane)) g).

End Array3.
(** ** LIDAR_couches.py

    The embedding starts after the floating-point binning
    ([ix = floor((x - x_min) / taille_xy)] and so on): a point is given by
    its three cell indices and its classification code, and the grid
    dimensions [nx], [ny], [nz] are given as computed from the bounding box. *)

Module Couches.
Local Open Scope Z_scope.

Record ipoint : Type := mkPoint {
  p_ix : Z;
  p_iy : Z;
  p_iz : Z;
  p_classification : Z
}.

(** [valid = (ix >= 0) & (ix < nx) & ...]. *)
Definition valid (nx ny nz : nat) (p : ipoint) : bool :=
  (0 <=? p_ix p) && (p_ix p <? Z.of_nat nx) &&
  (0 <=? p_iy p) && (p_iy p <? Z.of_nat ny) &&
  (0 <=? p_iz p) && (p_iz p <? Z.of_nat nz).

(** [np.ravel_multi_index((iy, ix, iz), dims=(ny, nx, nz))]. *)
Definition ravel_multi_index (iy ix iz : Z) (ny nx nz : nat) : Z :=
  (iy * Z.of_nat nx + ix) * Z.of_nat nz + iz.

Definition voxel_index (ny nx nz : nat) (p : ipoint) : Z :=
  ravel_multi_index (p_iy p) (p_ix p) (p_iz p) ny nx nz.

(** The position of [c] in [l] ([return_inverse] of [np.unique]). *)
Fixpoint index_of (c : Z) (l : list Z) : option nat :=
  match l with
  | [] => None
  | a :: l' => if a =? c then Some O else S <$> index_of c l'
  end.

(** [class_counts[v, c]] after the [np.add.at] loop: the number of points
    of voxel [v] whose class has index [c]. *)
Definition tally (ny nx nz : nat) (classes_uniques : list Z)
  (pts : list ipoint) (v : Z) (c : nat) : Z :=
  Z.of_nat (List.length (filter (fun p =>
    voxel_index ny nx nz p = v /\
    index_of (p_classification p) classes_uniques = Some c) pts)).

(** [np.sum(row > 0)]. *)
Definition count_positive (row : list Z) : Z :=
  Z.of_nat (List.length (filter (fun t => 0 < t) row)).

(** The rule on class 1, on the tallies of one voxel: when the voxel holds
    class 1 and at least one other class, the tally of class 1 is set to 0. *)
Definition suppress_non_classe (classes_uniques : list Z) (row : list Z) : list Z :=
  match index_of 1 classes_uniques with
  | Some idx_non_classe =>
      let mask_autre :=
        (1 <? count_positive row) && (0 <? default 0 (row !! idx_non_classe)) in
      if mask_autre then <[idx_non_classe := 0]> row else row
  | None => row
  end.

(** [np.argmax] of a row: the first index holding the maximum. [best] and
    [best_i] are the maximum so far and its index, [i] the current index. *)
Fixpoint argmax_from (best : Z) (best_i i : nat) (row : list Z) : nat :=
  match row with
  | [] => best_i
  | t :: row' =>
      if best <? t then argmax_from t i (S i) row'
      else argmax_from best best_i (S i) row'
  end.

Definition argmax (row : list Z) : nat :=
  match row with
  | [] => O
  | t :: row' => argmax_from t O 1%nat row'
  end.

(** The per-voxel class tallies after the rule on class 1, of shape
    (ny, nx, nz, nbr_classes). *)
Definition class_counts (ny nx nz : nat) (classes_uniques : list Z)
  (pts : list ipoint) : array3 (list Z) :=
  let nbr_classes := List.length classes_uniques in
  build3 ny nx nz (fun iy ix iz =>
    suppress_non_classe classes_uniques
      (tally ny nx nz classes_uniques pts
         (ravel_multi_index (Z.of_nat iy) (Z.of_nat ix) (Z.of_nat iz) ny nx nz)
       <$> seq 0 nbr_classes)).

(** The majority class before the density threshold. *)
Definition class_maj_brut (ny nx nz : nat) (classes_uniques : list Z)
  (pts : list ipoint) : array3 Z :=
  map3 (fun row => default 0 (classes_uniques !! argmax row))
       (class_counts ny nx nz classes_uniques pts).

(** [LIDAR_couches] from the index arrays on. [histogramdd] stands for
    [np.histogramdd(sample, bins=(ny, nx, nz))], whose bin edges NumPy
    derives in floating point from the extent of the sample. An empty
    selection leaves no class, and [np.argmax] raises on the empty axis. *)
Definition LIDAR_couches
  (histogramdd : list (Z * Z * Z) -> nat * nat * nat -> array3 Z)
  (nx ny nz : nat) (points : list ipoint) (densite_min : Z)
  : outcome (array3 Z * array3 Z) :=
  let pts := filter (fun p => valid nx ny nz p = true) points in
  let counts :=
    histogramdd ((fun p => (p_iy p, p_ix p, p_iz p)) <$> pts) (ny, nx, nz) in
  let classes_uniques := sorted_set_asc (p_classification <$> pts) in
  if Nat.eqb (List.length classes_uniques) 0 then Raise ValueError
  else
    let class_maj := class_maj_brut ny nx nz classes_uniques pts in
    let mask_trop_faible (c : Z) := c <? densite_min in
    Return (map3 (fun c => if mask_trop_faible c then 0 else c) counts,
            zip_with3 (fun c m => if mask_trop_faible c then 0 else m)
                      counts class_maj).

(** The histogram when every bin is one cell: the number of points per
    index triple. *)
Definition histogram_cells (sample : list (Z * Z * Z)) (bins : nat * nat * nat)
  : array3 Z :=
  let '(n1, n2, n3) := bins in
  build3 n1 n2 n3 (fun i j k =>
    Z.of_nat (List.length (filter (fun s : Z * Z * Z =>
      s = (Z.of_nat i, Z.of_nat j, Z.of_nat k)) sample))).

End Couches.
(** ** LIDAR_traitement.py

    A networkx graph is its node dictionary, in insertion order, and its
    edges. Node identifiers are naturals; [coord] holds grid indices
    (x, y, z), which are naturals since [voxel_graphe] takes them from
    [np.argwhere]. *)

Module Traitement.
Local Open Scope Z_scope.

Definition IndexError : string := "IndexError".

Record node_data : Type := mkNode {
  coord : nat * nat * nat;
  class_maj : Z
}.

Record Graph : Type := mkGraph {
  nodes : list (nat * node_data);
  edges : list (nat * nat)
}.

Definition node_ids (G : Graph) : list nat := fst <$> nodes G.

(** The six neighbours of an array index, in the order of [voisins]:
    +1 and -1 on each axis in turn; an index below 0 is no cell. *)
Definition voisins (c : nat * nat * nat) : list (nat * nat * nat) :=
  let '(a, b, d) := c in
  [(S a, b, d)] ++ match a with S a' => [(a', b, d)] | O => [] end ++
  [(a, S b, d)] ++ match b with S b' => [(a, b', d)] | O => [] end ++
  [(a, b, S d)] ++ match d with S d' => [(a, b, d')] | O => [] end.

(** [id_map[c]], when [c] is a full voxel. *)
Definition id_map (coords : list (nat * nat * nat)) (c : nat * nat * nat)
  : option nat :=
  fst <$> list_find (fun c' => c' = c) coords.

(** The attributes of the nodes, one per full voxel; [class_maj[c]] raises
    when the class array is smaller than the count array. *)
Fixpoint node_attributes (class_maj : array3 Z) (coords : list (nat * nat * nat))
  : outcome (list node_data) :=
  match coords with
  | [] => Return []
  | (iy, ix, iz) :: rest =>
      match get3 class_maj iy ix iz with
      | Some c =>
          do attrs <- node_attributes class_maj rest;
          Return (mkNode (ix, iy, iz) c :: attrs)
      | None => Raise IndexError
      end
  end.

Definition voxel_graphe (counts class_maj : array3 Z) : outcome Graph :=
  let coords := argwhere3 (fun c => 0 <? c) counts in
  let aretes :=
    concat (imap (fun a c1 =>
      flat_map (fun c2 =>
        match id_map coords c2 with
        | Some b => [(a, b)]
        | None => []
        end) (voisins c1)) coords) in
  do attrs <- node_attributes class_maj coords;
  Return (mkGraph (imap (fun i d => (i, d)) attrs) aretes).

(** One step of the filling loop of [graphe_voxel]. *)
Definition fill_voxel (acc : array3 Z * array3 Z) (d : node_data)
  : array3 Z * array3 Z :=
  let '(x, y, z) := coord d in
  let c := class_maj d in
  (alter3 (fun n => n + 1) y x z acc.1,
   alter3 (fun m => if (m =? 0) || ((m =? 1) && negb (c =? 1)) then c else m)
          y x z acc.2).

(** [graphe_voxel]; the maximum of no coordinate at all raises. *)
Definition graphe_voxel (G : Graph) : outcome (array3 Z * array3 Z) :=
  let data := snd <$> nodes G in
  match data with
  | [] => Raise ValueError
  | _ :: _ =>
      let ny := S (max_list ((fun d => (coord d).1.2) <$> data)) in
      let nx := S (max_list ((fun d => (coord d).1.1) <$> data)) in
      let nz := S (max_list ((fun d => (coord d).2) <$> data)) in
      Return (foldl fill_voxel (full3 ny nx nz 0, full3 ny nx nz 0) data)
  end.

(** *** Connected components *)

(** [G.adj[v]]. *)
Definition neighbors (G : Graph) (v : nat) : gset nat :=
  list_to_set (flat_map (fun e : nat * nat =>
    (if decide (e.1 = v) then [e.2] else []) ++
    (if decide (e.2 = v) then [e.1] else [])) (edges G)).

(** The level loop of a breadth-first search: [seen] grows by the unseen
    neighbours of the last level until a level is empty. *)
Fixpoint plain_bfs (fuel : nat) (G : Graph) (seen nextlevel : gset nat)
  : gset nat :=
  match fuel with
  | O => seen
  | S fuel' =>
      if decide (nextlevel = ∅) then seen
      else
        let found :=
          ⋃ (neighbors G <$> elements nextlevel) ∖ seen in
        plain_bfs fuel' G (seen ∪ found) found
  end.

Definition component (G : Graph) (v : nat) : gset nat :=
  plain_bfs (S (List.length (nodes G))) G {[v]} {[v]}.

(** [nx.connected_components]: one component per node not seen yet. *)
Fixpoint components_from (G : Graph) (ids : list nat) (seen : gset nat)
  : list (gset nat) :=
  match ids with
  | [] => []
  | v :: rest =>
      if decide (v ∈ seen) then components_from G rest seen
      else
        let c := component G v in
        c :: components_from G rest (seen ∪ c)
  end.

Definition connected_components (G : Graph) : list (gset nat) :=
  components_from G (node_ids G) ∅.

(** [G.subgraph(keep).copy()]. *)
Definition subgraph (G : Graph) (keep : gset nat) : Graph :=
  mkGraph (filter (fun nd => nd.1 ∈ keep) (nodes G))
          (filter (fun e => e.1 ∈ keep /\ e.2 ∈ keep) (edges G)).

(** [nodes_valides]: the union of the components that hold a ground node. *)
Definition nodes_valides (G : Graph) (class_sol : Z) : gset nat :=
  let nodes_sol :=
    fst <$> filter (fun nd => class_maj nd.2 = class_sol) (nodes G) in
  let composantes := connected_components G in
  let composantes_valides :=
    filter (fun c : gset nat => Exists (fun n => n ∈ nodes_sol) (elements c))
           composantes in
  ⋃ composantes_valides.

Definition graphe_filtre_sol (G : Graph) (class_sol : Z) : Graph :=
  subgraph G (nodes_valides G class_sol).

(** *** The shell with pillars

    The last stage of [ajouter_sol_coque_pillier], from the dense grid
    [grid[x][y][z]] of shape (nx_max, ny_max, nz_max) that the propagation
    stages leave. *)

(** [is_internal[x, y, z]] once the six shifted conjunctions, the six
    boundary assignments and the pillar assignment are done. *)
Definition is_internal (class_sol pillar_step pillar_width : Z)
  (nx_max ny_max nz_max : nat) (grid : array3 Z) (x y z : nat) : bool :=
  let sol_final_mask (x y z : nat) : bool :=
    match get3 grid x y z with
    | Some v => v =? class_sol
    | None => false
    end in
  let next (n i : nat) (f : nat -> bool) : bool :=
    if (S i <? n)%nat then f (S i) else true in
  let prev (i : nat) (f : nat -> bool) : bool :=
    match i with S i' => f i' | O => true end in
  let border (n i : nat) : bool := (i =? 0)%nat || (S i =? n)%nat in
  let pillar :=
    (0 <? pillar_step) &&
    (Z.of_nat x mod pillar_step <? pillar_width) &&
    (Z.of_nat y mod pillar_step <? pillar_width) in
  sol_final_mask x y z
  && next nx_max x (fun x' => sol_final_mask x' y z)
  && prev x (fun x' => sol_final_mask x' y z)
  && next ny_max y (fun y' => sol_final_mask x y' z)
  && prev y (fun y' => sol_final_mask x y' z)
  && next nz_max z (fun z' => sol_final_mask x y z')
  && prev z (fun z' => sol_final_mask x y z')
  && negb (border nx_max x) && negb (border ny_max y) && negb (border nz_max z)
  && negb pillar.

(** [grid[is_internal] = 0]. *)
Definition coque_avec_piliers (class_sol pillar_step pillar_width : Z)
  (nx_max ny_max nz_max : nat) (grid : array3 Z) : array3 Z :=
  zip_with3 (fun v (internal : bool) => if internal then 0 else v) grid
    (build3 nx_max ny_max nz_max
       (is_internal class_sol pillar_step pillar_width nx_max ny_max nz_max grid)).

(** The node list rebuilt from the cells that are not 0, shifted back. *)
Definition reconstruction (min_coords : nat * nat * nat) (grid : array3 Z)
  : Graph :=
  let voxels_finaux := argwhere3 (fun v => negb (v =? 0)) grid in
  mkGraph
    (imap (fun i '(x, y, z) =>
       (i, mkNode ((x + min_coords.1.1)%nat, (y + min_coords.1.2)%nat,
                   (z + min_coords.2)%nat)
                  (default 0 (get3 grid x y z)))) voxels_finaux)
    [].

(** *** The class filter *)

(** [graphe_filtre_classes]; [classes_gardees] defaults to
    [1, 2, 3, 4, 5, 6]. *)
Definition graphe_filtre_classes (G : Graph) (classes_gardees : list Z) : Graph :=
  let nodes_valides :=
    fst <$> filter (fun nd => class_maj nd.2 ∈ classes_gardees) (nodes G) in
  subgraph G (list_to_set nodes_valides).

(** *** Propagation to the unclassified voxels *)

Definition KeyError : string := "KeyError".

(** [G.nodes[v]['class_maj']]. *)
Definition class_of (ns : list (nat * node_data)) (v : nat) : outcome Z :=
  match list_find (fun nd : nat * node_data => nd.1 = v) ns with
  | Some (_, nd) => Return (class_maj nd.2)
  | None => Raise KeyError
  end.

(** [G.nodes[n]['class_maj'] = c]. *)
Definition set_class (ns : list (nat * node_data)) (n : nat) (c : Z)
  : list (nat * node_data) :=
  (fun nd : nat * node_data =>
     if decide (nd.1 = n) then (nd.1, mkNode (coord nd.2) c) else nd) <$> ns.

(** [l.count(c)]. *)
Definition count (l : list Z) (c : Z) : nat :=
  List.length (filter (fun x => x = c) l).

(** [max(s, key=key)] from the second element on: the first element with
    the greatest key, in the order of iteration. *)
Fixpoint max_by (key : Z -> nat) (best : Z) (l : list Z) : Z :=
  match l with
  | [] => best
  | c :: l' =>
      if (key best <? key c)%nat then max_by key c l' else max_by key best l'
  end.

(** The classes to propagate among those of the neighbours. *)
Fixpoint classes_voisins (ns : list (nat * node_data))
  (classes_a_propager : list Z) (voisins : list nat) : outcome (list Z) :=
  match voisins with
  | [] => Return []
  | v :: rest =>
      do c <- class_of ns v;
      do cs <- classes_voisins ns classes_a_propager rest;
      Return (if bool_decide (c ∈ classes_a_propager) then c :: cs else cs)
  end.

Section Corriger.

(** The order in which Python goes through [set(classes_voisins)]. *)
Variable set_iter : list Z -> list Z.

(** The body of [for n in nodes_nc]; the state is the node dictionary of
    [G_corr] and [changements]. *)
Definition corriger_noeud (G : Graph) (classes_a_propager : list Z)
  (st : list (nat * node_data) * nat) (n : nat)
  : outcome (list (nat * node_data) * nat) :=
  let voisins := elements (neighbors G n) in
  do cv <- classes_voisins st.1 classes_a_propager voisins;
  match cv with
  | [] => Return st
  | _ :: _ =>
      match set_iter cv with
      | [] => Raise ValueError
      | c0 :: rest =>
          let c_new := max_by (count cv) c0 rest in
          Return (set_class st.1 n c_new, S st.2)
      end
  end.

Fixpoint corriger_passe (G : Graph) (classes_a_propager : list Z)
  (st : list (nat * node_data) * nat) (nodes_nc : list nat)
  : outcome (list (nat * node_data) * nat) :=
  match nodes_nc with
  | [] => Return st
  | n :: rest =>
      do st' <- corriger_noeud G classes_a_propager st n;
      corriger_passe G classes_a_propager st' rest
  end.

(** [for it in range(max_iter)], with its two [break]s. *)
Fixpoint corriger_iter (G : Graph) (class_non_classe : Z)
  (classes_a_propager : list Z) (max_iter : nat) (ns : list (nat * node_data))
  : outcome (list (nat * node_data)) :=
  match max_iter with
  | O => Return ns
  | S max_iter' =>
      let nodes_nc :=
        fst <$> filter (fun nd => class_maj nd.2 = class_non_classe) ns in
      match nodes_nc with
      | [] => Return ns
      | _ :: _ =>
          do st <- corriger_passe G classes_a_propager (ns, O) nodes_nc;
          if Nat.eqb st.2 0 then Return st.1
          else corriger_iter G class_non_classe classes_a_propager max_iter' st.1
      end
  end.

(** [corriger_voxels_non_classes_iteratif]; [class_sol] is not used. *)
Definition corriger_voxels_non_classes_iteratif (G : Graph)
  (class_non_classe : Z) (classes_a_propager : list Z) (class_sol : Z)
  (max_iter : Z) : outcome Graph :=
  do ns <- corriger_iter G class_non_classe classes_a_propager
             (Z.to_nat max_iter) (nodes G);
  Return (mkGraph ns (edges G)).

End Corriger.

End Traitement.
(** ** cost_func_change.py

    Python floats are kept abstract: [Float64] lists the operations of
    [float] that the cost functions use, [f_of_Z] being the conversion of an
    [int]. A brick object is a pair of its identity [id(b)] and its fields;
    [!=] on bricks and membership in a set of bricks go by identity. *)

Class Float64 (F : Type) : Type := {
  f_of_Z : Z -> F;
  f_add : F -> F -> F;
  f_sub : F -> F -> F;
  f_mul : F -> F -> F;
  f_div : F -> F -> F;
  f_abs : F -> F;
  f_le : F -> F -> Prop;
  f_lt : F -> F -> Prop
}.

(** The laws of sign that the cost functions rely on. *)
Class Float64Sign (F : Type) `{Float64 F} : Prop := {
  f_of_Z_nonneg : forall n : Z, (0 <= n)%Z -> f_le (f_of_Z 0) (f_of_Z n);
  f_add_nonneg : forall a b : F,
    f_le (f_of_Z 0) a -> f_le (f_of_Z 0) b -> f_le (f_of_Z 0) (f_add a b);
  f_mul_nonneg : forall a b : F,
    f_le (f_of_Z 0) a -> f_le (f_of_Z 0) b -> f_le (f_of_Z 0) (f_mul a b);
  f_abs_nonneg : forall a : F, f_le (f_of_Z 0) (f_abs a);
  f_half_pos : forall n : Z,
    (0 < n)%Z -> f_lt (f_of_Z 0) (f_div (f_of_Z n) (f_of_Z 2));
  f_div_nonneg : forall a b : F,
    f_le (f_of_Z 0) a -> f_lt (f_of_Z 0) b -> f_le (f_of_Z 0) (f_div a b)
}.

(** The rationals, as exact floats. *)
#[export] Instance Float64_Q : Float64 Q := {
  f_of_Z := inject_Z;
  f_add := Qplus;
  f_sub := Qminus;
  f_mul := Qmult;
  f_div := Qdiv;
  f_abs := Qabs;
  f_le := Qle;
  f_lt := Qlt
}.

Module Cost.
Import Merge.
Local Open Scope Z_scope.

(** A brick object: identity and fields. *)
Definition brick_obj : Type := nat * Brick.

(** [range(n)] and [range(a, b)]. *)
Definition range (n : Z) : list Z := Z.of_nat <$> seq 0 (Z.to_nat n).
Definition range2 (a b : Z) : list Z := (fun i => a + i) <$> range (b - a).

(** [build_grid_map]: every cell of every brick points to the brick; a
    later brick overwrites an earlier one on a shared cell. *)
Definition build_grid_map (bricks : list brick_obj) : gmap (Z * Z * Z) brick_obj :=
  foldl (fun grid b =>
    foldl (fun grid dx =>
      foldl (fun grid dy =>
        <[(b_layer b.2, b_x b.2 + dx, b_y b.2 + dy) := b]> grid)
        grid (range (b_width b.2)))
      grid (range (b_length b.2)))
    ∅ bricks.

(** Identity of the brick found in a cell, if any. *)
Definition id_at (grid : gmap (Z * Z * Z) brick_obj) (k : Z * Z * Z) : option nat :=
  fst <$> grid !! k.

(** P1. The state of the scan is the penalty and [processed_pairs]. *)
Definition perpendicularity_penalty_fast (layer_bricks : list brick_obj)
  (grid : gmap (Z * Z * Z) brick_obj) (current_z : Z) : Z :=
  fst (foldl (fun st b =>
    let '(x1, y1, x2, y2) := bbox b.2 in
    foldl (fun st ix =>
      foldl (fun (st : Z * list (nat * nat)) iy =>
        match grid !! (current_z - 1, ix, iy) with
        | Some brick_below =>
            let pair_id := (b.1, brick_below.1) in
            if bool_decide (pair_id ∈ st.2) then st
            else
              (if String.eqb (b_orientation b.2) (b_orientation brick_below.2)
               then st.1 + 1 else st.1,
               pair_id :: st.2)
        | None => st
        end) st (range2 y1 y2)) st (range2 x1 x2))
    (0, []) layer_bricks).

(** P2. One aligned seam per edge under which the brick below changes. *)
Definition vertical_boundary_penalty_fast (layer_bricks : list brick_obj)
  (grid : gmap (Z * Z * Z) brick_obj) (current_z : Z) : Z :=
  foldl (fun penalty b =>
    let '(x1, y1, x2, y2) := bbox b.2 in
    let differ (k_in k_out : Z * Z * Z) : Z :=
      if bool_decide (id_at grid k_in = id_at grid k_out) then 0 else 1 in
    if String.eqb (b_orientation b.2) "H" then
      penalty
      + differ (current_z - 1, x1, y1) (current_z - 1, x1 - 1, y1)
      + differ (current_z - 1, x2 - 1, y1) (current_z - 1, x2, y1)
    else if String.eqb (b_orientation b.2) "V" then
      penalty
      + differ (current_z - 1, x1, y1) (current_z - 1, x1, y1 - 1)
      + differ (current_z - 1, x1, y2 - 1) (current_z - 1, x1, y2)
    else penalty) 0 layer_bricks.

(** [neighbors.add(n)] on a set of objects. *)
Definition set_add (n : brick_obj) (s : list brick_obj) : list brick_obj :=
  if bool_decide (n.1 ∈ fst <$> s) then s else s ++ [n].

Definition set_add_opt (n : option brick_obj) (s : list brick_obj)
  : list brick_obj :=
  match n with Some n => set_add n s | None => s end.

Section WithFloat.
Context {F : Type} `{Float64 F}.

(** The order in which Python goes through a set of bricks; nothing is
    known of it. *)
Variable set_iter : list brick_obj -> list brick_obj.

(** P3. [penalty] starts as the int 0 and receives float terms. *)
Definition horizontal_alignment_penalty_fast (layer_bricks : list brick_obj)
  (grid : gmap (Z * Z * Z) brick_obj) (current_z : Z) : F :=
  foldl (fun penalty b =>
    let '(x1, y1, x2, y2) := bbox b.2 in
    let center_x := f_div (f_of_Z (x1 + x2)) (f_of_Z 2) in
    let center_y := f_div (f_of_Z (y1 + y2)) (f_of_Z 2) in
    let neighbors :=
      if String.eqb (b_orientation b.2) "H" then
        foldl (fun s ix =>
          let n_top := grid !! (current_z, ix, y1 - 1) in
          let n_bot := grid !! (current_z, ix, y2) in
          set_add_opt n_bot (set_add_opt n_top s)) [] (range2 x1 x2)
      else
        foldl (fun s iy =>
          let n_left := grid !! (current_z, x1 - 1, iy) in
          let n_right := grid !! (current_z, x2, iy) in
          set_add_opt n_right (set_add_opt n_left s)) [] (range2 y1 y2) in
    foldl (fun penalty n =>
      let '(nx1, ny1, nx2, ny2) := bbox n.2 in
      let junction (lo edge hi : Z) (center : F) (penalty : F) : F :=
        if (lo <? edge) && (edge <? hi) then
          let dist := f_abs (f_sub (f_of_Z edge) center) in
          f_add penalty (f_div dist (f_div (f_of_Z (hi - lo)) (f_of_Z 2)))
        else penalty in
      if String.eqb (b_orientation b.2) "H" then
        junction x1 nx2 x2 center_x (junction x1 nx1 x2 center_x penalty)
      else if String.eqb (b_orientation b.2) "V" then
        junction y1 ny2 y2 center_y (junction y1 ny1 y2 center_y penalty)
      else penalty) penalty (set_iter neighbors))
    (f_of_Z 0) layer_bricks.

(** [total_cost_function]; [C1], [C2], [C3] default to 1.0. *)
Definition total_cost_function (bricks : list brick_obj) (C1 C2 C3 : F) : F :=
  match bricks with
  | [] => f_of_Z 0
  | _ :: _ =>
      let grid := build_grid_map bricks in
      let layers := (fun b => b_layer b.2) <$> bricks in
      foldl (fun total_cost layer_idx =>
        let current_bricks :=
          filter (fun b => b_layer b.2 = layer_idx) bricks in
        let below := bool_decide (layer_idx - 1 ∈ layers) in
        let P1 :=
          if below then perpendicularity_penalty_fast current_bricks grid layer_idx
          else 0 in
        let P2 :=
          if below then vertical_boundary_penalty_fast current_bricks grid layer_idx
          else 0 in
        let P3 := horizontal_alignment_penalty_fast current_bricks grid layer_idx in
        f_add total_cost
          (f_add (f_add (f_mul C1 (f_of_Z P1)) (f_mul C2 (f_of_Z P2)))
                 (f_mul C3 P3)))
        (f_of_Z 0) (sorted_set_asc layers)
  end.

End WithFloat.

End Cost.
(** ** merge.py: the mergeable neighbours of a brick

    Bricks are objects here as in the cost functions, since the loop
    leaves out the brick itself by identity ([b is brick]). *)

Module Voisinage.
Import Merge.

Definition get_neighbors (brick : Cost.brick_obj) (bricks : list Cost.brick_obj)
  : list Cost.brick_obj :=
  filter (fun b : Cost.brick_obj => b.1 <> brick.1 /\ can_merge brick.2 b.2 = true)
         bricks.

End Voisinage.

(** ** donnees_echantillonnees_LIDAR.py

    The point cloud read from the file is the list of its points. The
    coordinates are floats, of which the samplers use the addition, the
    subtraction and the comparison [<=]. [np.random] is a state [S] with
    its two draws: [uniform low high] and [choice a size] without
    replacement. [nb_points] is a count, hence a natural. *)

Module Echantillon.

Record point (F : Type) : Type := mkPoint {
  p_x : F;
  p_y : F;
  p_z : F;
  p_classification : Z
}.
Arguments mkPoint {F} _ _ _ _.
Arguments p_x {F} _.
Arguments p_y {F} _.
Arguments p_z {F} _.
Arguments p_classification {F} _.

Section Samplers.
Context {F S : Type}.
Variable leb : F -> F -> bool.
Variable add sub : F -> F -> F.
Variable uniform : F -> F -> S -> F * S.
Variable choice : list nat -> nat -> S -> list nat * S.

(** [np.min] and [np.max]; both raise on an empty array. *)
Definition np_min (a : list F) : outcome F :=
  match a with
  | [] => Raise ValueError
  | v :: a' => Return (foldl (fun m w => if leb w m then w else m) v a')
  end.

Definition np_max (a : list F) : outcome F :=
  match a with
  | [] => Raise ValueError
  | v :: a' => Return (foldl (fun m w => if leb m w then w else m) v a')
  end.

(** [masque_zone]: inside the closed rectangle [x0, x1] x [y0, y1]. *)
Definition masque_zone (x0 x1 y0 y1 : F) (p : point F) : bool :=
  leb x0 (p_x p) && leb (p_x p) x1 && leb y0 (p_y p) && leb (p_y p) y1.

(** [np.where(masque_zone)[0]]: the indices of the points in the zone. *)
Definition indices_zone (x0 x1 y0 y1 : F) (las : list (point F)) : list nat :=
  concat (imap (fun i p => if masque_zone x0 x1 y0 y1 p then [i] else []) las).

(** [x[indices_zone]] and the like: the points at the given indices. *)
Fixpoint take_points (las : list (point F)) (indices : list nat)
  : outcome (list (point F)) :=
  match indices with
  | [] => Return []
  | i :: rest =>
      match las !! i with
      | Some p =>
          do ps <- take_points las rest;
          Return (p :: ps)
      | None => Raise "IndexError"
      end
  end.

(** The end of both samplers: subsample when there are too many points,
    then build the array. *)
Definition echantillonner (las : list (point F)) (nb_points : nat)
  (indices : list nat) (s : S) : outcome (list (point F) * S) :=
  let '(indices, s) :=
    if (nb_points <? List.length indices)%nat
    then choice indices nb_points s
    else (indices, s) in
  do LIDAR_numpy_test <- take_points las indices;
  Return (LIDAR_numpy_test, s).

Definition LIDAR_carre_aleatoire (las : list (point F)) (nb_points : nat)
  (taille_zone : F) (s : S) : outcome (list (point F) * S) :=
  do xmin <- np_min (p_x <$> las);
  do xmax <- np_max (p_x <$> las);
  do ymin <- np_min (p_y <$> las);
  do ymax <- np_max (p_y <$> las);
  let '(x0, s) := uniform xmin (sub xmax taille_zone) s in
  let '(y0, s) := uniform ymin (sub ymax taille_zone) s in
  echantillonner las nb_points
    (indices_zone x0 (add x0 taille_zone) y0 (add y0 taille_zone) las) s.

Definition LIDAR_rectangle (las : list (point F)) (nb_points : nat)
  (x_min_coin y_min_coin longueur_x longueur_y : F) (s : S)
  : outcome (list (point F) * S) :=
  do xmin <- np_min (p_x <$> las);
  do xmax <- np_max (p_x <$> las);
  do ymin <- np_min (p_y <$> las);
  do ymax <- np_max (p_y <$> las);
  let x_max_coin := add x_min_coin longueur_x in
  let y_max_coin := add y_min_coin longueur_y in
  echantillonner las nb_points
    (indices_zone x_min_coin x_max_coin y_min_coin y_max_coin las) s.

End Samplers.

(** A generator for tests: [uniform] answers its lower bound and [choice]
    the first [size] elements. *)
Definition uniform_low {F} (low high : F) (s : unit) : F * unit := (low, s).
Definition choice_first (a : list nat) (size : nat) (s : unit) : list nat * unit :=
  (take size a, s).

End Echantillon.
(** ** brique_merge.py *)

Module BriqueMerge.
Import Merge.
Local Open Scope Z_scope.

Definition DEFAULT_GRAY : Z := 16.

Definition LIDAR_TO_LEGO_COLORS : gmap Z Z :=
  list_to_map
    [ (1, 0); (2, 6); (3, 10); (4, 2); (5, 288); (6, 7); (9, 1); (17, 4);
      (64, 14); (66, 15); (67, 8) ].

(** A loop that appends one result per element and stops at the first
    exception. *)
Fixpoint for_each {A B} (f : A -> outcome B) (l : list A) : outcome (list B) :=
  match l with
  | [] => Return []
  | a :: l' =>
      do b <- f a;
      do bs <- for_each f l';
      Return (b :: bs)
  end.

(** The body of the loop of [bricks_from_numpy]; [class_maj[iy, ix, iz]]
    raises out of range. *)
Definition unit_brick_at (class_maj : option (array3 Z)) (visualisation : string)
  (idx : nat * nat * nat) : outcome Brick :=
  let '(iy, ix, iz) := idx in
  do lego_color <-
    (if String.eqb visualisation "COULEUR" then
       match class_maj with
       | Some cm =>
           match get3 cm iy ix iz with
           | Some c_lidar =>
               Return (default DEFAULT_GRAY (LIDAR_TO_LEGO_COLORS !! c_lidar))
           | None => Raise Traitement.IndexError
           end
       | None => Return DEFAULT_GRAY
       end
     else Return DEFAULT_GRAY);
  Return (mkBrick (Z.of_nat iz) (Z.of_nat ix) (Z.of_nat iy) 1 1 lego_color "H").

Definition bricks_from_numpy (counts : array3 Z) (class_maj : option (array3 Z))
  (visualisation : string) : outcome (list Brick) :=
  for_each (unit_brick_at class_maj visualisation)
           (argwhere3 (fun n => 0 <? n) counts).

End BriqueMerge.

(** ** Vocabulary of the statements *)

(** The node that [voxel_graphe] makes of the full voxel at array index
    [c] = (iy, ix, iz). *)
Definition node_of (class_maj : array3 Z) (c : nat * nat * nat)
  : Traitement.node_data :=
  Traitement.mkNode (c.1.2, c.1.1, c.2)
    (default 0%Z (get3 class_maj c.1.1 c.1.2 c.2)).

(** Grid to graph and back. *)
Definition round_trip (counts class_maj : array3 Z)
  : outcome (array3 Z * array3 Z) :=
  do G <- Traitement.voxel_graphe counts class_maj;
  Traitement.graphe_voxel G.

(** Two nodes are adjacent when an edge joins them, connected when a path
    does. *)
Definition adjacent (G : Traitement.Graph) (a b : nat) : Prop :=
  (a, b) ∈ Traitement.edges G \/ (b, a) ∈ Traitement.edges G.

Definition connected (G : Traitement.Graph) : nat -> nat -> Prop :=
  rtc (adjacent G).

(** What networkx keeps true of a graph: the node identifiers are distinct
    and every edge joins two nodes. *)
Definition graph_wf (G : Traitement.Graph) : Prop :=
  NoDup (Traitement.node_ids G) /\
  forall a b, (a, b) ∈ Traitement.edges G ->
    a ∈ Traitement.node_ids G /\ b ∈ Traitement.node_ids G.

(** [g] is a node of class [class_sol]. *)
Definition is_sol (G : Traitement.Graph) (class_sol : Z) (g : nat) : Prop :=
  exists d, (g, d) ∈ Traitement.nodes G /\ Traitement.class_maj d = class_sol.

(** A scene for the ground filter: a ground voxel (node 0) under a building
    voxel (node 1), and a floating cluster of five building voxels (nodes 2
    to 6) that no path joins to the ground. *)
Definition scene_flottante : Traitement.Graph :=
  Traitement.mkGraph
    [ (0, Traitement.mkNode (0, 0, 0) 2); (1, Traitement.mkNode (0, 0, 1) 6);
      (2, Traitement.mkNode (3, 0, 4) 6); (3, Traitement.mkNode (4, 0, 4) 6);
      (4, Traitement.mkNode (5, 0, 4) 6); (5, Traitement.mkNode (4, 1, 4) 6);
      (6, Traitement.mkNode (4, 0, 5) 6) ]%nat
    [ (0, 1); (1, 0); (2, 3); (3, 2); (3, 4); (4, 3); (3, 5); (5, 3);
      (3, 6); (6, 3) ]%nat.

(** The share of one layer in the total cost, in the words of the
    specification: C1.P1 + C2.P2 when the layer just below is present (both
    penalties count for 0 otherwise), plus C3.P3. *)
Definition cout_couche {F : Type} `{Float64 F}
  (set_iter : list Cost.brick_obj -> list Cost.brick_obj)
  (bricks : list Cost.brick_obj) (C1 C2 C3 : F) (layer_idx : Z) : F :=
  let grid := Cost.build_grid_map bricks in
  let current_bricks :=
    filter (fun b => Merge.b_layer b.2 = layer_idx) bricks in
  let P3 :=
    Cost.horizontal_alignment_penalty_fast set_iter current_bricks grid layer_idx in
  if bool_decide ((layer_idx - 1)%Z ∈ (fun b => Merge.b_layer b.2) <$> bricks)
  then
    f_add (f_add
      (f_mul C1 (f_of_Z (Cost.perpendicularity_penalty_fast current_bricks grid layer_idx)))
      (f_mul C2 (f_of_Z (Cost.vertical_boundary_penalty_fast current_bricks grid layer_idx))))
      (f_mul C3 P3)
  else
    f_add (f_add (f_mul C1 (f_of_Z 0)) (f_mul C2 (f_of_Z 0))) (f_mul C3 P3).

(** Two Horizontal 1x2 bricks, one right on top of the other, and the same
    pair with the upper brick Vertical. *)
Definition pile_HH : list Cost.brick_obj :=
  [ (0%nat, Merge.mkBrick 0 0 0 2 1 7 "H");
    (1%nat, Merge.mkBrick 1 0 0 2 1 7 "H") ].

Definition pile_HV : list Cost.brick_obj :=
  [ (0%nat, Merge.mkBrick 0 0 0 2 1 7 "H");
    (1%nat, Merge.mkBrick 1 0 0 2 1 7 "V") ].

(** [desc l]: strictly descending, hence without duplicates. *)
Inductive desc : list Z -> Prop :=
  | desc_nil : desc []
  | desc_cons a l : (forall b, b ∈ l -> (b < a)%Z) -> desc l -> desc (a :: l).

(** [asc l]: strictly ascending. *)
Inductive asc : list Z -> Prop :=
  | asc_nil : asc []
  | asc_cons a l : (forall b, b ∈ l -> (a < b)%Z) -> asc l -> asc (a :: l).

(** The votes of class [k] in voxel (vy, vx, vz): the number of points of
    the voxel that carry this class. *)
Definition votes (pts : list Couches.ipoint) (vy vx vz : nat) (k : Z) : Z :=
  Z.of_nat (List.length (filter (fun p =>
    (Couches.p_iy p, Couches.p_ix p, Couches.p_iz p)
    = (Z.of_nat vy, Z.of_nat vx, Z.of_nat vz) /\
    Couches.p_classification p = k) pts)).

(** A voxel with one point of class 1 and two of class 6, beside a voxel
    with two points of class 1 and one each of classes 5 and 3. *)
Definition sample_points : list Couches.ipoint :=
  [ Couches.mkPoint 0 0 0 1; Couches.mkPoint 0 0 0 6; Couches.mkPoint 0 0 0 6;
    Couches.mkPoint 1 0 0 1; Couches.mkPoint 1 0 0 5; Couches.mkPoint 1 0 0 1;
    Couches.mkPoint 1 0 0 3 ]%Z.

(** A solid block of ground, 5 x 5 x 3. *)
Definition bloc_sol : array3 Z := full3 5 5 3 2%Z.

(** Three points in a row, of classes 2, 6 and 2. *)
Definition nuage : list (Echantillon.point Q) :=
  [ Echantillon.mkPoint 0%Q 0%Q 0%Q 2%Z;
    Echantillon.mkPoint 1%Q 0%Q 3%Q 6%Z;
    Echantillon.mkPoint 5%Q 0%Q 1%Q 2%Z ].

(** *** Footprints of bricks *)

(** The cell (cx, cy) of the grid lies under the brick. *)
Definition covers (b : Merge.Brick) (cx cy : Z) : Prop :=
  (Merge.b_x b <= cx < Merge.b_x b + Merge.b_length b /\
   Merge.b_y b <= cy < Merge.b_y b + Merge.b_width b)%Z.

(** The number of cells under a brick, and under a list of bricks. *)
Definition area (b : Merge.Brick) : Z :=
  (Merge.b_length b * Merge.b_width b)%Z.

Definition total_area (bricks : list Merge.Brick) : Z :=
  sum_Z (area <$> bricks).

Definition positive_size (b : Merge.Brick) : Prop :=
  (0 < Merge.b_length b /\ 0 < Merge.b_width b)%Z.

(** A 1x1 brick, as the factory makes them. *)
Definition unit_brick (b : Merge.Brick) : Prop :=
  Merge.b_length b = 1%Z /\ Merge.b_width b = 1%Z.

(** The cell (cx, cy) of layer [z] carries color [c] in a list of bricks. *)
Definition paints (bricks : list Merge.Brick) (z c cx cy : Z) : Prop :=
  exists b, b ∈ bricks /\ Merge.b_layer b = z /\ Merge.b_color b = c /\
            covers b cx cy.

(** A list of numbers that never goes up. *)
Definition non_increasing (l : list Z) : Prop :=
  forall (i j : nat) a b,
    l !! i = Some a -> l !! j = Some b -> (i < j)%nat -> (b <= a)%Z.

(** A brick of a size the catalog holds, one way round or the other, or
    the 1x1 brick that the partition falls back on. *)
Definition stock_size (V : catalog) (b : Merge.Brick) : Prop :=
  in_catalog (Merge.b_length b, Merge.b_width b) V = true \/
  in_catalog (Merge.b_width b, Merge.b_length b) V = true \/
  unit_brick b.

(** [run] is a run of 1x1 bricks of layer [z] along x that ends on [last]:
    its bricks fill, in the color of the first one, the cells of one row
    from the first brick on. *)
Definition run_H (z : Z) (run : list Merge.Brick) (last : Merge.Brick) : Prop :=
  exists ref tl, run = ref :: tl /\
    (forall b, b ∈ run -> unit_brick b /\ Merge.b_layer b = z) /\
    Merge.b_y last = Merge.b_y ref /\
    Merge.b_color last = Merge.b_color ref /\
    (Merge.b_x last + Merge.b_length last
     = Merge.b_x ref + Z.of_nat (List.length run))%Z /\
    forall z' c cx cy, paints run z' c cx cy <->
      z' = z /\ c = Merge.b_color ref /\
      (Merge.b_x ref <= cx < Merge.b_x ref + Z.of_nat (List.length run))%Z /\
      cy = Merge.b_y ref.

(** The same along y. *)
Definition run_V (z : Z) (run : list Merge.Brick) (last : Merge.Brick) : Prop :=
  exists ref tl, run = ref :: tl /\
    (forall b, b ∈ run -> unit_brick b /\ Merge.b_layer b = z) /\
    Merge.b_x last = Merge.b_x ref /\
    Merge.b_color last = Merge.b_color ref /\
    (Merge.b_y last + Merge.b_width last
     = Merge.b_y ref + Z.of_nat (List.length run))%Z /\
    forall z' c cx cy, paints run z' c cx cy <->
      z' = z /\ c = Merge.b_color ref /\
      (Merge.b_y ref <= cy < Merge.b_y ref + Z.of_nat (List.length run))%Z /\
      cx = Merge.b_x ref.

(** The orientation that [solve_greedy_stripe] gives a layer. *)
Definition layer_orientation (z : Z) : string :=
  if (z mod 2 =? 0)%Z then "H"%string else "V"%string.

(** *** Voxels and their bricks *)

(** The voxel (iy, ix, iz) of the count array is full. *)
Definition full_voxel (counts : array3 Z) (iy ix iz : nat) : Prop :=
  exists n, get3 counts iy ix iz = Some n /\ (0 < n)%Z.

(** The LEGO color of a voxel: in the mode COULEUR and with a class array,
    the color of its class, gray for a class outside the table; gray in
    every other case. *)
Definition voxel_color (class_maj : option (array3 Z)) (visualisation : string)
  (iy ix iz : nat) : Z :=
  match class_maj with
  | Some cm =>
      if String.eqb visualisation "COULEUR"
      then default BriqueMerge.DEFAULT_GRAY
             (BriqueMerge.LIDAR_TO_LEGO_COLORS
                !! default 0%Z (get3 cm iy ix iz))
      else BriqueMerge.DEFAULT_GRAY
  | None => BriqueMerge.DEFAULT_GRAY
  end.

(** The grid cell and layer of a brick. *)
Definition position (b : Merge.Brick) : Z * Z * Z :=
  (Merge.b_layer b, Merge.b_x b, Merge.b_y b).

(** The bricks of a list as objects: the identity of a brick is its place
    in the list. *)
Definition objects (bricks : list Merge.Brick) : list Cost.brick_obj :=
  imap (fun i b => (i, b)) bricks.

(** Two grid indices one step apart along one axis. *)
Definition face_adjacent (c1 c2 : nat * nat * nat) : Prop :=
  (Z.abs (Z.of_nat c1.1.1 - Z.of_nat c2.1.1)
   + Z.abs (Z.of_nat c1.1.2 - Z.of_nat c2.1.2)
   + Z.abs (Z.of_nat c1.2 - Z.of_nat c2.2) = 1)%Z.

(** The cell (x, y, z) of the dense grid and its six neighbours all hold
    ground; none of the neighbours is missing. *)
Definition enclosed (class_sol : Z) (grid : array3 Z) (x y z : nat) : Prop :=
  (0 < x /\ 0 < y /\ 0 < z)%nat /\
  get3 grid x y z = Some class_sol /\
  get3 grid (S x) y z = Some class_sol /\
  get3 grid (pred x) y z = Some class_sol /\
  get3 grid x (S y) z = Some class_sol /\
  get3 grid x (pred y) z = Some class_sol /\
  get3 grid x y (S z) = Some class_sol /\
  get3 grid x y (pred z) = Some class_sol.

(** The column (x, y) is a pillar. *)
Definition on_pillar (pillar_step pillar_width : Z) (x y : nat) : Prop :=
  (0 < pillar_step /\
   Z.of_nat x mod pillar_step < pillar_width /\
   Z.of_nat y mod pillar_step < pillar_width)%Z.

(** The attributes of the nodes of a graph that lie on voxel (x, y, z), in
    the order of the graph. *)
Definition nodes_at (G : Traitement.Graph) (x y z : nat)
  : list Traitement.node_data :=
  filter (fun d => Traitement.coord d = (x, y, z)) (snd <$> Traitement.nodes G).

(** Two nodes on one voxel, the first one unclassified. *)
Definition deux_sur_un : Traitement.Graph :=
  Traitement.mkGraph
    [ (0, Traitement.mkNode (1, 0, 0) 1); (1, Traitement.mkNode (1, 0, 0) 6) ]%nat
    [].

(** One unclassified point in the first voxel; in the second voxel two
    points of class 5 and two of class 3. *)
Definition points_par_classe : list Couches.ipoint :=
  [ Couches.mkPoint 0 0 0 1; Couches.mkPoint 1 0 0 5; Couches.mkPoint 1 0 0 3;
    Couches.mkPoint 1 0 0 3; Couches.mkPoint 1 0 0 5 ]%Z.

(** What the propagation may do to a node: it keeps the identifier and the
    coordinates, and the class too, unless the node was unclassified and
    now carries one of the classes to propagate. *)
Definition corrige (class_non_classe : Z) (classes_a_propager : list Z)
  (nd nd' : nat * Traitement.node_data) : Prop :=
  nd'.1 = nd.1 /\
  Traitement.coord nd'.2 = Traitement.coord nd.2 /\
  (Traitement.class_maj nd'.2 = Traitement.class_maj nd.2 \/
   (Traitement.class_maj nd.2 = class_non_classe /\
    Traitement.class_maj nd'.2 ∈ classes_a_propager)).

(** An unclassified voxel between two building voxels, and a fourth voxel
    apart. *)
Definition mur_troue : Traitement.Graph :=
  Traitement.mkGraph
    [ (0, Traitement.mkNode (0, 0, 0) 6); (1, Traitement.mkNode (0, 0, 1) 1);
      (2, Traitement.mkNode (0, 0, 2) 6); (3, Traitement.mkNode (5, 5, 0) 1) ]%nat
    [ (0, 1); (1, 0); (1, 2); (2, 1) ]%nat.
(** * Properties *)

(** ** merge.py: the longitudinal merge *)

Section MergeFacts.
Import Merge.
Local Open Scope Z_scope.

Lemma can_merge_true b1 b2 :
  can_merge b1 b2 = true <->
  b_layer b1 = b_layer b2 /\ b_color b1 = b_color b2 /\
  b_orientation b1 = b_orientation b2 /\ are_neighbors b1 b2 = true /\
  ((b_orientation b1 = "H"%string /\ b_y b1 = b_y b2 /\ b_width b1 = b_width b2) \/
   (b_orientation b1 = "V"%string /\ b_x b1 = b_x b2 /\ b_length b1 = b_length b2)).
Proof.
  unfold can_merge.
  destruct (Z.eqb_spec (b_layer b1) (b_layer b2)) as [Hl|Hl]; simpl;
    [|split; [discriminate | tauto]].
  destruct (Z.eqb_spec (b_color b1) (b_color b2)) as [Hc|Hc]; simpl;
    [|split; [discriminate | tauto]].
  destruct (String.eqb_spec (b_orientation b1) (b_orientation b2)) as [Ho|Ho]; simpl;
    [|split; [discriminate | tauto]].
  destruct (are_neighbors b1 b2); simpl; [|split; [discriminate | intuition (try congruence)]].
  destruct (String.eqb_spec (b_orientation b1) "H") as [HH|HH].
  - rewrite andb_true_iff, !Z.eqb_eq. rewrite HH. intuition (try congruence).
  - destruct (String.eqb_spec (b_orientation b1) "V") as [HV|HV].
    + rewrite andb_true_iff, !Z.eqb_eq. rewrite HV. intuition (try congruence).
    + split; [discriminate | tauto].
Qed.

(** C5. [merge_bricks] returns a brick exactly when the two bricks agree on
    layer, color and orientation, are neighbors, and either are Horizontal
    with equal y and width and the summed length with that width is in the
    catalog (the result has the summed length), or are Vertical with equal x
    and length and the length with the summed width is in the catalog (the
    result has the summed width); in every other case the result is None. *)
Theorem merge_bricks_spec (V : catalog) (b1 b2 : Brick) :
  (forall r, merge_bricks V b1 b2 = Some r <->
     b_layer b1 = b_layer b2 /\ b_color b1 = b_color b2 /\
     b_orientation b1 = b_orientation b2 /\ are_neighbors b1 b2 = true /\
     ((b_orientation b1 = "H"%string /\ b_y b1 = b_y b2 /\ b_width b1 = b_width b2 /\
       in_catalog (b_length b1 + b_length b2, b_width b1) V = true /\
       r = mkBrick (b_layer b1) (Z.min (b_x b1) (b_x b2)) (b_y b1)
             (b_length b1 + b_length b2) (b_width b1) (b_color b1) "H") \/
      (b_orientation b1 = "V"%string /\ b_x b1 = b_x b2 /\ b_length b1 = b_length b2 /\
       in_catalog (b_length b1, b_width b1 + b_width b2) V = true /\
       r = mkBrick (b_layer b1) (b_x b1) (Z.min (b_y b1) (b_y b2))
             (b_length b1) (b_width b1 + b_width b2) (b_color b1) "V")))
  /\
  (merge_bricks V b1 b2 = None <->
     ~ (b_layer b1 = b_layer b2 /\ b_color b1 = b_color b2 /\
        b_orientation b1 = b_orientation b2 /\ are_neighbors b1 b2 = true /\
        ((b_orientation b1 = "H"%string /\ b_y b1 = b_y b2 /\ b_width b1 = b_width b2 /\
          in_catalog (b_length b1 + b_length b2, b_width b1) V = true) \/
         (b_orientation b1 = "V"%string /\ b_x b1 = b_x b2 /\ b_length b1 = b_length b2 /\
          in_catalog (b_length b1, b_width b1 + b_width b2) V = true)))).
Proof.
  pose proof (can_merge_true b1 b2) as Hcm.
  unfold merge_bricks, is_valid_lego_part.
  destruct (can_merge b1 b2); simpl.
  - destruct Hcm as [Hcm _]. specialize (Hcm eq_refl).
    destruct Hcm as (Hl & Hc & Ho & Hn & Hcase).
    destruct (String.eqb_spec (b_orientation b1) "H") as [HH|HH].
    + destruct (in_catalog (b_length b1 + b_length b2, b_width b1) V) eqn:Hin.
      * split; [intros r; split|].
        -- intros [= <-]. destruct Hcase as [(_ & Hy & Hw)|(HV & _)];
             [|congruence]. tauto.
        -- intros (_ & _ & _ & _ & [(_ & _ & _ & _ & ->)|(HV & _)]);
             [done | congruence].
        -- split; [discriminate|]. intros Hno. exfalso. apply Hno.
           destruct Hcase as [(_ & Hy & Hw)|(HV & _)]; [|congruence]. tauto.
      * split; [intros r; split|].
        -- discriminate.
        -- intros (_ & _ & _ & _ & [(_ & _ & _ & Hin' & _)|(HV & _)]); congruence.
        -- split; [|done]. intros _ (_ & _ & _ & _ & [(_ & _ & _ & Hin')|(HV & _)]);
             congruence.
    + destruct Hcase as [(HH' & _)|(HV & Hx & Hlen)]; [congruence|].
      destruct (String.eqb_spec (b_orientation b1) "V") as [_|HV']; [|congruence].
      destruct (in_catalog (b_length b1, b_width b1 + b_width b2) V) eqn:Hin.
      * split; [intros r; split|].
        -- intros [= <-]. tauto.
        -- intros (_ & _ & _ & _ & [(HH' & _)|(_ & _ & _ & _ & ->)]);
             [congruence | done].
        -- split; [discriminate|]. intros Hno. exfalso. apply Hno. tauto.
      * split; [intros r; split|].
        -- discriminate.
        -- intros (_ & _ & _ & _ & [(HH' & _)|(_ & _ & _ & Hin' & _)]); congruence.
        -- split; [|done]. intros _ (_ & _ & _ & _ & [(HH' & _)|(_ & _ & _ & Hin')]);
             congruence.
  - assert (Hno : ~ (b_layer b1 = b_layer b2 /\ b_color b1 = b_color b2 /\
        b_orientation b1 = b_orientation b2 /\ are_neighbors b1 b2 = true /\
        ((b_orientation b1 = "H"%string /\ b_y b1 = b_y b2 /\ b_width b1 = b_width b2) \/
         (b_orientation b1 = "V"%string /\ b_x b1 = b_x b2 /\ b_length b1 = b_length b2)))).
    { intros Hall. apply Hcm in Hall. discriminate. }
    split; [intros r; split|].
    + discriminate.
    + intros Hall. exfalso. apply Hno. tauto.
    + split; [|done]. intros _ Hall. apply Hno. tauto.
Qed.

(** Two adjacent unit bricks merge to a 1x2 under the default catalog, and a
    run of total length 5 is refused, (5, 1) not being a part. *)
Example merge_two_units :
  merge_bricks VALID_SIZES (mkBrick 0 0 0 1 1 7 "H") (mkBrick 0 1 0 1 1 7 "H")
  = Some (mkBrick 0 0 0 2 1 7 "H").
Proof. reflexivity. Qed.

Example merge_sum_five_refused :
  merge_bricks VALID_SIZES (mkBrick 0 0 0 4 1 7 "H") (mkBrick 0 4 0 1 1 7 "H") = None
  /\ merge_bricks INVENTAIRE_BRIQUES (mkBrick 0 0 0 4 1 7 "H") (mkBrick 0 4 0 1 1 7 "H") = None.
Proof. split; reflexivity. Qed.

End MergeFacts.

(** ** solver.py: partition of a run *)

Section SolverFacts.
Import Merge Solver.
Local Open Scope Z_scope.

Lemma elem_of_insert_desc a b l : b ∈ insert_desc a l <-> b = a \/ b ∈ l.
Proof.
  induction l as [|c l IH]; simpl.
  - rewrite list_elem_of_singleton. set_solver.
  - destruct (Z.eqb_spec a c) as [->|Hne].
    + set_solver.
    + destruct (c <? a); set_solver.
Qed.

Lemma insert_desc_desc a l : desc l -> desc (insert_desc a l).
Proof.
  induction 1 as [|c l Hlt Hd IH]; simpl.
  - constructor; [set_solver | constructor].
  - destruct (Z.eqb_spec a c) as [->|Hne]; [by constructor|].
    destruct (Z.ltb_spec c a) as [Hca|Hca].
    + constructor; [|by constructor].
      intros b [->|Hb]%elem_of_cons; [done|]. specialize (Hlt b Hb). lia.
    + constructor; [|done].
      intros b [->|Hb]%elem_of_insert_desc; [lia | by apply Hlt].
Qed.

Lemma elem_of_sorted_set_desc b l : b ∈ sorted_set_desc l <-> b ∈ l.
Proof.
  induction l as [|a l IH]; simpl; [done|].
  rewrite elem_of_insert_desc, IH. set_solver.
Qed.

Lemma sorted_set_desc_desc l : desc (sorted_set_desc l).
Proof. induction l; simpl; [constructor | by apply insert_desc_desc]. Qed.

(** A strictly descending list is determined by its elements. *)
Lemma desc_unique l1 l2 :
  desc l1 -> desc l2 -> (forall c, c ∈ l1 <-> c ∈ l2) -> l1 = l2.
Proof.
  intros H1. revert l2.
  induction H1 as [|a l1 Ha Hd1 IH]; intros l2 H2 Heq.
  - destruct l2 as [|b l2]; [done|]. specialize (Heq b). set_solver.
  - destruct H2 as [|b l2 Hb Hd2]; [specialize (Heq a); set_solver|].
    assert (a = b) as ->.
    { pose proof (proj1 (Heq a) ltac:(set_solver)) as [->|Hin]%elem_of_cons; [done|].
      pose proof (proj2 (Heq b) ltac:(set_solver)) as [->|Hin']%elem_of_cons; [done|].
      specialize (Ha _ Hin'). specialize (Hb _ Hin). lia. }
    f_equal. apply IH; [done|].
    intros c. split; intros Hc.
    + pose proof (proj1 (Heq c) ltac:(set_solver)) as [->|Hin]%elem_of_cons; [|done].
      specialize (Ha _ Hc). lia.
    + pose proof (proj2 (Heq c) ltac:(set_solver)) as [->|Hin]%elem_of_cons; [|done].
      specialize (Hb _ Hc). lia.
Qed.

(** On a descending list the first fit is the largest length that fits. *)
Lemma first_fit_largest valid remaining L :
  desc valid -> first_fit valid remaining = Some L ->
  L ∈ valid /\ L <= remaining /\
  forall L', L' ∈ valid -> L' <= remaining -> L' <= L.
Proof.
  unfold first_fit. induction 1 as [|a l Ha Hd IH]; simpl; [done|].
  destruct (Z.leb_spec a remaining) as [Hfit|Hfit].
  - intros [= <-]. split; [set_solver|]. split; [done|].
    intros L' [->|HL']%elem_of_cons _; [lia|]. specialize (Ha _ HL'). lia.
  - intros Hf. destruct (IH Hf) as (Hin & Hle & Hmax).
    split; [set_solver|]. split; [done|].
    intros L' [->|HL']%elem_of_cons HL'le; [lia | by apply Hmax].
Qed.

(** When every compatible length is at least 1 the loop ends, and the
    parts add up to the total. *)
Lemma partition_loop_total valid fuel remaining :
  (forall L, L ∈ valid -> 1 <= L) -> remaining <= Z.of_nat fuel ->
  exists parts, partition_loop fuel valid remaining = Return parts
                /\ sum_Z parts = Z.max 0 remaining.
Proof.
  intros Hpos. revert remaining.
  induction fuel as [|fuel IH]; intros remaining Hfuel; simpl.
  - destruct (Z.leb_spec remaining 0); [|lia]. exists []. simpl. split; [done|lia].
  - destruct (Z.leb_spec remaining 0) as [Hr|Hr].
    { exists []. simpl. split; [done|lia]. }
    set (L := default 1 (first_fit valid remaining)).
    assert (1 <= L <= remaining) as HL.
    { unfold L, first_fit. destruct (find _ valid) as [L0|] eqn:Hf; simpl; [|lia].
      apply find_some in Hf as [Hin Hle]. apply list_elem_of_In in Hin.
      apply Z.leb_le in Hle. specialize (Hpos _ Hin). lia. }
    destruct (IH (remaining - L) ltac:(lia)) as (rest & -> & Hsum).
    exists (L :: rest). simpl. split; [done|]. rewrite Hsum. lia.
Qed.

Lemma partition_loop_no_raise fuel valid remaining e :
  partition_loop fuel valid remaining <> Raise e.
Proof.
  revert remaining. induction fuel as [|fuel IH]; intros remaining; simpl.
  - by destruct (remaining <=? 0).
  - destruct (remaining <=? 0); [done|].
    specialize (IH (remaining - default 1 (first_fit valid remaining))).
    destruct (partition_loop fuel valid _); simpl; congruence.
Qed.

(** C1 (as the code has it). Against any catalog whose lengths compatible
    with width 1 are 1, 2, 3, 4, 6 and 8, the lengths are tried in the
    order 8, 6, 4, 3, 2, 1 and [get_best_partition 7 1] returns [6; 1]:
    the largest length that fits 7 is 6, and 1 fits the remainder. *)
Theorem get_best_partition_7_1 (V : catalog) :
  (forall L, L ∈ compatible_lengths V 1 <-> L ∈ [1; 2; 3; 4; 6; 8]) ->
  valid_lengths V 1 = [8; 6; 4; 3; 2; 1] /\
  get_best_partition V 7 1 = Return [6; 1].
Proof.
  intros Hset.
  assert (valid_lengths V 1 = [8; 6; 4; 3; 2; 1]) as Hvalid.
  { apply desc_unique.
    - apply sorted_set_desc_desc.
    - repeat (constructor; [intros b Hb; set_unfold in Hb; lia|]). constructor.
    - intros c. unfold valid_lengths. rewrite elem_of_sorted_set_desc, Hset.
      set_unfold. lia. }
  split; [done|]. unfold get_best_partition. rewrite Hvalid. reflexivity.
Qed.

Lemma compatible_lengths_inventaire L :
  L ∈ compatible_lengths INVENTAIRE_BRIQUES 1 <-> L ∈ [1; 2; 3; 4; 6; 8].
Proof. vm_compute compatible_lengths. set_unfold. lia. Qed.

Lemma get_best_partition_7_1_witness :
  valid_lengths INVENTAIRE_BRIQUES 1 = [8; 6; 4; 3; 2; 1] /\
  get_best_partition INVENTAIRE_BRIQUES 7 1 = Return [6; 1].
Proof.
  exact (get_best_partition_7_1 INVENTAIRE_BRIQUES compatible_lengths_inventaire).
Defined.

(** C1 (as the specification words it) fails on the inventory of main.py,
    whose lengths compatible with width 1 are exactly 1, 2, 3, 4, 6, 8. *)
Lemma get_best_partition_7_1_not_4_3 :
  valid_lengths INVENTAIRE_BRIQUES 1 = [8; 6; 4; 3; 2; 1] /\
  get_best_partition INVENTAIRE_BRIQUES 7 1 <> Return [4; 3].
Proof. split; [reflexivity | vm_compute; discriminate]. Qed.

(** Under the default catalog of merge.py there is no length 3 at all; the
    partition [4; 3] of the docstring is what a catalog with the lengths 1
    to 4 gives. *)
Example get_best_partition_default_7_1 :
  get_best_partition VALID_SIZES 7 1 = Return [4; 2; 1] /\
  get_best_partition [(1, 1); (1, 2); (1, 3); (1, 4)] 7 1 = Return [4; 3].
Proof. split; reflexivity. Qed.

(** ** solver.py: the solver on an empty list *)

Lemma process_run_no_raise V run o e : process_run V run o <> Raise e.
Proof.
  unfold process_run, get_best_partition. destruct run as [|ref_b run]; [done|].
  destruct (String.eqb o "H").
  - pose proof (partition_loop_no_raise
      (Z.to_nat (sum_Z (map b_length (ref_b :: run))))
      (valid_lengths V (b_width ref_b)) (sum_Z (map b_length (ref_b :: run))) e).
    destruct (partition_loop _ _ _); simpl; congruence.
  - pose proof (partition_loop_no_raise
      (Z.to_nat (sum_Z (map b_width (ref_b :: run))))
      (valid_lengths V (b_length ref_b)) (sum_Z (map b_width (ref_b :: run))) e).
    destruct (partition_loop _ _ _); simpl; congruence.
Qed.

Lemma scan_runs_no_raise V o bricks run last e :
  scan_runs V o run last bricks <> Raise e.
Proof.
  revert run last. induction bricks as [|b rest IH]; intros run last; simpl.
  - apply process_run_no_raise.
  - match goal with |- (if ?c then _ else _) <> _ => destruct c end; [apply IH|].
    pose proof (process_run_no_raise V run o e).
    destruct (process_run V run o); simpl; [|congruence|done].
    specialize (IH [b] b). destruct (scan_runs V o [b] b rest); simpl; congruence.
Qed.

Lemma solve_layers_no_raise VS VM bricks ids e :
  solve_layers VS VM bricks ids <> Raise e.
Proof.
  induction ids as [|layer_idx ids IH]; simpl; [done|].
  set (o := if layer_idx mod 2 =? 0 then _ else _).
  assert (optimize_layer_smart VS (layer_content bricks layer_idx) o <> Raise e) as Hs.
  { unfold optimize_layer_smart. destruct (if String.eqb o "H" then _ else _); [done|].
    apply scan_runs_no_raise. }
  destruct (optimize_layer_smart _ _ _); simpl; [|congruence|done].
  destruct (solve_layers VS VM bricks ids); simpl; congruence.
Qed.

(** The division by zero is the only exception of the solver, and only the
    empty list meets it. *)
Lemma solve_greedy_stripe_raise VS VM bricks e :
  solve_greedy_stripe VS VM bricks = Raise e ->
  bricks = [] /\ e = ZeroDivisionError.
Proof.
  unfold solve_greedy_stripe.
  pose proof (solve_layers_no_raise VS VM bricks (sorted_layers bricks) e) as Hno.
  destruct (solve_layers _ _ _ _); simpl; [|congruence|done].
  destruct bricks; simpl; [intros [= <-]; done | done].
Qed.

(** C10. On the empty brick list [solve_greedy_stripe] does not return the
    empty list: no layer is processed, and the reduction percentage divides
    by the initial count 0, which raises ZeroDivisionError. *)
Theorem solve_greedy_stripe_empty (VS VM : catalog) :
  solve_greedy_stripe VS VM [] = Raise ZeroDivisionError /\
  solve_greedy_stripe VS VM [] <> Return [].
Proof. split; [reflexivity | discriminate]. Qed.

(** One unit brick goes through unchanged. *)
Example solve_greedy_stripe_unit :
  solve_greedy_stripe VALID_SIZES INVENTAIRE_BRIQUES [mkBrick 0 0 0 1 1 7 "H"]
  = Return [mkBrick 0 0 0 1 1 7 "H"].
Proof. reflexivity. Qed.

(** A row of seven unit bricks becomes 1x6 + 1x1 under the inventory. *)
Example solve_greedy_stripe_row7 :
  solve_greedy_stripe INVENTAIRE_BRIQUES INVENTAIRE_BRIQUES
    (map (fun i => mkBrick 0 i 0 1 1 7 "H") [0; 1; 2; 3; 4; 5; 6])
  = Return [mkBrick 0 0 0 6 1 7 "H"; mkBrick 0 6 0 1 1 7 "H"].
Proof. reflexivity. Qed.

End SolverFacts.

(** ** Arrays of rank 3 *)

Section Array3Facts.
Context {A B C : Type}.
Implicit Types g : array3 A.

Lemma get3_build3 n1 n2 n3 (f : nat -> nat -> nat -> A) i j k :
  (i < n1)%nat -> (j < n2)%nat -> (k < n3)%nat ->
  get3 (build3 n1 n2 n3 f) i j k = Some (f i j k).
Proof.
  intros Hi Hj Hk. unfold get3, build3.
  rewrite list_lookup_fmap, lookup_seq_lt by done. simpl.
  rewrite list_lookup_fmap, lookup_seq_lt by done. simpl.
  by rewrite list_lookup_fmap, lookup_seq_lt.
Qed.

Lemma shape3_build3 n1 n2 n3 (f : nat -> nat -> nat -> A) :
  shape3 n1 n2 n3 (build3 n1 n2 n3 f).
Proof.
  unfold shape3, build3. split; [by rewrite length_fmap, length_seq|].
  apply Forall_fmap, Forall_forall. intros i _. simpl.
  split; [by rewrite length_fmap, length_seq|].
  apply Forall_fmap, Forall_forall. intros j _. simpl.
  by rewrite length_fmap, length_seq.
Qed.

Lemma get3_shape3 n1 n2 n3 g i j k :
  shape3 n1 n2 n3 g -> (i < n1)%nat -> (j < n2)%nat -> (k < n3)%nat ->
  is_Some (get3 g i j k).
Proof.
  intros [Hlen Hall] Hi Hj Hk. unfold get3.
  destruct (lookup_lt_is_Some_2 g i) as [plane Hp]; [lia|]. rewrite Hp.
  destruct (proj1 (Forall_lookup _ _) Hall i plane Hp) as [Hlen2 Hall2].
  destruct (lookup_lt_is_Some_2 plane j) as [row Hr]; [lia|]. rewrite Hr.
  pose proof (proj1 (Forall_lookup _ _) Hall2 j row Hr) as Hlen3.
  apply lookup_lt_is_Some_2. simpl in Hlen3. lia.
Qed.

Lemma get3_Some_lt n1 n2 n3 g i j k a :
  shape3 n1 n2 n3 g -> get3 g i j k = Some a ->
  (i < n1)%nat /\ (j < n2)%nat /\ (k < n3)%nat.
Proof.
  intros [Hlen Hall]. unfold get3.
  destruct (g !! i) as [plane|] eqn:Hp; [|done].
  destruct (proj1 (Forall_lookup _ _) Hall i plane Hp) as [Hlen2 Hall2].
  destruct (plane !! j) as [row|] eqn:Hr; [|done].
  pose proof (proj1 (Forall_lookup _ _) Hall2 j row Hr) as Hlen3. simpl in Hlen3.
  intros Hk. apply lookup_lt_Some in Hp, Hr, Hk. lia.
Qed.

Lemma get3_map3 (f : A -> B) g i j k :
  get3 (map3 f g) i j k = f <$> get3 g i j k.
Proof.
  unfold get3, map3. rewrite list_lookup_fmap.
  destruct (g !! i) as [plane|]; simpl; [|done].
  rewrite list_lookup_fmap. destruct (plane !! j) as [row|]; simpl; [|done].
  by rewrite list_lookup_fmap.
Qed.

Lemma shape3_map3 n1 n2 n3 (f : A -> B) g :
  shape3 n1 n2 n3 g -> shape3 n1 n2 n3 (map3 f g).
Proof.
  intros [Hlen Hall]. unfold map3. split; [by rewrite length_fmap|].
  apply Forall_fmap. eapply Forall_impl; [exact Hall|].
  intros plane [Hlen2 Hall2]. simpl. split; [by rewrite length_fmap|].
  apply Forall_fmap. eapply Forall_impl; [exact Hall2|].
  intros row Hlen3. simpl. by rewrite length_fmap.
Qed.

Lemma get3_zip_with3 (f : A -> B -> C) g (h : array3 B) i j k a b :
  get3 g i j k = Some a -> get3 h i j k = Some b ->
  get3 (zip_with3 f g h) i j k = Some (f a b).
Proof.
  unfold get3, zip_with3. rewrite lookup_zip_with.
  destruct (g !! i) as [pg|]; [|done]. destruct (h !! i) as [ph|]; [|done]. simpl.
  rewrite lookup_zip_with.
  destruct (pg !! j) as [rg|]; [|done]. destruct (ph !! j) as [rh|]; [|done]. simpl.
  rewrite lookup_zip_with. by intros -> ->.
Qed.

Lemma shape3_zip_with3 n1 n2 n3 (f : A -> B -> C) g (h : array3 B) :
  shape3 n1 n2 n3 g -> shape3 n1 n2 n3 h -> shape3 n1 n2 n3 (zip_with3 f g h).
Proof.
  intros [Hg Hgall] [Hh Hhall]. unfold zip_with3.
  split; [rewrite length_zip_with; lia|].
  apply Forall_lookup. intros i plane. rewrite lookup_zip_with.
  destruct (g !! i) as [pg|] eqn:Hpg; [|done].
  destruct (h !! i) as [ph|] eqn:Hph; [|done]. simpl. intros [= <-].
  destruct (proj1 (Forall_lookup _ _) Hgall i pg Hpg) as [Hg2 Hgall2].
  destruct (proj1 (Forall_lookup _ _) Hhall i ph Hph) as [Hh2 Hhall2].
  split; [rewrite length_zip_with; lia|].
  apply Forall_lookup. intros j row. rewrite lookup_zip_with.
  destruct (pg !! j) as [rg|] eqn:Hrg; [|done].
  destruct (ph !! j) as [rh|] eqn:Hrh; [|done]. simpl. intros [= <-].
  pose proof (proj1 (Forall_lookup _ _) Hgall2 j rg Hrg) as Hg3.
  pose proof (proj1 (Forall_lookup _ _) Hhall2 j rh Hrh) as Hh3.
  simpl in *. rewrite length_zip_with. lia.
Qed.

(** Two arrays of one shape that agree cell by cell are equal. *)
Lemma array3_eq n1 n2 n3 g g' :
  shape3 n1 n2 n3 g -> shape3 n1 n2 n3 g' ->
  (forall i j k, (i < n1)%nat -> (j < n2)%nat -> (k < n3)%nat ->
     get3 g i j k = get3 g' i j k) ->
  g = g'.
Proof.
  intros [Hg Hgall] [Hg' Hgall'] Heq.
  apply list_eq_same_length with n1; [done..|].
  intros i plane plane' Hi Hp Hp'.
  destruct (proj1 (Forall_lookup _ _) Hgall i plane Hp) as [Hl2 Hall2].
  destruct (proj1 (Forall_lookup _ _) Hgall' i plane' Hp') as [Hl2' Hall2'].
  apply list_eq_same_length with n2; [done..|].
  intros j row row' Hj Hr Hr'.
  pose proof (proj1 (Forall_lookup _ _) Hall2 j row Hr) as Hl3.
  pose proof (proj1 (Forall_lookup _ _) Hall2' j row' Hr') as Hl3'.
  simpl in *.
  apply list_eq_same_length with n3; [done..|].
  intros k a a' Hk Ha Ha'.
  specialize (Heq i j k Hi Hj Hk). unfold get3 in Heq.
  rewrite Hp, Hp', Hr, Hr', Ha, Ha' in Heq. congruence.
Qed.

Lemma get3_full3 n1 n2 n3 (a : A) i j k :
  (i < n1)%nat -> (j < n2)%nat -> (k < n3)%nat ->
  get3 (full3 n1 n2 n3 a) i j k = Some a.
Proof.
  intros Hi Hj Hk. unfold get3, full3.
  rewrite lookup_replicate_2 by done. rewrite lookup_replicate_2 by done.
  by rewrite lookup_replicate_2.
Qed.

Lemma shape3_full3 n1 n2 n3 (a : A) : shape3 n1 n2 n3 (full3 n1 n2 n3 a).
Proof.
  unfold shape3, full3. split; [by rewrite length_replicate|].
  apply Forall_replicate. split; [by rewrite length_replicate|].
  apply Forall_replicate. by rewrite length_replicate.
Qed.

Lemma get3_alter3_eq (f : A -> A) g i j k :
  get3 (alter3 f i j k g) i j k = f <$> get3 g i j k.
Proof.
  unfold get3, alter3. rewrite list_lookup_alter_eq.
  destruct (g !! i) as [plane|]; simpl; [|done].
  rewrite list_lookup_alter_eq. destruct (plane !! j) as [row|]; simpl; [|done].
  by rewrite list_lookup_alter_eq.
Qed.

Lemma get3_alter3_ne (f : A -> A) g i j k i' j' k' :
  (i, j, k) <> (i', j', k') ->
  get3 (alter3 f i j k g) i' j' k' = get3 g i' j' k'.
Proof.
  intros Hne. unfold get3, alter3.
  destruct (decide (i = i')) as [<-|Hi]; [|by rewrite list_lookup_alter_ne].
  rewrite list_lookup_alter_eq. destruct (g !! i) as [plane|]; simpl; [|done].
  destruct (decide (j = j')) as [<-|Hj]; [|by rewrite list_lookup_alter_ne].
  rewrite list_lookup_alter_eq. destruct (plane !! j) as [row|]; simpl; [|done].
  rewrite list_lookup_alter_ne; [done|]. congruence.
Qed.

Lemma shape3_alter3 n1 n2 n3 (f : A -> A) g i j k :
  shape3 n1 n2 n3 g -> shape3 n1 n2 n3 (alter3 f i j k g).
Proof.
  intros [Hlen Hall]. unfold alter3. split; [by rewrite length_alter|].
  apply Forall_lookup. intros i' plane. rewrite list_lookup_alter.
  destruct (decide (i = i')) as [<-|Hi].
  - destruct (g !! i) as [p0|] eqn:Hp0; simpl; [|done]. intros [= <-].
    destruct (proj1 (Forall_lookup _ _) Hall i p0 Hp0) as [Hlen2 Hall2].
    split; [by rewrite length_alter|].
    apply Forall_lookup. intros j' row. rewrite list_lookup_alter.
    destruct (decide (j = j')) as [<-|Hj].
    + destruct (p0 !! j) as [r0|] eqn:Hr0; simpl; [|done]. intros [= <-].
      pose proof (proj1 (Forall_lookup _ _) Hall2 j r0 Hr0) as Hlen3. simpl in *.
      by rewrite length_alter.
    + intros Hr. exact (proj1 (Forall_lookup _ _) Hall2 j' row Hr).
  - intros Hp. exact (proj1 (Forall_lookup _ _) Hall i' plane Hp).
Qed.

End Array3Facts.

Lemma elem_of_concat_imap {A B} (f : nat -> A -> list B) (l : list A) (b : B) :
  b ∈ concat (imap f l) <-> exists i a, l !! i = Some a /\ b ∈ f i a.
Proof.
  revert f. induction l as [|a l IH]; intros f; simpl.
  - split; [set_solver|]. by intros (i & a & Hl & _).
  - rewrite elem_of_app, IH. split.
    + intros [Hb|(i & a' & Hl & Hb)]; [by exists O, a | by exists (S i), a'].
    + intros ([|i] & a' & Hl & Hb); simpl in Hl.
      * injection Hl as <-. by left.
      * right. by exists i, a'.
Qed.

Lemma NoDup_concat_imap {A B} (f : nat -> A -> list B) (key : B -> nat)
  (l : list A) :
  (forall i a, l !! i = Some a -> NoDup (f i a)) ->
  (forall i a b, l !! i = Some a -> b ∈ f i a -> key b = i) ->
  NoDup (concat (imap f l)).
Proof.
  revert f key. induction l as [|a l IH]; intros f key Hnd Hkey; simpl.
  - constructor.
  - apply NoDup_app. split; [by apply (Hnd O)|]. split.
    + intros b Hb (i & a' & Hl & Hb')%elem_of_concat_imap.
      pose proof (Hkey O a b eq_refl Hb). pose proof (Hkey (S i) a' b Hl Hb'). lia.
    + apply (IH _ (fun b => pred (key b))).
      * intros i a' Hl. by apply (Hnd (S i)).
      * intros i a' b Hl Hb. simpl. by rewrite (Hkey (S i) a' b Hl Hb).
Qed.

Section ArgwhereFacts.
Context {A : Type}.

Lemma elem_of_argwhere3 (p : A -> bool) (g : array3 A) i j k :
  (i, j, k) ∈ argwhere3 p g <-> exists a, get3 g i j k = Some a /\ p a = true.
Proof.
  unfold argwhere3, get3. rewrite elem_of_concat_imap. split.
  - intros (i' & plane & Hp & Hin). apply elem_of_concat_imap in Hin
      as (j' & row & Hr & Hin). apply elem_of_concat_imap in Hin
      as (k' & a & Ha & Hin).
    destruct (p a) eqn:Hpa; [|set_solver].
    apply list_elem_of_singleton in Hin as [= -> -> ->].
    exists a. by rewrite Hp, Hr.
  - intros (a & Hget & Hpa).
    destruct (g !! i) as [plane|] eqn:Hp; [|done].
    destruct (plane !! j) as [row|] eqn:Hr; [|done].
    exists i, plane. split; [done|]. apply elem_of_concat_imap.
    exists j, row. split; [done|]. apply elem_of_concat_imap.
    exists k, a. split; [done|]. rewrite Hpa. set_solver.
Qed.

Lemma NoDup_argwhere3 (p : A -> bool) (g : array3 A) : NoDup (argwhere3 p g).
Proof.
  unfold argwhere3.
  apply (NoDup_concat_imap _ (fun c : nat * nat * nat => c.1.1)).
  - intros i plane _.
    apply (NoDup_concat_imap _ (fun c : nat * nat * nat => c.1.2)).
    + intros j row _.
      apply (NoDup_concat_imap _ (fun c : nat * nat * nat => c.2)).
      * intros k a _. destruct (p a); [apply NoDup_singleton | constructor].
      * intros k a c _ Hc. destruct (p a); [|set_solver].
        by apply list_elem_of_singleton in Hc as ->.
    + intros j row c _ (k & a & _ & Hc)%elem_of_concat_imap.
      destruct (p a); [|set_solver].
      by apply list_elem_of_singleton in Hc as ->.
  - intros i plane c _ (j & row & _ & Hc)%elem_of_concat_imap.
    apply elem_of_concat_imap in Hc as (k & a & _ & Hc).
    destruct (p a); [|set_solver].
    by apply list_elem_of_singleton in Hc as ->.
Qed.

End ArgwhereFacts.

(** ** LIDAR_couches.py: majority class and density threshold *)

Section ListFacts.
Local Open Scope Z_scope.

Lemma filter_ext_in {A} (P Q : A -> Prop)
  `{!forall a, Decision (P a)} `{!forall a, Decision (Q a)} (l : list A) :
  (forall a, a ∈ l -> P a <-> Q a) -> filter P l = filter Q l.
Proof.
  induction l as [|a l IH]; intros Heq; [done|].
  rewrite !filter_cons.
  destruct (decide (P a)) as [HP|HP], (decide (Q a)) as [HQ|HQ].
  - f_equal. apply IH. intros b Hb. apply Heq. set_solver.
  - exfalso. apply HQ, Heq; [set_solver | done].
  - exfalso. apply HP, Heq; [set_solver | done].
  - apply IH. intros b Hb. apply Heq. set_solver.
Qed.

Lemma elem_of_insert_asc a b l : b ∈ insert_asc a l <-> b = a \/ b ∈ l.
Proof.
  induction l as [|c l IH]; simpl.
  - rewrite list_elem_of_singleton. set_solver.
  - destruct (Z.eqb_spec a c) as [->|Hne].
    + set_solver.
    + destruct (a <? c); set_solver.
Qed.

Lemma insert_asc_asc a l : asc l -> asc (insert_asc a l).
Proof.
  induction 1 as [|c l Hlt Hd IH]; simpl.
  - constructor; [set_solver | constructor].
  - destruct (Z.eqb_spec a c) as [->|Hne]; [by constructor|].
    destruct (Z.ltb_spec a c) as [Hca|Hca].
    + constructor; [|by constructor].
      intros b [->|Hb]%elem_of_cons; [done|]. specialize (Hlt b Hb). lia.
    + constructor; [|done].
      intros b [->|Hb]%elem_of_insert_asc; [lia | by apply Hlt].
Qed.

Lemma elem_of_sorted_set_asc b l : b ∈ sorted_set_asc l <-> b ∈ l.
Proof.
  induction l as [|a l IH]; simpl; [done|].
  unfold sorted_set_asc in *. simpl. rewrite elem_of_insert_asc, IH. set_solver.
Qed.

Lemma sorted_set_asc_asc l : asc (sorted_set_asc l).
Proof. induction l; simpl; [constructor | by apply insert_asc_asc]. Qed.

Lemma asc_lookup_lt l (i j : nat) a b :
  asc l -> l !! i = Some a -> l !! j = Some b -> (i < j)%nat -> a < b.
Proof.
  intros Hl. revert i j. induction Hl as [|c l Hc Hl IH]; intros i j; [done|].
  destruct i as [|i], j as [|j]; simpl; try lia.
  - intros [= ->] Hb _. apply Hc. by eapply list_elem_of_lookup_2.
  - intros Ha Hb Hij. apply (IH i j); [done..|lia].
Qed.

Lemma asc_lookup_inj l (i j : nat) a :
  asc l -> l !! i = Some a -> l !! j = Some a -> i = j.
Proof.
  intros Hl Hi Hj. destruct (Nat.lt_total i j) as [Hlt|[->|Hlt]]; [|done|].
  - pose proof (asc_lookup_lt l i j a a Hl Hi Hj Hlt). lia.
  - pose proof (asc_lookup_lt l j i a a Hl Hj Hi Hlt). lia.
Qed.

End ListFacts.

Section CouchesFacts.
Import Couches.
Local Open Scope Z_scope.

Lemma index_of_Some c l i : index_of c l = Some i -> l !! i = Some c.
Proof.
  revert i. induction l as [|a l IH]; intros i; simpl; [done|].
  destruct (Z.eqb_spec a c) as [->|Hne]; [by intros [= <-]|].
  destruct (index_of c l) as [i'|]; simpl; [|done].
  intros [= <-]. simpl. by apply IH.
Qed.

Lemma index_of_elem c l : c ∈ l -> is_Some (index_of c l).
Proof.
  induction l as [|a l IH]; simpl; [set_solver|].
  destruct (Z.eqb_spec a c) as [->|Hne]; [eauto|].
  intros [->|Hc]%elem_of_cons; [done|].
  destruct (IH Hc) as [i ->]. simpl. eauto.
Qed.

Lemma index_of_lookup c l i : asc l -> l !! i = Some c -> index_of c l = Some i.
Proof.
  intros Hl Hi.
  destruct (index_of_elem c l) as [j Hj]; [by eapply list_elem_of_lookup_2|].
  rewrite Hj. f_equal. apply index_of_Some in Hj.
  by eapply asc_lookup_inj.
Qed.

(** [argmax] returns the first position of the maximum. *)
Lemma argmax_from_spec row : forall pre best best_i,
  pre !! best_i = Some best ->
  (forall j t, pre !! j = Some t -> t <= best /\ ((j < best_i)%nat -> t < best)) ->
  let r := argmax_from best best_i (List.length pre) row in
  exists t, (pre ++ row) !! r = Some t /\
    forall j t', (pre ++ row) !! j = Some t' -> t' <= t /\ ((j < r)%nat -> t' < t).
Proof.
  induction row as [|t row IH]; intros pre best best_i Hbest Hinv; simpl.
  - exists best. rewrite app_nil_r. done.
  - pose proof (lookup_lt_Some _ _ _ Hbest) as Hlt.
    replace (pre ++ t :: row) with ((pre ++ [t]) ++ row) by by rewrite <-app_assoc.
    replace (S (List.length pre)) with (List.length (pre ++ [t]))
      by (rewrite length_app; simpl; lia).
    destruct (Z.ltb_spec best t) as [Hbt|Hbt].
    + apply IH.
      * by rewrite lookup_app_r, Nat.sub_diag.
      * intros j t' Hj. apply lookup_app_Some in Hj as [Hj|[Hge Hj]].
        -- destruct (Hinv j t' Hj). lia.
        -- apply list_lookup_singleton_Some in Hj as [_ ->]. lia.
    + apply IH.
      * by rewrite lookup_app_l.
      * intros j t' Hj. apply lookup_app_Some in Hj as [Hj|[Hge Hj]].
        -- by apply Hinv.
        -- apply list_lookup_singleton_Some in Hj as [_ ->]. lia.
Qed.

Lemma argmax_spec row :
  row <> [] ->
  exists t, row !! argmax row = Some t /\
    forall j t', row !! j = Some t' ->
      t' <= t /\ ((j < argmax row)%nat -> t' < t).
Proof.
  destruct row as [|t0 row]; [done|]. intros _. unfold argmax.
  apply (argmax_from_spec row [t0] t0 O); [done|].
  intros [|j] t; simpl; [|done]. intros [= ->]. lia.
Qed.

(** Two positive entries make [count_positive] at least 2. *)
Lemma count_positive_two row (i j : nat) a b :
  row !! i = Some a -> row !! j = Some b -> i <> j -> 0 < a -> 0 < b ->
  2 <= count_positive row.
Proof.
  assert (forall (i j : nat) a b, (i < j)%nat ->
    row !! i = Some a -> row !! j = Some b -> 0 < a -> 0 < b ->
    2 <= count_positive row) as Hlt.
  { clear. intros i j a b Hij Hi Hj Ha Hb. unfold count_positive.
    rewrite <-(take_drop_middle row i a Hi), filter_app, filter_cons_True by done.
    assert (drop (S i) row !! (j - S i)%nat = Some b) as Hj'.
    { rewrite lookup_drop. rewrite <-Hj. f_equal. lia. }
    rewrite <-(take_drop_middle _ _ b Hj'), filter_app, filter_cons_True by done.
    rewrite !length_app. simpl. rewrite length_app. simpl. lia. }
  intros Hi Hj Hne Ha Hb.
  destruct (Nat.lt_total i j) as [Hij|[->|Hij]]; [by eapply Hlt|done|].
  by eapply (Hlt j i).
Qed.

Lemma ravel_multi_index_inj (ny nx nz : nat) iy ix iz vy vx vz :
  0 <= ix < Z.of_nat nx -> 0 <= iz < Z.of_nat nz ->
  0 <= vx < Z.of_nat nx -> 0 <= vz < Z.of_nat nz ->
  ravel_multi_index iy ix iz ny nx nz = ravel_multi_index vy vx vz ny nx nz ->
  iy = vy /\ ix = vx /\ iz = vz.
Proof.
  unfold ravel_multi_index. intros Hix Hiz Hvx Hvz Heq.
  set (a := (iy * Z.of_nat nx + ix) * Z.of_nat nz + iz) in *.
  assert (iy * Z.of_nat nx + ix = a / Z.of_nat nz) as H1
    by (apply Z.div_unique_pos with iz; lia).
  assert (vy * Z.of_nat nx + vx = a / Z.of_nat nz) as H2
    by (apply Z.div_unique_pos with vz; lia).
  set (q := iy * Z.of_nat nx + ix) in *.
  assert (iy = q / Z.of_nat nx) as H3
    by (apply Z.div_unique_pos with ix; lia).
  assert (vy = q / Z.of_nat nx) as H4
    by (apply Z.div_unique_pos with vx; lia).
  assert (iy = vy) as -> by congruence.
  assert (ix = vx) as -> by lia.
  split; [done|]. split; [done|]. lia.
Qed.

Lemma tally_votes ny nx nz cu pts (vy vx vz c : nat) k :
  asc cu -> cu !! c = Some k ->
  (forall p, p ∈ pts -> valid nx ny nz p = true) ->
  (vx < nx)%nat -> (vz < nz)%nat ->
  tally ny nx nz cu pts
    (ravel_multi_index (Z.of_nat vy) (Z.of_nat vx) (Z.of_nat vz) ny nx nz) c
  = votes pts vy vx vz k.
Proof.
  intros Hcu Hc Hvalid Hvx Hvz. unfold tally, votes. do 2 f_equal.
  apply filter_ext_in. intros p Hp. specialize (Hvalid p Hp).
  unfold valid in Hvalid. rewrite !andb_true_iff in Hvalid.
  rewrite !Z.leb_le, !Z.ltb_lt in Hvalid. unfold voxel_index.
  split.
  - intros [Hv Hidx]. apply ravel_multi_index_inj in Hv as (-> & -> & ->); [|lia..].
    split; [done|]. apply index_of_Some in Hidx. congruence.
  - intros [[= -> -> ->] <-]. split; [done|]. by apply index_of_lookup.
Qed.

Lemma shape3_class_maj_brut ny nx nz cu pts :
  shape3 ny nx nz (class_maj_brut ny nx nz cu pts).
Proof. apply shape3_map3, shape3_build3. Qed.

(** C4. In the grid that [LIDAR_couches] returns, whatever the histogram
    routine counted, every voxel whose count is below [densite_min] has
    count 0 and class 0: this holds of the count before the threshold (the
    voxel is reset) and of the count in the returned grid. *)
Theorem density_threshold_invariant
  (histogramdd : list (Z * Z * Z) -> nat * nat * nat -> array3 Z)
  (nx ny nz : nat) (points : list ipoint) (densite_min : Z)
  (counts class_maj : array3 Z) :
  (forall sample n1 n2 n3, shape3 n1 n2 n3 (histogramdd sample (n1, n2, n3))) ->
  1 <= densite_min ->
  LIDAR_couches histogramdd nx ny nz points densite_min = Return (counts, class_maj) ->
  shape3 ny nx nz counts /\ shape3 ny nx nz class_maj /\
  forall iy ix iz, (iy < ny)%nat -> (ix < nx)%nat -> (iz < nz)%nat ->
    exists c0 c m,
      get3 (histogramdd
              ((fun p => (p_iy p, p_ix p, p_iz p)) <$>
                 filter (fun p => valid nx ny nz p = true) points) (ny, nx, nz))
           iy ix iz = Some c0 /\
      get3 counts iy ix iz = Some c /\
      get3 class_maj iy ix iz = Some m /\
      (c0 < densite_min -> c = 0 /\ m = 0) /\
      (c < densite_min -> c = 0 /\ m = 0).
Proof.
  intros Hshape _. unfold LIDAR_couches.
  set (pts := filter (fun p => valid nx ny nz p = true) points).
  set (raw := histogramdd _ (ny, nx, nz)).
  set (cu := sorted_set_asc _).
  destruct (Nat.eqb (List.length cu) 0); [done|].
  intros [= <- <-].
  pose proof (Hshape ((fun p => (p_iy p, p_ix p, p_iz p)) <$> pts) ny nx nz) as Hraw.
  fold raw in Hraw.
  pose proof (shape3_class_maj_brut ny nx nz cu pts) as Hbrut.
  split; [by apply shape3_map3|]. split; [by apply shape3_zip_with3|].
  intros iy ix iz Hy Hx Hz.
  destruct (get3_shape3 _ _ _ _ iy ix iz Hraw Hy Hx Hz) as [c0 Hc0].
  destruct (get3_shape3 _ _ _ _ iy ix iz Hbrut Hy Hx Hz) as [m0 Hm0].
  exists c0, (if c0 <? densite_min then 0 else c0),
         (if c0 <? densite_min then 0 else m0).
  split; [done|]. split; [by rewrite get3_map3, Hc0|].
  split; [by rewrite (get3_zip_with3 _ raw _ iy ix iz c0 m0)|].
  destruct (Z.ltb_spec c0 densite_min); split; intros; (done || lia).
Qed.

Lemma shape3_histogram_cells sample n1 n2 n3 :
  shape3 n1 n2 n3 (histogram_cells sample (n1, n2, n3)).
Proof. apply shape3_build3. Qed.

(** C3. When a voxel holds a point of class 1 and a point of another
    class, the majority chosen before the density threshold is a class
    other than 1 that has the most votes among the classes other than 1,
    the lowest code among those with the most votes; the class of the
    returned grid is that one, or 0 where the threshold resets the voxel:
    never 1. *)
Theorem unclassified_suppressed
  (histogramdd : list (Z * Z * Z) -> nat * nat * nat -> array3 Z)
  (nx ny nz : nat) (points : list ipoint) (densite_min : Z)
  (counts class_maj : array3 Z) (vy vx vz : nat) (p1 p2 : ipoint) :
  (forall sample n1 n2 n3, shape3 n1 n2 n3 (histogramdd sample (n1, n2, n3))) ->
  LIDAR_couches histogramdd nx ny nz points densite_min = Return (counts, class_maj) ->
  (vy < ny)%nat -> (vx < nx)%nat -> (vz < nz)%nat ->
  p1 ∈ points -> p2 ∈ points ->
  (p_iy p1, p_ix p1, p_iz p1) = (Z.of_nat vy, Z.of_nat vx, Z.of_nat vz) ->
  (p_iy p2, p_ix p2, p_iz p2) = (Z.of_nat vy, Z.of_nat vx, Z.of_nat vz) ->
  p_classification p1 = 1 -> p_classification p2 <> 1 ->
  let pts := filter (fun p => valid nx ny nz p = true) points in
  let classes_uniques := sorted_set_asc (p_classification <$> pts) in
  exists maj m,
    get3 (class_maj_brut ny nx nz classes_uniques pts) vy vx vz = Some maj /\
    maj <> 1 /\
    0 < votes pts vy vx vz maj /\
    (forall k, k <> 1 ->
       votes pts vy vx vz k <= votes pts vy vx vz maj /\
       (votes pts vy vx vz k = votes pts vy vx vz maj -> maj <= k)) /\
    get3 class_maj vy vx vz = Some m /\
    (m = maj \/ m = 0) /\
    m <> 1.
Proof.
  intros Hshape Hret Hvy Hvx Hvz Hp1 Hp2 Hv1 Hv2 Hc1 Hc2 pts cu.
  (* the two points are kept by the validity filter *)
  assert (forall p, p ∈ pts -> valid nx ny nz p = true) as Hvalid.
  { intros p Hp. by apply list_elem_of_filter in Hp as [? _]. }
  assert (forall p, p ∈ points ->
    (p_iy p, p_ix p, p_iz p) = (Z.of_nat vy, Z.of_nat vx, Z.of_nat vz) ->
    p ∈ pts) as Hkept.
  { intros p Hp [= Hy Hx Hz]. apply list_elem_of_filter. split; [|done].
    unfold valid. rewrite Hy, Hx, Hz. rewrite !andb_true_iff, !Z.leb_le, !Z.ltb_lt. lia. }
  pose proof (Hkept _ Hp1 Hv1) as Hp1'. pose proof (Hkept _ Hp2 Hv2) as Hp2'.
  assert (asc cu) as Hasc by apply sorted_set_asc_asc.
  assert (forall k, k ∈ cu <-> exists p, p ∈ pts /\ p_classification p = k) as Hcu.
  { intros k. unfold cu. rewrite elem_of_sorted_set_asc, list_elem_of_fmap.
    naive_solver. }
  (* votes of a class that a point of the voxel carries are positive *)
  assert (forall p, p ∈ pts ->
    (p_iy p, p_ix p, p_iz p) = (Z.of_nat vy, Z.of_nat vx, Z.of_nat vz) ->
    0 < votes pts vy vx vz (p_classification p)) as Hpos.
  { intros p Hp Hv. unfold votes.
    assert (p ∈ filter (fun q =>
      (p_iy q, p_ix q, p_iz q) = (Z.of_nat vy, Z.of_nat vx, Z.of_nat vz) /\
      p_classification q = p_classification p) pts) as Hin
      by (by apply list_elem_of_filter).
    destruct (filter _ pts); [set_solver | simpl; lia]. }
  (* votes of a class absent from the sample are zero *)
  assert (forall k, k ∉ cu -> votes pts vy vx vz k = 0) as Hzero.
  { intros k Hk. unfold votes.
    destruct (filter _ pts) as [|q l] eqn:Hf; [done|]. exfalso. apply Hk, Hcu.
    assert (q ∈ filter (fun p =>
      (p_iy p, p_ix p, p_iz p) = (Z.of_nat vy, Z.of_nat vx, Z.of_nat vz) /\
      p_classification p = k) pts) as Hq by (rewrite Hf; set_solver).
    apply list_elem_of_filter in Hq as [[_ Hq] Hin]. eauto. }
  (* the row of tallies of the voxel *)
  set (v := ravel_multi_index (Z.of_nat vy) (Z.of_nat vx) (Z.of_nat vz) ny nx nz).
  set (row0 := tally ny nx nz cu pts v <$> seq 0 (List.length cu)).
  assert (forall (c : nat) k, cu !! c = Some k ->
    row0 !! c = Some (votes pts vy vx vz k)) as Hrow0.
  { intros c k Hc. unfold row0.
    rewrite list_lookup_fmap, lookup_seq_lt by by eapply lookup_lt_Some.
    simpl. f_equal. by apply tally_votes. }
  assert (List.length row0 = List.length cu) as Hlen0
    by (unfold row0; by rewrite length_fmap, length_seq).
  destruct (index_of_elem 1 cu) as [i1 Hi1]; [apply Hcu; eauto|].
  destruct (index_of_elem (p_classification p2) cu) as [i2 Hi2]; [apply Hcu; eauto|].
  pose proof (index_of_Some _ _ _ Hi1) as Hcu1.
  pose proof (index_of_Some _ _ _ Hi2) as Hcu2.
  assert (i1 <> i2) as Hne by congruence.
  pose proof (Hrow0 _ _ Hcu1) as Hr1. pose proof (Hrow0 _ _ Hcu2) as Hr2.
  pose proof (Hpos _ Hp1' Hv1) as Hpos1. rewrite Hc1 in Hpos1.
  pose proof (Hpos _ Hp2' Hv2) as Hpos2.
  pose proof (count_positive_two row0 i1 i2 _ _ Hr1 Hr2 Hne Hpos1 Hpos2) as Htwo.
  set (row := <[i1 := 0]> row0).
  assert (suppress_non_classe cu row0 = row) as Hsupp.
  { unfold suppress_non_classe. rewrite Hi1, Hr1. simpl.
    destruct (Z.ltb_spec 1 (count_positive row0)); [|lia].
    destruct (Z.ltb_spec 0 (votes pts vy vx vz 1)); [done|lia]. }
  assert (row <> []) as Hnil.
  { intros Hrow. apply (f_equal List.length) in Hrow.
    unfold row in Hrow. rewrite length_insert in Hrow.
    apply lookup_lt_Some in Hr1. simpl in Hrow. lia. }
  destruct (argmax_spec row Hnil) as (t & Ht & Hmax).
  set (i := argmax row) in *.
  assert (row !! i1 = Some 0) as Hrow1.
  { unfold row. apply list_lookup_insert_eq. by eapply lookup_lt_Some. }
  assert (row !! i2 = Some (votes pts vy vx vz (p_classification p2))) as Hrow2.
  { unfold row. by rewrite list_lookup_insert_ne. }
  assert (0 < t) as Htpos by (destruct (Hmax _ _ Hrow2); lia).
  assert (i <> i1) as Hii1 by (intros ->; rewrite Hrow1 in Ht; injection Ht; lia).
  assert (i < List.length cu)%nat as Hilt.
  { apply lookup_lt_Some in Ht. unfold row in Ht. rewrite length_insert in Ht. lia. }
  destruct (lookup_lt_is_Some_2 cu i Hilt) as [maj Hmaj].
  assert (t = votes pts vy vx vz maj) as Htv.
  { unfold row in Ht. rewrite list_lookup_insert_ne in Ht by done.
    rewrite (Hrow0 _ _ Hmaj) in Ht. congruence. }
  assert (maj <> 1) as Hmaj1.
  { intros ->. apply Hii1. by eapply asc_lookup_inj. }
  assert (get3 (class_maj_brut ny nx nz cu pts) vy vx vz = Some maj) as Hbrut.
  { unfold class_maj_brut, class_counts. rewrite get3_map3, get3_build3 by done.
    simpl. fold v. fold row0. rewrite Hsupp. fold i. by rewrite Hmaj. }
  (* the returned grid *)
  unfold LIDAR_couches in Hret. fold pts in Hret. fold cu in Hret.
  destruct (Nat.eqb (List.length cu) 0); [done|].
  injection Hret as <- <-.
  set (raw := histogramdd ((fun p => (p_iy p, p_ix p, p_iz p)) <$> pts) (ny, nx, nz)).
  destruct (get3_shape3 _ _ _ raw vy vx vz (Hshape _ ny nx nz) Hvy Hvx Hvz) as [c0 Hc0].
  exists maj, (if c0 <? densite_min then 0 else maj).
  split; [done|]. split; [done|]. split; [lia|]. split.
  { intros k Hk. destruct (decide (k ∈ cu)) as [Hin|Hnin].
    - apply list_elem_of_lookup in Hin as [j Hj].
      assert (j <> i1) as Hji1.
      { intros ->. rewrite Hcu1 in Hj. congruence. }
      assert (row !! j = Some (votes pts vy vx vz k)) as Hrj.
      { unfold row. rewrite list_lookup_insert_ne by done. by apply Hrow0. }
      destruct (Hmax _ _ Hrj) as [Hle Hlt]. split; [lia|].
      intros Heq. destruct (decide (j < i)%nat) as [Hji|Hji]; [specialize (Hlt Hji); lia|].
      destruct (decide (j = i)) as [->|Hne']; [rewrite Hmaj in Hj; injection Hj; lia|].
      assert (maj < k); [|lia]. apply (asc_lookup_lt cu i j); [done..|lia].
    - rewrite (Hzero k Hnin). lia. }
  split; [by rewrite (get3_zip_with3 _ raw _ vy vx vz c0 maj)|].
  destruct (c0 <? densite_min); split; auto.
Qed.

Example LIDAR_couches_sample :
  LIDAR_couches histogram_cells 2 1 1 sample_points 1
  = Return ([[[3]; [4]]], [[[6]; [3]]]) /\
  LIDAR_couches histogram_cells 2 1 1 sample_points 4
  = Return ([[[0]; [4]]], [[[0]; [3]]]).
Proof. split; vm_compute; reflexivity. Qed.

Lemma density_threshold_invariant_witness :
  shape3 1 2 1 [[[0]; [4]]] /\ shape3 1 2 1 [[[0]; [3]]] /\
  forall iy ix iz, (iy < 1)%nat -> (ix < 2)%nat -> (iz < 1)%nat ->
    exists c0 c m,
      get3 (histogram_cells
              ((fun p => (p_iy p, p_ix p, p_iz p)) <$>
                 filter (fun p => valid 2 1 1 p = true) sample_points) (1, 2, 1)%nat)
           iy ix iz = Some c0 /\
      get3 [[[0]; [4]]] iy ix iz = Some c /\
      get3 [[[0]; [3]]] iy ix iz = Some m /\
      (c0 < 4 -> c = 0 /\ m = 0) /\
      (c < 4 -> c = 0 /\ m = 0).
Proof.
  apply (density_threshold_invariant histogram_cells 2 1 1 sample_points 4).
  - exact shape3_histogram_cells.
  - lia.
  - vm_compute. reflexivity.
Defined.

Lemma unclassified_suppressed_witness :
  let pts := filter (fun p => valid 2 1 1 p = true) sample_points in
  let classes_uniques := sorted_set_asc (p_classification <$> pts) in
  exists maj m,
    get3 (class_maj_brut 1 2 1 classes_uniques pts) 0 1 0 = Some maj /\
    maj <> 1 /\
    0 < votes pts 0 1 0 maj /\
    (forall k, k <> 1 ->
       votes pts 0 1 0 k <= votes pts 0 1 0 maj /\
       (votes pts 0 1 0 k = votes pts 0 1 0 maj -> maj <= k)) /\
    get3 [[[6]; [3]]] 0 1 0 = Some m /\
    (m = maj \/ m = 0) /\
    m <> 1.
Proof.
  apply (unclassified_suppressed histogram_cells 2 1 1 sample_points 1
           [[[3]; [4]]] [[[6]; [3]]] 0 1 0 (mkPoint 1 0 0 1) (mkPoint 1 0 0 5)).
  - exact shape3_histogram_cells.
  - vm_compute. reflexivity.
  - lia.
  - lia.
  - lia.
  - unfold sample_points. do 3 apply list_elem_of_further. apply list_elem_of_here.
  - unfold sample_points. do 4 apply list_elem_of_further. apply list_elem_of_here.
  - reflexivity.
  - reflexivity.
  - reflexivity.
  - simpl. lia.
Defined.

End CouchesFacts.

(** ** LIDAR_traitement.py: pillars through the shell *)

Section PilierFacts.
Import Traitement.
Local Open Scope Z_scope.

(** A voxel that is not internal keeps its value. *)
Lemma coque_avec_piliers_kept class_sol pillar_step pillar_width
  (nx_max ny_max nz_max : nat) (grid : array3 Z) (x y z : nat) v :
  shape3 nx_max ny_max nz_max grid ->
  get3 grid x y z = Some v ->
  is_internal class_sol pillar_step pillar_width nx_max ny_max nz_max grid x y z
    = false ->
  get3 (coque_avec_piliers class_sol pillar_step pillar_width
          nx_max ny_max nz_max grid) x y z = Some v.
Proof.
  intros Hshape Hv Hint. unfold coque_avec_piliers.
  destruct (get3_Some_lt _ _ _ _ _ _ _ _ Hshape Hv) as (Hx & Hy & Hz).
  rewrite (get3_zip_with3 _ grid _ x y z v false); [done..|].
  by rewrite get3_build3, Hint.
Qed.

(** An internal voxel is set to 0. *)
Lemma coque_avec_piliers_removed class_sol pillar_step pillar_width
  (nx_max ny_max nz_max : nat) (grid : array3 Z) (x y z : nat) v :
  shape3 nx_max ny_max nz_max grid ->
  get3 grid x y z = Some v ->
  is_internal class_sol pillar_step pillar_width nx_max ny_max nz_max grid x y z
    = true ->
  get3 (coque_avec_piliers class_sol pillar_step pillar_width
          nx_max ny_max nz_max grid) x y z = Some 0.
Proof.
  intros Hshape Hv Hint. unfold coque_avec_piliers.
  destruct (get3_Some_lt _ _ _ _ _ _ _ _ Hshape Hv) as (Hx & Hy & Hz).
  rewrite (get3_zip_with3 _ grid _ x y z v true); [done..|].
  by rewrite get3_build3, Hint.
Qed.

Lemma is_internal_pillar class_sol pillar_step pillar_width
  (nx_max ny_max nz_max : nat) (grid : array3 Z) (x y z : nat) :
  0 < pillar_step ->
  Z.of_nat x mod pillar_step < pillar_width ->
  Z.of_nat y mod pillar_step < pillar_width ->
  is_internal class_sol pillar_step pillar_width nx_max ny_max nz_max grid x y z
    = false.
Proof.
  intros Hstep Hx Hy. unfold is_internal.
  apply Z.ltb_lt in Hstep, Hx, Hy. rewrite Hstep, Hx, Hy. simpl.
  apply andb_false_r.
Qed.

(** C6. With [pillar_step = 4] and [pillar_width = 2], in a column (x, y)
    of the dense grid with x mod 4 < 2 and y mod 4 < 2 the shell erosion
    changes no voxel: in particular every ground voxel of the column is
    still ground afterwards, whatever its six neighbours are. *)
Theorem pillar_preservation (class_sol : Z) (nx_max ny_max nz_max : nat)
  (grid : array3 Z) (x y : nat) :
  shape3 nx_max ny_max nz_max grid ->
  Z.of_nat x mod 4 < 2 -> Z.of_nat y mod 4 < 2 ->
  forall z,
    (forall v, get3 grid x y z = Some v ->
       get3 (coque_avec_piliers class_sol 4 2 nx_max ny_max nz_max grid) x y z
       = Some v) /\
    (get3 grid x y z = Some class_sol ->
       get3 (coque_avec_piliers class_sol 4 2 nx_max ny_max nz_max grid) x y z
       = Some class_sol).
Proof.
  intros Hshape Hx Hy z.
  assert (forall v, get3 grid x y z = Some v ->
    get3 (coque_avec_piliers class_sol 4 2 nx_max ny_max nz_max grid) x y z
    = Some v) as Hkept.
  { intros v Hv. apply coque_avec_piliers_kept; [done..|].
    by apply is_internal_pillar. }
  split; [exact Hkept | apply Hkept].
Qed.

Lemma shape3_bloc_sol : shape3 5 5 3 bloc_sol.
Proof. unfold shape3, bloc_sol. repeat constructor. Qed.

(** In the block the voxel (1, 1, 1) has six ground neighbours and stands in
    a pillar column: it survives. The voxel (2, 2, 1) has six ground
    neighbours too and stands in no pillar column: it is removed; without
    pillars ([pillar_step = 0]) both are removed. *)
Example coque_avec_piliers_bloc :
  get3 (coque_avec_piliers 2 4 2 5 5 3 bloc_sol) 1 1 1 = Some 2 /\
  get3 (coque_avec_piliers 2 4 2 5 5 3 bloc_sol) 2 2 1 = Some 0 /\
  get3 (coque_avec_piliers 2 0 2 5 5 3 bloc_sol) 1 1 1 = Some 0 /\
  get3 (coque_avec_piliers 2 0 2 5 5 3 bloc_sol) 2 2 1 = Some 0.
Proof. repeat split; vm_compute; reflexivity. Qed.

Lemma pillar_preservation_witness :
  (forall v, get3 bloc_sol 1 1 1 = Some v ->
     get3 (coque_avec_piliers 2 4 2 5 5 3 bloc_sol) 1 1 1 = Some v) /\
  (get3 bloc_sol 1 1 1 = Some 2 ->
     get3 (coque_avec_piliers 2 4 2 5 5 3 bloc_sol) 1 1 1 = Some 2).
Proof.
  apply (pillar_preservation 2 5 5 3 bloc_sol 1 1).
  - exact shape3_bloc_sol.
  - reflexivity.
  - reflexivity.
Defined.

End PilierFacts.

(** ** LIDAR_traitement.py: from grid to graph and back *)

Section RoundTripFacts.
Import Traitement.
Local Open Scope Z_scope.

Lemma node_attributes_Return (cm : array3 Z) coords :
  (forall c, c ∈ coords -> is_Some (get3 cm c.1.1 c.1.2 c.2)) ->
  node_attributes cm coords = Return (node_of cm <$> coords).
Proof.
  induction coords as [|[[iy ix] iz] coords IH]; intros Hall; simpl; [done|].
  destruct (Hall (iy, ix, iz)) as [c Hc]; [set_solver|]. simpl in Hc.
  rewrite Hc, IH by (intros; apply Hall; set_solver). simpl.
  unfold node_of at 2. simpl. by rewrite Hc.
Qed.

Lemma snd_imap_pair {A} (l : list A) :
  snd <$> imap (fun i d => (i, d)) l = l.
Proof.
  apply list_eq. intros i.
  rewrite list_lookup_fmap, list_lookup_imap. by destruct (l !! i).
Qed.

Lemma foldl_fill_voxel_shape n1 n2 n3 ds (C M : array3 Z) :
  shape3 n1 n2 n3 C -> shape3 n1 n2 n3 M ->
  shape3 n1 n2 n3 (foldl fill_voxel (C, M) ds).1 /\
  shape3 n1 n2 n3 (foldl fill_voxel (C, M) ds).2.
Proof.
  revert C M. induction ds as [|d ds IH]; intros C M HC HM; simpl; [done|].
  unfold fill_voxel at 2 4. destruct (coord d) as [[x y] z]. simpl.
  apply IH; by apply shape3_alter3.
Qed.

Lemma foldl_fill_voxel_other ds (C M : array3 Z) (y x z : nat) :
  (forall d, d ∈ ds -> coord d <> (x, y, z)) ->
  get3 (foldl fill_voxel (C, M) ds).1 y x z = get3 C y x z /\
  get3 (foldl fill_voxel (C, M) ds).2 y x z = get3 M y x z.
Proof.
  revert C M. induction ds as [|d ds IH]; intros C M Hall; simpl; [done|].
  unfold fill_voxel at 2 4.
  pose proof (Hall d ltac:(set_solver)) as Hd.
  destruct (coord d) as [[x' y'] z']. simpl.
  destruct (IH (alter3 (fun n => n + 1) y' x' z' C)
    (alter3 (fun m => if (m =? 0) || ((m =? 1) && negb (class_maj d =? 1))
                      then class_maj d else m) y' x' z' M)) as [-> ->].
  { intros d' Hd'. apply Hall. set_solver. }
  rewrite !get3_alter3_ne by congruence. done.
Qed.

Lemma foldl_fill_voxel_here ds (C M : array3 Z) d (y x z : nat) :
  NoDup (coord <$> ds) -> d ∈ ds -> coord d = (x, y, z) ->
  get3 C y x z = Some 0 -> get3 M y x z = Some 0 ->
  get3 (foldl fill_voxel (C, M) ds).1 y x z = Some 1 /\
  get3 (foldl fill_voxel (C, M) ds).2 y x z = Some (class_maj d).
Proof.
  revert C M. induction ds as [|d' ds IH]; intros C M Hnd Hin Hd HC HM;
    [set_solver|].
  simpl. unfold fill_voxel at 2 4.
  rewrite fmap_cons in Hnd. apply NoDup_cons in Hnd as [Hfresh Hnd].
  destruct (decide (coord d' = (x, y, z))) as [Heq|Hne].
  - assert (d' = d) as ->.
    { apply elem_of_cons in Hin as [->|Hin]; [done|]. exfalso. apply Hfresh.
      rewrite Heq, <-Hd. by apply list_elem_of_fmap_2. }
    rewrite Hd. simpl.
    destruct (foldl_fill_voxel_other ds
      (alter3 (fun n => n + 1) y x z C)
      (alter3 (fun m => if (m =? 0) || ((m =? 1) && negb (class_maj d =? 1))
                        then class_maj d else m) y x z M) y x z) as [-> ->].
    { intros d' Hd' Hc. apply Hfresh. rewrite Hd, <-Hc. by apply list_elem_of_fmap_2. }
    by rewrite !get3_alter3_eq, HC, HM.
  - apply elem_of_cons in Hin as [->|Hin]; [done|].
    destruct (coord d') as [[x' y'] z']. simpl.
    apply IH; [done..| |]; rewrite get3_alter3_ne; congruence.
Qed.

Lemma max_list_le ns m : (forall n, n ∈ ns -> (n <= m)%nat) -> (max_list ns <= m)%nat.
Proof.
  intros Hall. destruct ns as [|n ns]; [simpl; lia|].
  apply Hall, max_list_elem_of. done.
Qed.

(** C2 (as the code has it). For paired arrays of one shape whose counts
    are all 0 or 1, whose class is 0 wherever the count is 0, and whose last
    slice along each of the three axes holds a full voxel, turning the grid
    into a graph and the graph back into a grid returns the grid itself. *)
Theorem graph_round_trip (ny nx nz : nat) (counts cm : array3 Z) :
  shape3 ny nx nz counts -> shape3 ny nx nz cm ->
  (forall y x z c, get3 counts y x z = Some c -> c = 0 \/ c = 1) ->
  (forall y x z, get3 counts y x z = Some 0 -> get3 cm y x z = Some 0) ->
  (exists x z, get3 counts (pred ny) x z = Some 1) ->
  (exists y z, get3 counts y (pred nx) z = Some 1) ->
  (exists y x, get3 counts y x (pred nz) = Some 1) ->
  round_trip counts cm = Return (counts, cm).
Proof.
  intros Hcounts Hcm H01 Hempty (x1 & z1 & Hlasty) (y2 & z2 & Hlastx)
    (y3 & x3 & Hlastz).
  unfold round_trip, voxel_graphe.
  set (coords := argwhere3 (fun c => 0 <? c) counts).
  assert (forall y x z, (y, x, z) ∈ coords <-> get3 counts y x z = Some 1) as Hcoords.
  { intros y x z. unfold coords. rewrite elem_of_argwhere3. split.
    - intros (c & Hc & Hpos). apply Z.ltb_lt in Hpos.
      destruct (H01 _ _ _ _ Hc) as [->| ->]; [lia|done].
    - intros Hc. by exists 1. }
  assert (forall y x z, (y, x, z) ∈ coords ->
    (y < ny)%nat /\ (x < nx)%nat /\ (z < nz)%nat) as Hrange.
  { intros y x z Hc%Hcoords. exact (get3_Some_lt _ _ _ _ _ _ _ _ Hcounts Hc). }
  rewrite node_attributes_Return; last first.
  { intros [[y x] z] Hc. simpl. destruct (Hrange _ _ _ Hc) as (? & ? & ?).
    by eapply get3_shape3. }
  simpl. unfold graphe_voxel. simpl. rewrite snd_imap_pair.
  set (data := node_of cm <$> coords).
  assert (coords <> []) as Hne.
  { intros Hnil. apply Hcoords in Hlasty. rewrite Hnil in Hlasty. set_solver. }
  destruct data as [|d0 data'] eqn:Hdata.
  { unfold data in Hdata. by apply fmap_nil_inv in Hdata. }
  rewrite <-Hdata. clear Hdata d0 data'.
  (* the dimensions *)
  assert (forall (f : node_data -> nat) (g : nat * nat * nat -> nat) n,
    (forall c, f (node_of cm c) = g c) ->
    (forall c, c ∈ coords -> (g c < n)%nat) ->
    (exists c, c ∈ coords /\ g c = pred n) ->
    S (max_list (f <$> data)) = n) as Hdim.
  { intros f g n Hfg Hlt (c & Hc & Hlast).
    assert (max_list (f <$> data) <= pred n)%nat.
    { apply max_list_le. intros m (d & -> & (c' & -> & Hc')%list_elem_of_fmap)%list_elem_of_fmap.
      rewrite Hfg. specialize (Hlt _ Hc'). lia. }
    assert (pred n <= max_list (f <$> data))%nat.
    { apply max_list_elem_of_le. rewrite <-Hlast, <-Hfg.
      apply list_elem_of_fmap_2. unfold data. by apply list_elem_of_fmap_2. }
    specialize (Hlt _ Hc). lia. }
  rewrite (Hdim (fun d => (coord d).1.2) (fun c => c.1.1) ny); [|done|..]; cycle 1.
  { intros [[y x] z] Hc. simpl. by destruct (Hrange _ _ _ Hc) as (? & ? & ?). }
  { exists (pred ny, x1, z1). split; [by apply Hcoords|done]. }
  rewrite (Hdim (fun d => (coord d).1.1) (fun c => c.1.2) nx); [|done|..]; cycle 1.
  { intros [[y x] z] Hc. simpl. by destruct (Hrange _ _ _ Hc) as (? & ? & ?). }
  { exists (y2, pred nx, z2). split; [by apply Hcoords|done]. }
  rewrite (Hdim (fun d => (coord d).2) (fun c => c.2) nz); [|done|..]; cycle 1.
  { intros [[y x] z] Hc. simpl. by destruct (Hrange _ _ _ Hc) as (? & ? & ?). }
  { exists (y3, x3, pred nz). split; [by apply Hcoords|done]. }
  (* the cells *)
  assert (NoDup (coord <$> data)) as Hnd.
  { unfold data. rewrite <-list_fmap_compose.
    apply NoDup_fmap_2_strong; [|apply NoDup_argwhere3].
    intros [[y x] z] [[y' x'] z'] _ _. unfold node_of. simpl. congruence. }
  destruct (foldl_fill_voxel_shape ny nx nz data
    (full3 ny nx nz 0) (full3 ny nx nz 0)) as [HC' HM'];
    [apply shape3_full3..|].
  f_equal. apply injective_projections; simpl fst; simpl snd.
  - apply (array3_eq ny nx nz); [done..|]. intros y x z Hy Hx Hz.
    destruct (get3_shape3 _ _ _ counts y x z Hcounts Hy Hx Hz) as [c Hc].
    rewrite Hc. destruct (H01 _ _ _ _ Hc) as [->| ->].
    + destruct (foldl_fill_voxel_other data (full3 ny nx nz 0) (full3 ny nx nz 0)
        y x z) as [-> _]; [|by apply get3_full3].
      intros d (c' & -> & Hc')%list_elem_of_fmap Heq.
      destruct c' as [[y' x'] z']. unfold node_of in Heq. simpl in Heq.
      injection Heq as -> -> ->. apply Hcoords in Hc'. congruence.
    + apply (foldl_fill_voxel_here data _ _ (node_of cm (y, x, z)));
        [done| |done|by apply get3_full3..].
      unfold data. apply list_elem_of_fmap_2. by apply Hcoords.
  - apply (array3_eq ny nx nz); [done..|]. intros y x z Hy Hx Hz.
    destruct (get3_shape3 _ _ _ counts y x z Hcounts Hy Hx Hz) as [c Hc].
    destruct (H01 _ _ _ _ Hc) as [->| ->].
    + rewrite (Hempty _ _ _ Hc).
      destruct (foldl_fill_voxel_other data (full3 ny nx nz 0) (full3 ny nx nz 0)
        y x z) as [_ ->]; [|by apply get3_full3].
      intros d (c' & -> & Hc')%list_elem_of_fmap Heq.
      destruct c' as [[y' x'] z']. unfold node_of in Heq. simpl in Heq.
      injection Heq as -> -> ->. apply Hcoords in Hc'. congruence.
    + destruct (foldl_fill_voxel_here data (full3 ny nx nz 0) (full3 ny nx nz 0)
        (node_of cm (y, x, z)) y x z) as [_ ->];
        [done| |done|by apply get3_full3..|].
      * unfold data. apply list_elem_of_fmap_2. by apply Hcoords.
      * unfold node_of. simpl.
        by destruct (get3_shape3 _ _ _ cm y x z Hcm Hy Hx Hz) as [m ->].
Qed.

(** A grid of shape (1, 1, 2) with one point in each of its two voxels. *)
Lemma graph_round_trip_witness :
  round_trip [[[1; 1]]] [[[2; 6]]] = Return ([[[1; 1]]], [[[2; 6]]]).
Proof.
  apply (graph_round_trip 1 1 2).
  - unfold shape3. repeat constructor.
  - unfold shape3. repeat constructor.
  - intros [|[|y]] [|[|x]] [|[|[|z]]] c; vm_compute; intros [= <-]; auto.
  - intros [|[|y]] [|[|x]] [|[|[|z]]]; vm_compute; intros [=].
  - exists O, O. reflexivity.
  - exists O, O. reflexivity.
  - exists O, O. reflexivity.
Defined.

(** C2 (as the specification words it) fails: no cell of this grid holds
    two points, yet the empty upper layer is lost on the way back; and a
    count above 1 comes back as 1. *)
Lemma graph_round_trip_loses_shape :
  (forall y x z c, get3 [[[1; 0]]] y x z = Some c -> c = 0 \/ c = 1) /\
  round_trip [[[1; 0]]] [[[2; 0]]] = Return ([[[1]]], [[[2]]]) /\
  round_trip [[[1; 0]]] [[[2; 0]]] <> Return ([[[1; 0]]], [[[2; 0]]]).
Proof.
  split; [|split; [vm_compute; reflexivity | vm_compute; discriminate]].
  intros [|[|y]] [|[|x]] [|[|[|z]]] c; vm_compute; intros [= <-]; auto.
Qed.

Example round_trip_merges_counts :
  round_trip [[[3]]] [[[2]]] = Return ([[[1]]], [[[2]]]) /\
  round_trip [[[0]]] [[[0]]] = Raise ValueError.
Proof. split; vm_compute; reflexivity. Qed.

End RoundTripFacts.

(** ** LIDAR_traitement.py: components that touch the ground *)

Section FiltreSolFacts.
Import Traitement.

Lemma adjacent_sym G a b : adjacent G a b -> adjacent G b a.
Proof. unfold adjacent. tauto. Qed.

Lemma connected_sym G a b : connected G a b -> connected G b a.
Proof.
  induction 1 as [|a b c Hab _ IH]; [apply rtc_refl|].
  eapply rtc_r; [exact IH | by apply adjacent_sym].
Qed.

Lemma elem_of_neighbors G v m : m ∈ neighbors G v <-> adjacent G v m.
Proof.
  unfold neighbors, adjacent. rewrite elem_of_list_to_set, list_elem_of_In, in_flat_map.
  split.
  - intros ([a b] & Hin%list_elem_of_In & Hm). simpl in Hm.
    apply in_app_or in Hm as [Hm|Hm].
    + destruct (decide (a = v)) as [->|]; [|done]. left.
      destruct Hm as [<-|[]]. done.
    + destruct (decide (b = v)) as [->|]; [|done]. right.
      destruct Hm as [<-|[]]. done.
  - intros [Hin|Hin].
    + exists (v, m). split; [by apply list_elem_of_In|]. simpl.
      apply in_or_app. left. rewrite decide_True by done. by left.
    + exists (m, v). split; [by apply list_elem_of_In|]. simpl.
      apply in_or_app. right. rewrite decide_True by done. by left.
Qed.

(** The search returns a set that holds what was seen, holds only nodes
    connected to the source, and is closed under adjacency. *)
Lemma plain_bfs_spec G v (V : gset nat) :
  (forall a b, a ∈ V -> adjacent G a b -> b ∈ V) ->
  forall fuel (seen nextlevel : gset nat),
    nextlevel ⊆ seen -> seen ⊆ V ->
    (forall n, n ∈ seen -> connected G v n) ->
    (forall n m, n ∈ seen -> n ∉ nextlevel -> adjacent G n m -> m ∈ seen) ->
    size (V ∖ seen) + (if decide (nextlevel = ∅) then 0 else 1) <= fuel ->
    seen ⊆ plain_bfs fuel G seen nextlevel /\
    (forall n, n ∈ plain_bfs fuel G seen nextlevel -> connected G v n) /\
    (forall n m, n ∈ plain_bfs fuel G seen nextlevel -> adjacent G n m ->
       m ∈ plain_bfs fuel G seen nextlevel).
Proof.
  intros HV. induction fuel as [|fuel IH];
    intros seen nextlevel Hsub HseenV Hconn Hclosed Hfuel; simpl.
  - destruct (decide (nextlevel = ∅)) as [->|]; [|lia].
    split; [done|]. split; [done|]. intros n m Hn. apply Hclosed; set_solver.
  - destruct (decide (nextlevel = ∅)) as [->|Hne].
    { split; [done|]. split; [done|]. intros n m Hn. apply Hclosed; set_solver. }
    set (found := ⋃ (neighbors G <$> elements nextlevel) ∖ seen).
    assert (forall m, m ∈ found <->
      (exists n, n ∈ nextlevel /\ adjacent G n m) /\ m ∉ seen) as Hfound.
    { intros m. unfold found. rewrite elem_of_difference, elem_of_union_list.
      split.
      - intros [(X & (n & -> & Hn%elem_of_elements)%list_elem_of_fmap & Hm) Hns].
        split; [|done]. exists n. split; [done|]. by apply elem_of_neighbors.
      - intros [(n & Hn & Hadj) Hns]. split; [|done].
        exists (neighbors G n). split; [|by apply elem_of_neighbors].
        apply list_elem_of_fmap_2. by apply elem_of_elements. }
    assert (found ⊆ V) as HfoundV.
    { intros m [(n & Hn & Hadj) _]%Hfound. apply (HV n); [set_solver|done]. }
    destruct (IH (seen ∪ found) found) as (Hs & Hc & Hcl).
    + set_solver.
    + set_solver.
    + intros m [Hm|Hm]%elem_of_union; [by apply Hconn|].
      apply Hfound in Hm as [(n & Hn & Hadj) _].
      apply (rtc_r _ n); [apply Hconn; set_solver | done].
    + intros n m [Hn|Hn]%elem_of_union Hnf Hadj; [|done].
      destruct (decide (n ∈ nextlevel)) as [Hnl|Hnl].
      * destruct (decide (m ∈ seen)); [set_solver|].
        apply elem_of_union. right. apply Hfound. eauto.
      * apply elem_of_union. left. by apply (Hclosed n).
    + destruct (decide (found = ∅)) as [Hempty|Hnempty].
      * rewrite Hempty. replace (seen ∪ ∅) with seen by set_solver. lia.
      * assert (V ∖ (seen ∪ found) ⊂ V ∖ seen) as Hlt%subset_size; [|lia].
        apply set_choose_L in Hnempty as [m Hm].
        pose proof (HfoundV m Hm) as HmV.
        pose proof (proj1 (Hfound m) Hm) as [_ Hns].
        split; [set_solver|]. intros Hsubset.
        assert (m ∈ V ∖ (seen ∪ found)) as Hin by (apply Hsubset; set_solver).
        apply elem_of_difference in Hin as [_ Hin]. apply Hin.
        apply elem_of_union. by right.
    + split; [set_solver|done].
Qed.

Section WellFormed.
Variable G : Graph.
Hypothesis Hwf : graph_wf G.

Lemma adjacent_node a b : adjacent G a b -> a ∈ node_ids G /\ b ∈ node_ids G.
Proof. destruct Hwf as [_ Hedges]. intros [H|H]; apply Hedges in H; tauto. Qed.

Lemma connected_node a b : a ∈ node_ids G -> connected G a b -> b ∈ node_ids G.
Proof.
  intros Ha Hab. induction Hab as [|a b c Hab _ IH]; [done|].
  apply IH. by apply adjacent_node in Hab as [_ ?].
Qed.

(** The component of a node is the set of the nodes connected to it. *)
Lemma elem_of_component v m :
  v ∈ node_ids G -> m ∈ component G v <-> connected G v m.
Proof.
  intros Hv. unfold component.
  destruct (plain_bfs_spec G v (list_to_set (node_ids G))
    ltac:(intros a b _ Hadj%adjacent_node; set_solver)
    (S (List.length (nodes G))) {[v]} {[v]}) as (Hs & Hc & Hcl).
  - done.
  - set_solver.
  - intros n ->%elem_of_singleton. apply rtc_refl.
  - set_solver.
  - destruct (decide (({[v]} : gset nat) = ∅)); [set_solver|].
    assert (size (list_to_set (node_ids G) ∖ {[v]} : gset nat)
            <= List.length (nodes G)); [|lia].
    assert (size (list_to_set (node_ids G) ∖ {[v]} : gset nat)
            <= size (list_to_set (node_ids G) : gset nat)) as Hle
      by (apply subseteq_size; set_solver).
    destruct Hwf as [Hnd _]. rewrite size_list_to_set in Hle by done.
    unfold node_ids in Hle. rewrite length_fmap in Hle. done.
  - split; [apply Hc|]. revert m.
    apply (rtc_ind_r (fun m => m ∈ plain_bfs (S (List.length (nodes G))) G {[v]} {[v]}) v).
    + apply Hs. set_solver.
    + intros b c _ Hbc IH. by apply (Hcl b).
Qed.

Lemma components_from_component ids seen c :
  c ∈ components_from G ids seen -> exists v, v ∈ ids /\ c = component G v.
Proof.
  revert seen. induction ids as [|u ids IH]; intros seen; simpl; [set_solver|].
  destruct (decide (u ∈ seen)).
  - intros (v & Hv & ->)%IH. exists v. set_solver.
  - intros [->|(v & Hv & ->)%IH]%elem_of_cons; [exists u|exists v]; set_solver.
Qed.

Lemma components_from_cover ids seen v :
  (forall u, u ∈ ids -> u ∈ node_ids G) -> v ∈ ids ->
  v ∈ seen \/ exists c, c ∈ components_from G ids seen /\ v ∈ c.
Proof.
  revert seen. induction ids as [|u ids IH]; intros seen Hids Hv; [set_solver|].
  simpl. destruct (decide (u ∈ seen)) as [Hu|Hu].
  - apply elem_of_cons in Hv as [->|Hv]; [by left|].
    apply IH; [|done]. intros; apply Hids; set_solver.
  - apply elem_of_cons in Hv as [->|Hv].
    + right. exists (component G u). split; [set_solver|].
      apply elem_of_component; [apply Hids; set_solver | apply rtc_refl].
    + destruct (IH (seen ∪ component G u) ltac:(intros; apply Hids; set_solver) Hv)
        as [[Hs|Hc]%elem_of_union|(c & Hc & Hvc)].
      * by left.
      * right. exists (component G u). set_solver.
      * right. exists c. set_solver.
Qed.

Variable class_sol : Z.

Lemma elem_of_nodes_sol g :
  g ∈ fst <$> filter (fun nd => class_maj nd.2 = class_sol) (nodes G)
  <-> is_sol G class_sol g.
Proof.
  rewrite list_elem_of_fmap. unfold is_sol. split.
  - intros ([g' d] & -> & [Hd Hin]%list_elem_of_filter). by exists d.
  - intros (d & Hin & Hd). exists (g, d). split; [done|].
    by apply list_elem_of_filter.
Qed.

Lemma is_sol_node g : is_sol G class_sol g -> g ∈ node_ids G.
Proof. intros (d & Hin & _). unfold node_ids. by apply (list_elem_of_fmap_2 fst) in Hin. Qed.

(** The node set that the filter keeps: the nodes connected to a ground
    node. *)
Lemma elem_of_nodes_valides n :
  n ∈ nodes_valides G class_sol <->
  n ∈ node_ids G /\ exists g, is_sol G class_sol g /\ connected G n g.
Proof.
  unfold nodes_valides.
  set (nodes_sol := fst <$> filter (fun nd => class_maj nd.2 = class_sol) (nodes G)).
  split.
  - intros (c & Hc & Hnc)%elem_of_union_list.
    apply list_elem_of_filter in Hc as [Hsol Hc].
    apply components_from_component in Hc as (u & Hu & ->).
    apply Exists_exists in Hsol as (g & Hg%elem_of_elements & Hgs).
    apply elem_of_component in Hnc, Hg; [|done..].
    split; [by eapply connected_node|].
    exists g. split; [by apply elem_of_nodes_sol|].
    eapply rtc_trans; [by apply connected_sym|done].
  - intros [Hn (g & Hsol & Hng)].
    destruct (components_from_cover (node_ids G) ∅ n ltac:(done) Hn)
      as [?|(c & Hc & Hnc)]; [set_solver|].
    apply elem_of_union_list. exists c. split; [|done].
    apply list_elem_of_filter. split; [|done].
    pose proof Hc as (u & Hu & ->)%components_from_component.
    apply Exists_exists. exists g. split; [|by apply elem_of_nodes_sol].
    apply elem_of_elements, elem_of_component; [done|].
    apply elem_of_component in Hnc; [|done].
    eapply rtc_trans; done.
Qed.

End WellFormed.

Lemma elem_of_subgraph_nodes G keep n d :
  (n, d) ∈ nodes (subgraph G keep) <-> (n, d) ∈ nodes G /\ n ∈ keep.
Proof. unfold subgraph. simpl. rewrite list_elem_of_filter. simpl. tauto. Qed.

Lemma elem_of_subgraph_ids G keep n :
  n ∈ node_ids (subgraph G keep) <-> n ∈ node_ids G /\ n ∈ keep.
Proof.
  unfold node_ids. rewrite !list_elem_of_fmap. split.
  - intros ([n' d] & -> & [Hin Hk]%elem_of_subgraph_nodes). split; [|done].
    by exists (n', d).
  - intros [([n' d] & -> & Hin) Hk]. exists (n', d). split; [done|].
    by apply elem_of_subgraph_nodes.
Qed.

Lemma subgraph_adjacent G keep a b :
  adjacent (subgraph G keep) a b <-> adjacent G a b /\ a ∈ keep /\ b ∈ keep.
Proof.
  unfold adjacent, subgraph. simpl. rewrite !list_elem_of_filter. simpl. tauto.
Qed.

(** Inside a node set closed under adjacency, paths stay paths. *)
Lemma subgraph_connected G (keep : gset nat) a b :
  (forall n m, n ∈ keep -> adjacent G n m -> m ∈ keep) ->
  a ∈ keep -> connected G a b -> connected (subgraph G keep) a b.
Proof.
  intros Hclosed Ha Hab. induction Hab as [|a b c Hab _ IH]; [apply rtc_refl|].
  pose proof (Hclosed _ _ Ha Hab) as Hb.
  eapply rtc_l; [|by apply IH]. by apply subgraph_adjacent.
Qed.

Lemma subgraph_connected_inv G (keep : gset nat) a b :
  connected (subgraph G keep) a b -> connected G a b.
Proof.
  induction 1 as [|a b c Hab _ IH]; [apply rtc_refl|].
  eapply rtc_l; [|exact IH]. by apply subgraph_adjacent in Hab as [? _].
Qed.

(** C7. In the graph that [graphe_filtre_sol] returns every node is
    connected, inside the returned graph, to a node of the ground class:
    every connected component of the result holds a ground node. And when
    no node connected to [n] in the input is of the ground class, no node
    of the component of [n] is in the result. *)
Theorem graphe_filtre_sol_components (G : Graph) (class_sol : Z) :
  graph_wf G ->
  (forall n, n ∈ node_ids (graphe_filtre_sol G class_sol) ->
     exists g, is_sol (graphe_filtre_sol G class_sol) class_sol g /\
               connected (graphe_filtre_sol G class_sol) n g) /\
  (forall n, n ∈ node_ids G ->
     (forall g, connected G n g -> ~ is_sol G class_sol g) ->
     forall m, connected G n m -> m ∉ node_ids (graphe_filtre_sol G class_sol)).
Proof.
  intros Hwf. unfold graphe_filtre_sol.
  set (keep := nodes_valides G class_sol).
  pose proof (elem_of_nodes_valides G Hwf class_sol) as Hkeep. fold keep in Hkeep.
  assert (forall n m, n ∈ keep -> adjacent G n m -> m ∈ keep) as Hclosed.
  { intros n m [Hn (g & Hsol & Hng)]%Hkeep Hadj. apply Hkeep.
    split; [by apply (adjacent_node G Hwf) in Hadj as [_ ?]|].
    exists g. split; [done|].
    eapply rtc_l; [by apply adjacent_sym|done]. }
  split.
  - intros n [Hn Hk]%elem_of_subgraph_ids.
    pose proof Hk as [_ (g & Hsol & Hng)]%Hkeep.
    exists g. split; [|by apply subgraph_connected].
    destruct Hsol as (d & Hd & Hc). exists d. split; [|done].
    apply elem_of_subgraph_nodes. split; [done|]. apply Hkeep.
    split; [by apply (list_elem_of_fmap_2 fst) in Hd|].
    exists g. split; [by exists d | apply rtc_refl].
  - intros n Hn Hnone m Hnm [Hm Hk]%elem_of_subgraph_ids.
    apply Hkeep in Hk as [_ (g & Hsol & Hmg)].
    apply (Hnone g); [|done]. eapply rtc_trans; done.
Qed.

(** A check of [graph_wf] by evaluation. *)
Lemma graph_wf_check G :
  bool_decide (NoDup (node_ids G)) &&
  forallb (fun e : nat * nat =>
    bool_decide (e.1 ∈ node_ids G) && bool_decide (e.2 ∈ node_ids G)) (edges G)
  = true ->
  graph_wf G.
Proof.
  intros [Hnd Hedges]%andb_true_iff. split; [by apply bool_decide_eq_true_1 in Hnd|].
  intros a b Hin%list_elem_of_In.
  rewrite forallb_forall in Hedges. apply Hedges in Hin.
  apply andb_true_iff in Hin as [Ha Hb].
  split; by eapply bool_decide_eq_true_1.
Qed.

Lemma graph_wf_scene_flottante : graph_wf scene_flottante.
Proof. apply graph_wf_check. vm_compute. reflexivity. Qed.

(** The floating cluster of five voxels is removed as a whole. *)
Example graphe_filtre_sol_scene :
  graphe_filtre_sol scene_flottante 2
  = mkGraph [ (0, mkNode (0, 0, 0) 2); (1, mkNode (0, 0, 1) 6) ]%nat
            [ (0, 1); (1, 0) ]%nat.
Proof. vm_compute. reflexivity. Qed.

Lemma graphe_filtre_sol_components_witness :
  (forall n, n ∈ node_ids (graphe_filtre_sol scene_flottante 2) ->
     exists g, is_sol (graphe_filtre_sol scene_flottante 2) 2 g /\
               connected (graphe_filtre_sol scene_flottante 2) n g) /\
  (forall n, n ∈ node_ids scene_flottante ->
     (forall g, connected scene_flottante n g -> ~ is_sol scene_flottante 2 g) ->
     forall m, connected scene_flottante n m ->
       m ∉ node_ids (graphe_filtre_sol scene_flottante 2)).
Proof.
  apply (graphe_filtre_sol_components scene_flottante 2).
  exact graph_wf_scene_flottante.
Defined.

End FiltreSolFacts.

(** ** cost_func_change.py: the total cost *)

Section CostFacts.
Import Merge Cost.

Lemma foldl_invariant {A B} (P : A -> Prop) (f : A -> B -> A) (l : list B) a :
  P a -> (forall a b, P a -> P (f a b)) -> P (foldl f a l).
Proof.
  intros Ha Hstep. revert a Ha. induction l as [|b l IH]; intros a Ha; simpl; auto.
Qed.

Lemma foldl_pointwise {A B} (f g : A -> B -> A) (l : list B) a :
  (forall a b, f a b = g a b) -> foldl f a l = foldl g a l.
Proof.
  intros Hfg. revert a. induction l as [|b l IH]; intros a; simpl; [done|].
  by rewrite Hfg, IH.
Qed.

Lemma perpendicularity_penalty_nonneg layer_bricks grid current_z :
  (0 <= perpendicularity_penalty_fast layer_bricks grid current_z)%Z.
Proof.
  unfold perpendicularity_penalty_fast.
  apply (foldl_invariant (fun st : Z * list (nat * nat) => (0 <= st.1)%Z)); [simpl; lia|].
  intros st b Hst. destruct (bbox b.2) as [[[x1 y1] x2] y2].
  apply (foldl_invariant (fun st : Z * list (nat * nat) => (0 <= st.1)%Z)); [done|].
  clear st Hst. intros st ix Hst.
  apply (foldl_invariant (fun st : Z * list (nat * nat) => (0 <= st.1)%Z)); [done|].
  clear st Hst. intros st iy Hst.
  destruct (grid !! _) as [below|]; [|done].
  destruct (bool_decide _); [done|]. simpl.
  destruct (String.eqb _ _); lia.
Qed.

Lemma vertical_boundary_penalty_nonneg layer_bricks grid current_z :
  (0 <= vertical_boundary_penalty_fast layer_bricks grid current_z)%Z.
Proof.
  unfold vertical_boundary_penalty_fast.
  apply (foldl_invariant (fun p : Z => (0 <= p)%Z)); [lia|].
  intros p b Hp. destruct (bbox b.2) as [[[x1 y1] x2] y2].
  repeat match goal with
         | |- context [bool_decide ?P] => destruct (bool_decide P)
         | |- context [String.eqb ?a ?b] => destruct (String.eqb a b)
         end; lia.
Qed.

Section WithFloat.
Context {F : Type} `{Float64Sign F}.
Variable set_iter : list brick_obj -> list brick_obj.

Lemma horizontal_alignment_penalty_nonneg layer_bricks grid current_z :
  f_le (f_of_Z 0)
    (horizontal_alignment_penalty_fast set_iter layer_bricks grid current_z).
Proof.
  unfold horizontal_alignment_penalty_fast.
  apply (foldl_invariant (fun p : F => f_le (f_of_Z 0) p));
    [by apply f_of_Z_nonneg|].
  intros p b Hp. destruct (bbox b.2) as [[[x1 y1] x2] y2].
  apply (foldl_invariant (fun p : F => f_le (f_of_Z 0) p)); [done|].
  clear p Hp. intros p n Hp. destruct (bbox n.2) as [[[nx1 ny1] nx2] ny2].
  assert (forall lo edge hi center q, f_le (f_of_Z 0) q ->
    f_le (f_of_Z 0)
      (if (lo <? edge)%Z && (edge <? hi)%Z
       then f_add q (f_div (f_abs (f_sub (f_of_Z edge) center))
                           (f_div (f_of_Z (hi - lo)) (f_of_Z 2)))
       else q)) as Hjunction.
  { intros lo edge hi center q Hq.
    destruct (Z.ltb_spec lo edge); [|done].
    destruct (Z.ltb_spec edge hi); [|done]. simpl.
    apply f_add_nonneg; [done|].
    apply f_div_nonneg; [apply f_abs_nonneg | apply f_half_pos; lia]. }
  destruct (String.eqb _ "H"); [by do 2 apply Hjunction|].
  destruct (String.eqb _ "V"); [by do 2 apply Hjunction|done].
Qed.


End WithFloat.

#[local] Instance Float64Sign_Q : Float64Sign Q.
Proof.
  split; simpl.
  - intros n Hn. by rewrite <-Zle_Qle.
  - intros a b Ha Hb. change (inject_Z 0) with 0%Q in *.
    rewrite <-(Qplus_0_l 0). by apply Qplus_le_compat.
  - intros a b. change (inject_Z 0) with 0%Q. apply Qmult_le_0_compat.
  - intros a. change (inject_Z 0) with 0%Q. apply Qabs_nonneg.
  - intros n Hn. change (inject_Z 0) with 0%Q. apply Qlt_shift_div_l; [done|].
    rewrite Qmult_0_l. change 0%Q with (inject_Z 0). by rewrite <-Zlt_Qlt.
  - intros a b Ha Hb. change (inject_Z 0) with 0%Q in *.
    apply Qle_shift_div_l; [done|]. by rewrite Qmult_0_l.
Qed.


(** Stacking a Horizontal brick right on a Horizontal one costs one
    perpendicularity point more than crossing them. *)
Example total_cost_piles :
  total_cost_function (F := Q) id pile_HH 1%Q 1%Q 1%Q == 3%Q /\
  total_cost_function (F := Q) id pile_HV 1%Q 1%Q 1%Q == 2%Q /\
  perpendicularity_penalty_fast (filter (fun b => b_layer b.2 = 1%Z) pile_HH)
    (build_grid_map pile_HH) 1 = 1%Z /\
  perpendicularity_penalty_fast (filter (fun b => b_layer b.2 = 1%Z) pile_HV)
    (build_grid_map pile_HV) 1 = 0%Z.
Proof. repeat split; vm_compute; reflexivity. Qed.

End CostFacts.

(** ** donnees_echantillonnees_LIDAR.py: size of a sample *)

Section EchantillonFacts.
Import Echantillon.
Context {F S : Type}.
Variable leb : F -> F -> bool.
Variable add sub : F -> F -> F.
Variable uniform : F -> F -> S -> F * S.
Variable choice : list nat -> nat -> S -> list nat * S.

Lemma length_indices_where {A B} (P : A -> bool) (g : nat -> A -> list B)
  (l : list A) :
  (forall i a, List.length (g i a) = if P a then 1 else 0) ->
  List.length (concat (imap g l))
  = List.length (filter (fun a => P a = true) l).
Proof.
  revert g. induction l as [|a l IH]; intros g Hg; [done|].
  rewrite imap_cons, filter_cons. simpl. rewrite length_app, Hg.
  rewrite (IH (g ∘ Datatypes.S)) by (intros; apply Hg).
  case_decide as Hd; destruct (P a); simpl; congruence.
Qed.

Lemma length_indices_zone x0 x1 y0 y1 (las : list (point F)) :
  List.length (indices_zone leb x0 x1 y0 y1 las)
  = List.length (filter (fun p => masque_zone leb x0 x1 y0 y1 p = true) las).
Proof.
  apply length_indices_where. intros i p.
  by destruct (masque_zone leb x0 x1 y0 y1 p).
Qed.

Lemma indices_zone_lt x0 x1 y0 y1 (las : list (point F)) i :
  i ∈ indices_zone leb x0 x1 y0 y1 las -> i < List.length las.
Proof.
  intros (j & p & Hj & Hi)%elem_of_concat_imap.
  destruct (masque_zone _ _ _ _ _ _); [|set_solver].
  apply list_elem_of_singleton in Hi as ->. by eapply lookup_lt_Some.
Qed.

Lemma take_points_Return (las : list (point F)) indices :
  (forall i, i ∈ indices -> i < List.length las) ->
  exists ps, take_points las indices = Return ps /\
             List.length ps = List.length indices.
Proof.
  induction indices as [|i indices IH]; intros Hlt; simpl; [by exists []|].
  destruct (lookup_lt_is_Some_2 las i) as [p ->]; [apply Hlt; set_solver|].
  destruct IH as (ps & -> & Hlen); [intros; apply Hlt; set_solver|].
  exists (p :: ps). simpl. by rewrite Hlen.
Qed.

Hypothesis choice_spec : forall a size s,
  size <= List.length a ->
  List.length (choice a size s).1 = size /\
  forall i, i ∈ (choice a size s).1 -> i ∈ a.

Lemma echantillonner_length (las : list (point F)) nb_points indices s :
  (forall i, i ∈ indices -> i < List.length las) ->
  exists res s',
    echantillonner choice las nb_points indices s = Return (res, s') /\
    List.length res = Nat.min (List.length indices) nb_points.
Proof.
  intros Hlt. unfold echantillonner.
  destruct (Nat.ltb_spec nb_points (List.length indices)) as [Hmany|Hfew].
  - destruct (choice_spec indices nb_points s ltac:(lia)) as [Hlen Hsub].
    destruct (choice indices nb_points s) as [chosen s'] eqn:Hch. simpl in *.
    destruct (take_points_Return las chosen) as (ps & -> & Hps).
    { intros i Hi. by apply Hlt, Hsub. }
    exists ps, s'. simpl. split; [done|]. lia.
  - destruct (take_points_Return las indices Hlt) as (ps & -> & Hps).
    exists ps, s. simpl. split; [done|]. lia.
Qed.

Lemma np_min_Return (a : list F) : a <> [] -> exists v, np_min leb a = Return v.
Proof. destruct a; [done|]. simpl. eauto. Qed.

Lemma np_max_Return (a : list F) : a <> [] -> exists v, np_max leb a = Return v.
Proof. destruct a; [done|]. simpl. eauto. Qed.


End EchantillonFacts.

Section EchantillonExamples.
Import Echantillon.

Lemma choice_first_spec a size (s : unit) :
  size <= List.length a ->
  List.length (choice_first a size s).1 = size /\
  forall i, i ∈ (choice_first a size s).1 -> i ∈ a.
Proof.
  intros Hsize. unfold choice_first. simpl. split.
  - rewrite length_take. lia.
  - intros i Hi. by apply (subseteq_take size a).
Qed.

Example LIDAR_rectangle_nuage :
  LIDAR_rectangle Qle_bool Qplus choice_first nuage 10 0%Q 0%Q 2%Q 2%Q tt
  = Return ([ mkPoint 0%Q 0%Q 0%Q 2; mkPoint 1%Q 0%Q 3%Q 6 ], tt) /\
  LIDAR_rectangle Qle_bool Qplus choice_first nuage 1 0%Q 0%Q 2%Q 2%Q tt
  = Return ([ mkPoint 0%Q 0%Q 0%Q 2 ], tt) /\
  LIDAR_rectangle Qle_bool Qplus choice_first nuage 10 7%Q 7%Q 2%Q 2%Q tt
  = Return ([], tt).
Proof. repeat split. Qed.



End EchantillonExamples.

(** ** merge.py: neighbours and footprints *)

Section MergeMore.
Import Merge.
Local Open Scope Z_scope.

Lemma are_neighbors_true b1 b2 :
  are_neighbors b1 b2 = true <->
  b_layer b1 = b_layer b2 /\
  (((b_x b1 + b_length b1 = b_x b2 \/ b_x b2 + b_length b2 = b_x b1) /\
    ~ (b_y b1 + b_width b1 <= b_y b2 \/ b_y b2 + b_width b2 <= b_y b1)) \/
   ((b_y b1 + b_width b1 = b_y b2 \/ b_y b2 + b_width b2 = b_y b1) /\
    ~ (b_x b1 + b_length b1 <= b_x b2 \/ b_x b2 + b_length b2 <= b_x b1))).
Proof.
  unfold are_neighbors, bbox.
  destruct (Z.eqb_spec (b_layer b1) (b_layer b2)) as [Hl|Hl]; simpl;
    [|split; [discriminate | tauto]].
  rewrite orb_true_iff, !andb_true_iff, !negb_true_iff, !orb_false_iff,
    !orb_true_iff, !Z.eqb_eq, !Z.leb_gt. split.
  - intros [[H1 [H2 H3]]|[H1 [H2 H3]]]; (split; [done|]); [left|right];
      (split; [done|lia]).
  - intros [_ [[H1 H2]|[H1 H2]]]; [left|right]; (split; [done|lia]).
Qed.

Lemma are_neighbors_sym b1 b2 : are_neighbors b1 b2 = are_neighbors b2 b1.
Proof.
  apply eq_true_iff_eq. rewrite !are_neighbors_true.
  split; intros [Hl H]; (split; [done|]); clear Hl; intuition lia.
Qed.

(** X1. The neighbour relation does not depend on the order of the two bricks,
    and two neighbours share no cell. *)
Theorem are_neighbors_sym_disjoint (b1 b2 : Brick) :
  are_neighbors b1 b2 = are_neighbors b2 b1 /\
  (are_neighbors b1 b2 = true ->
   forall cx cy, ~ (covers b1 cx cy /\ covers b2 cx cy)).
Proof.
  split; [apply are_neighbors_sym|].
  intros Hn cx cy [H1 H2]. apply are_neighbors_true in Hn as [_ Hn].
  unfold covers in *. lia.
Qed.

Lemma are_neighbors_sym_disjoint_witness :
  are_neighbors (mkBrick 0 0 0 2 1 7 "H") (mkBrick 0 2 0 2 1 7 "H")
  = are_neighbors (mkBrick 0 2 0 2 1 7 "H") (mkBrick 0 0 0 2 1 7 "H") /\
  (are_neighbors (mkBrick 0 0 0 2 1 7 "H") (mkBrick 0 2 0 2 1 7 "H") = true ->
   forall cx cy, ~ (covers (mkBrick 0 0 0 2 1 7 "H") cx cy /\
                    covers (mkBrick 0 2 0 2 1 7 "H") cx cy)).
Proof.
  exact (are_neighbors_sym_disjoint (mkBrick 0 0 0 2 1 7 "H") (mkBrick 0 2 0 2 1 7 "H")).
Defined.

Lemma can_merge_sym b1 b2 : can_merge b1 b2 = can_merge b2 b1.
Proof.
  apply eq_true_iff_eq. rewrite !can_merge_true.
  rewrite (are_neighbors_sym b1 b2).
  split; intros (Hl & Hc & Ho & Hn & H); rewrite <-?Ho, ?Ho; intuition congruence.
Qed.

(** X2. The longitudinal merge does not depend on the order of the two bricks. *)
Theorem merge_bricks_comm (V : catalog) (b1 b2 : Brick) :
  merge_bricks V b1 b2 = merge_bricks V b2 b1.
Proof.
  unfold merge_bricks. rewrite (can_merge_sym b2 b1).
  destruct (can_merge b1 b2) eqn:Hcm; simpl; [|done].
  apply can_merge_true in Hcm as (Hl & Hc & Ho & _ & Hcase).
  rewrite <-Ho, <-Hl, <-Hc.
  destruct Hcase as [(HH & Hy & Hw)|(HV & Hx & Hlen)].
  - rewrite HH. simpl. rewrite <-Hy, <-Hw.
    by rewrite (Z.min_comm (b_x b2)), (Z.add_comm (b_length b2)).
  - rewrite HV. simpl. rewrite <-Hx, <-Hlen.
    by rewrite (Z.min_comm (b_y b2)), (Z.add_comm (b_width b2)).
Qed.

(** X3. The brick that a longitudinal merge returns lies on the layer of the two
    bricks, has their color and orientation, and covers exactly the cells
    that the two bricks cover. *)
Theorem merge_bricks_footprint (V : catalog) (b1 b2 r : Brick) :
  positive_size b1 -> positive_size b2 ->
  merge_bricks V b1 b2 = Some r ->
  b_layer r = b_layer b1 /\ b_color r = b_color b1 /\
  b_orientation r = b_orientation b1 /\
  area r = area b1 + area b2 /\
  forall cx cy, covers r cx cy <-> covers b1 cx cy \/ covers b2 cx cy.
Proof.
  intros [Hl1 Hw1] [Hl2 Hw2]. unfold merge_bricks, is_valid_lego_part.
  destruct (can_merge b1 b2) eqn:Hcm; simpl; [|done].
  apply can_merge_true in Hcm as (Hl & Hc & Ho & Hn & Hcase).
  apply are_neighbors_true in Hn as [_ Hn].
  destruct Hcase as [(HH & Hy & Hw)|(HV & Hx & Hlen)].
  - rewrite HH. simpl. destruct (in_catalog _ V); [|done].
    intros [= <-]. unfold area, covers. simpl.
    repeat split; try done; try lia; intros; lia.
  - rewrite HV. simpl. destruct (in_catalog _ V); [|done].
    intros [= <-]. unfold area, covers. simpl.
    repeat split; try done; try lia; intros; lia.
Qed.

Lemma merge_bricks_footprint_witness :
  b_layer (mkBrick 0 0 0 2 1 7 "H") = b_layer (mkBrick 0 0 0 1 1 7 "H") /\
  b_color (mkBrick 0 0 0 2 1 7 "H") = b_color (mkBrick 0 0 0 1 1 7 "H") /\
  b_orientation (mkBrick 0 0 0 2 1 7 "H") = b_orientation (mkBrick 0 0 0 1 1 7 "H") /\
  area (mkBrick 0 0 0 2 1 7 "H")
  = area (mkBrick 0 0 0 1 1 7 "H") + area (mkBrick 0 1 0 1 1 7 "H") /\
  forall cx cy, covers (mkBrick 0 0 0 2 1 7 "H") cx cy <->
    covers (mkBrick 0 0 0 1 1 7 "H") cx cy \/ covers (mkBrick 0 1 0 1 1 7 "H") cx cy.
Proof.
  apply (merge_bricks_footprint VALID_SIZES
           (mkBrick 0 0 0 1 1 7 "H") (mkBrick 0 1 0 1 1 7 "H")).
  - unfold positive_size. simpl. lia.
  - unfold positive_size. simpl. lia.
  - reflexivity.
Defined.

Lemma can_merge_side_true b1 b2 :
  can_merge_side b1 b2 = true <->
  b_layer b1 = b_layer b2 /\ b_color b1 = b_color b2 /\
  b_orientation b1 = b_orientation b2 /\ are_neighbors b1 b2 = true /\
  ((b_orientation b1 = "H"%string /\ b_x b1 = b_x b2 /\ b_length b1 = b_length b2) \/
   (b_orientation b1 = "V"%string /\ b_y b1 = b_y b2 /\ b_width b1 = b_width b2)).
Proof.
  unfold can_merge_side.
  destruct (Z.eqb_spec (b_layer b1) (b_layer b2)) as [Hl|Hl]; simpl;
    [|split; [discriminate | tauto]].
  destruct (Z.eqb_spec (b_color b1) (b_color b2)) as [Hc|Hc]; simpl;
    [|split; [discriminate | tauto]].
  destruct (String.eqb_spec (b_orientation b1) (b_orientation b2)) as [Ho|Ho]; simpl;
    [|split; [discriminate | tauto]].
  destruct (are_neighbors b1 b2); simpl; [|split; [discriminate | intuition (try congruence)]].
  destruct (String.eqb_spec (b_orientation b1) "H") as [HH|HH].
  - rewrite andb_true_iff, !Z.eqb_eq. rewrite HH. intuition (try congruence).
  - destruct (String.eqb_spec (b_orientation b1) "V") as [HV|HV].
    + rewrite andb_true_iff, !Z.eqb_eq. rewrite HV. intuition (try congruence).
    + split; [discriminate | tauto].
Qed.

Lemma merge_bricks_side_facts (V : catalog) (b1 b2 r : Brick) :
  positive_size b1 -> positive_size b2 ->
  merge_bricks_side V b1 b2 = Some r ->
  b_layer b1 = b_layer b2 /\ b_color b1 = b_color b2 /\
  b_orientation b1 = b_orientation b2 /\
  b_layer r = b_layer b1 /\ b_color r = b_color b1 /\
  b_orientation r = b_orientation b1 /\
  in_catalog (b_length r, b_width r) V = true /\
  area r = area b1 + area b2 /\
  positive_size r /\
  forall cx cy, covers r cx cy <-> covers b1 cx cy \/ covers b2 cx cy.
Proof.
  intros [Hl1 Hw1] [Hl2 Hw2]. unfold merge_bricks_side, is_valid_lego_part.
  destruct (can_merge_side b1 b2) eqn:Hcm; simpl; [|done].
  apply can_merge_side_true in Hcm as (Hl & Hc & Ho & Hn & Hcase).
  apply are_neighbors_true in Hn as [_ Hn].
  destruct Hcase as [(HH & Hx & Hlen)|(HV & Hy & Hw)].
  - rewrite HH. simpl. destruct (in_catalog _ V) eqn:Hin; [|done].
    intros [= <-]. unfold area, covers, positive_size. simpl.
    repeat split; try done; try lia; try (intros; lia); try nia; try congruence.
  - rewrite HV. simpl. destruct (in_catalog _ V) eqn:Hin; [|done].
    intros [= <-]. unfold area, covers, positive_size. simpl.
    repeat split; try done; try lia; try (intros; lia); try nia; try congruence.
Qed.

(** X4. The lateral merge returns a brick only for two bricks of one layer,
    color and orientation, and its brick covers exactly the cells that the
    two bricks cover; its size is in the catalog. *)
Theorem merge_bricks_side_footprint (V : catalog) (b1 b2 r : Brick) :
  positive_size b1 -> positive_size b2 ->
  merge_bricks_side V b1 b2 = Some r ->
  b_layer b1 = b_layer b2 /\ b_color b1 = b_color b2 /\
  b_orientation b1 = b_orientation b2 /\
  b_layer r = b_layer b1 /\ b_color r = b_color b1 /\
  b_orientation r = b_orientation b1 /\
  in_catalog (b_length r, b_width r) V = true /\
  area r = area b1 + area b2 /\
  forall cx cy, covers r cx cy <-> covers b1 cx cy \/ covers b2 cx cy.
Proof.
  intros H1 H2 Hr.
  destruct (merge_bricks_side_facts V b1 b2 r H1 H2 Hr)
    as (Ha & Hb & Hc & Hd & He & Hf & Hg & Hh & _ & Hcov).
  split; [done|]. split; [done|]. split; [done|]. split; [done|].
  split; [done|]. split; [done|]. split; [done|]. split; [done|]. exact Hcov.
Qed.

Lemma merge_bricks_side_footprint_witness :
  b_layer (mkBrick 0 0 0 4 1 7 "H") = b_layer (mkBrick 0 0 1 4 1 7 "H") /\
  b_color (mkBrick 0 0 0 4 1 7 "H") = b_color (mkBrick 0 0 1 4 1 7 "H") /\
  b_orientation (mkBrick 0 0 0 4 1 7 "H") = b_orientation (mkBrick 0 0 1 4 1 7 "H") /\
  b_layer (mkBrick 0 0 0 4 2 7 "H") = b_layer (mkBrick 0 0 0 4 1 7 "H") /\
  b_color (mkBrick 0 0 0 4 2 7 "H") = b_color (mkBrick 0 0 0 4 1 7 "H") /\
  b_orientation (mkBrick 0 0 0 4 2 7 "H") = b_orientation (mkBrick 0 0 0 4 1 7 "H") /\
  in_catalog (b_length (mkBrick 0 0 0 4 2 7 "H"), b_width (mkBrick 0 0 0 4 2 7 "H"))
    VALID_SIZES = true /\
  area (mkBrick 0 0 0 4 2 7 "H")
  = area (mkBrick 0 0 0 4 1 7 "H") + area (mkBrick 0 0 1 4 1 7 "H") /\
  forall cx cy, covers (mkBrick 0 0 0 4 2 7 "H") cx cy <->
    covers (mkBrick 0 0 0 4 1 7 "H") cx cy \/ covers (mkBrick 0 0 1 4 1 7 "H") cx cy.
Proof.
  apply (merge_bricks_side_footprint VALID_SIZES
           (mkBrick 0 0 0 4 1 7 "H") (mkBrick 0 0 1 4 1 7 "H")).
  - unfold positive_size. simpl. lia.
  - unfold positive_size. simpl. lia.
  - reflexivity.
Defined.

End MergeMore.

(** ** solver.py: partitions, runs and the lateral pass *)

Section SolverMore.
Import Merge Solver.
Local Open Scope Z_scope.

(** The length that one turn of the loop takes. *)
Lemma first_fit_default_bounds valid remaining :
  (forall L, L ∈ valid -> 1 <= L) -> 1 <= remaining ->
  1 <= default 1 (first_fit valid remaining) <= remaining /\
  (default 1 (first_fit valid remaining) ∈ valid \/
   (default 1 (first_fit valid remaining) = 1 /\
    forall L, L ∈ valid -> remaining < L)).
Proof.
  intros Hpos Hr. unfold first_fit.
  destruct (find _ valid) as [L|] eqn:Hf; simpl.
  - apply find_some in Hf as [Hin Hle]. apply list_elem_of_In in Hin.
    apply Z.leb_le in Hle. specialize (Hpos _ Hin). split; [lia|]. by left.
  - split; [lia|]. right. split; [done|]. intros L HL.
    apply list_elem_of_In in HL. apply (find_none _ _ Hf) in HL.
    by apply Z.leb_gt in HL.
Qed.

Lemma first_fit_default_small valid remaining :
  (forall L, L ∈ valid -> 1 <= L) -> remaining < 1 ->
  default 1 (first_fit valid remaining) = 1.
Proof.
  intros Hpos Hr. unfold first_fit.
  destruct (find _ valid) as [L|] eqn:Hf; simpl; [|done].
  apply find_some in Hf as [Hin Hle]. apply list_elem_of_In in Hin.
  apply Z.leb_le in Hle. specialize (Hpos _ Hin). lia.
Qed.

Lemma first_fit_default_mono valid r r' :
  desc valid -> (forall L, L ∈ valid -> 1 <= L) -> 1 <= r' -> r' <= r ->
  default 1 (first_fit valid r') <= default 1 (first_fit valid r).
Proof.
  intros Hdesc Hpos Hr' Hle.
  destruct (first_fit_default_bounds valid r' Hpos Hr') as [Hb' [Hin'|[-> _]]];
    [|destruct (first_fit_default_bounds valid r Hpos ltac:(lia)); lia].
  destruct (first_fit valid r) as [L|] eqn:Hf; simpl.
  - destruct (first_fit_largest valid r L Hdesc Hf) as (_ & _ & Hmax).
    apply Hmax; [done|lia].
  - unfold first_fit in Hf. apply list_elem_of_In in Hin'.
    apply (find_none _ _ Hf) in Hin'. apply Z.leb_gt in Hin'. lia.
Qed.

Lemma partition_loop_sound valid :
  desc valid -> (forall L, L ∈ valid -> 1 <= L) ->
  forall fuel remaining, remaining <= Z.of_nat fuel ->
  exists parts,
    partition_loop fuel valid remaining = Return parts /\
    sum_Z parts = Z.max 0 remaining /\
    (forall p, p ∈ parts ->
       1 <= p <= default 1 (first_fit valid remaining) /\ (p ∈ valid \/ p = 1)) /\
    non_increasing parts.
Proof.
  intros Hdesc Hpos. induction fuel as [|fuel IH]; intros remaining Hfuel; simpl.
  - destruct (Z.leb_spec remaining 0); [|lia]. exists []. simpl.
    split; [done|]. split; [lia|]. split; [set_solver|]. by intros i j a b.
  - destruct (Z.leb_spec remaining 0) as [Hr|Hr].
    { exists []. simpl. split; [done|]. split; [lia|]. split; [set_solver|].
      by intros i j a b. }
    set (L := default 1 (first_fit valid remaining)).
    destruct (first_fit_default_bounds valid remaining Hpos ltac:(lia)) as [HL HLin].
    fold L in HL, HLin.
    destruct (IH (remaining - L) ltac:(lia)) as (rest & -> & Hsum & Hparts & Hsorted).
    exists (L :: rest). simpl. split; [done|]. split; [rewrite Hsum; lia|].
    assert (forall p, p ∈ rest -> 1 <= p <= L /\ (p ∈ valid \/ p = 1)) as Hrest.
    { intros p Hp. destruct (Hparts p Hp) as [[Hp1 Hp2] Hp3]. split; [|done].
      split; [done|]. destruct (Z.le_gt_cases (remaining - L) 0) as [Hz|Hz].
      - rewrite (first_fit_default_small valid (remaining - L)) in Hp2 by (done || lia).
        lia.
      - etrans; [exact Hp2|]. apply first_fit_default_mono; [done..|lia|lia]. }
    split.
    + intros p [->|Hp]%elem_of_cons; [|by apply Hrest].
      split; [lia|]. destruct HLin as [?|[? _]]; auto.
    + intros [|i] [|j] a b Ha Hb Hij; simpl in *; try lia.
      * injection Ha as <-. apply Hrest. by eapply list_elem_of_lookup_2.
      * apply (Hsorted i j); [done..|lia].
Qed.

Lemma get_best_partition_parts V total_length width_ref :
  (forall L, L ∈ compatible_lengths V width_ref -> 1 <= L) ->
  exists parts,
    get_best_partition V total_length width_ref = Return parts /\
    sum_Z parts = Z.max 0 total_length /\
    (forall p, p ∈ parts ->
       1 <= p /\ (p ∈ compatible_lengths V width_ref \/ p = 1)) /\
    non_increasing parts.
Proof.
  intros Hpos. unfold get_best_partition.
  assert (forall L, L ∈ valid_lengths V width_ref -> 1 <= L) as Hpos'.
  { intros L HL. unfold valid_lengths in HL.
    rewrite elem_of_sorted_set_desc in HL. by apply Hpos. }
  destruct (partition_loop_sound (valid_lengths V width_ref)
    (sorted_set_desc_desc _) Hpos'
    (Z.to_nat total_length) total_length ltac:(lia))
    as (parts & Hret & Hsum & Hparts & Hsorted).
  exists parts. split; [done|]. split; [done|]. split; [|done].
  intros p Hp. destruct (Hparts p Hp) as [[Hp1 _] Hp2]. split; [done|].
  unfold valid_lengths in Hp2. by rewrite elem_of_sorted_set_desc in Hp2.
Qed.

(** X6. Against a catalog whose compatible lengths are all at least 1,
    [get_best_partition] returns: the parts add up to the total length (to
    nothing for a total below 1), they never go up, and each one is a
    compatible length of the catalog or the fallback 1. *)
Theorem get_best_partition_sound (V : catalog) (total_length width_ref : Z) :
  (forall L, L ∈ compatible_lengths V width_ref -> 1 <= L) ->
  exists parts,
    get_best_partition V total_length width_ref = Return parts /\
    sum_Z parts = Z.max 0 total_length /\
    (forall p, p ∈ parts ->
       1 <= p /\ (p ∈ compatible_lengths V width_ref \/ p = 1)) /\
    non_increasing parts.
Proof. apply get_best_partition_parts. Qed.

Lemma compatible_lengths_positive V width_ref :
  (forall lw, lw ∈ V -> 1 <= lw.1 /\ 1 <= lw.2) ->
  forall L, L ∈ compatible_lengths V width_ref -> 1 <= L.
Proof.
  intros HV L HL. unfold compatible_lengths in HL.
  apply list_elem_of_In, in_flat_map in HL as ([l w] & Hin%list_elem_of_In & HL).
  specialize (HV _ Hin). simpl in *.
  apply in_app_or in HL as [HL|HL].
  - destruct (w =? width_ref); [|done]. destruct HL as [<-|[]]. lia.
  - destruct (l =? width_ref); [|done]. destruct HL as [<-|[]]. lia.
Qed.

Lemma INVENTAIRE_BRIQUES_positive lw :
  lw ∈ INVENTAIRE_BRIQUES -> 1 <= lw.1 /\ 1 <= lw.2.
Proof.
  unfold INVENTAIRE_BRIQUES. intros Hin.
  repeat (apply elem_of_cons in Hin as [->|Hin]; [simpl; lia|]).
  by apply not_elem_of_nil in Hin.
Qed.

Lemma get_best_partition_sound_witness :
  exists parts,
    get_best_partition INVENTAIRE_BRIQUES 11 2 = Return parts /\
    sum_Z parts = Z.max 0 11 /\
    (forall p, p ∈ parts ->
       1 <= p /\ (p ∈ compatible_lengths INVENTAIRE_BRIQUES 2 \/ p = 1)) /\
    non_increasing parts.
Proof.
  apply (get_best_partition_sound INVENTAIRE_BRIQUES 11 2).
  apply compatible_lengths_positive. exact INVENTAIRE_BRIQUES_positive.
Defined.

(** A catalog without a piece of length 1 for width 2: the remainder 1 of a
    run of 3 is cut as a piece of length 1 all the same, which is no part of
    the catalog. *)
Example get_best_partition_fallback :
  valid_lengths [(2, 2); (2, 4)] 2 = [4; 2] /\
  get_best_partition [(2, 2); (2, 4)] 3 2 = Return [2; 1] /\
  in_catalog (1, 2) [(2, 2); (2, 4)] = false.
Proof. repeat split. Qed.

End SolverMore.

(** ** solver.py: a run is tiled by its partition *)

Section RunFacts.
Import Merge Solver.
Local Open Scope Z_scope.

Lemma paints_nil z c cx cy : ~ paints [] z c cx cy.
Proof. intros (b & Hb & _). by apply not_elem_of_nil in Hb. Qed.

Lemma paints_cons b l z c cx cy :
  paints (b :: l) z c cx cy <->
  (b_layer b = z /\ b_color b = c /\ covers b cx cy) \/ paints l z c cx cy.
Proof.
  unfold paints. split.
  - intros (b' & [->|Hin]%elem_of_cons & H); [by left|right; eauto].
  - intros [H|(b' & Hin & H)]; [exists b|exists b']; set_solver.
Qed.

Lemma paints_app l1 l2 z c cx cy :
  paints (l1 ++ l2) z c cx cy <-> paints l1 z c cx cy \/ paints l2 z c cx cy.
Proof.
  unfold paints. split.
  - intros (b & [Hin|Hin]%elem_of_app & H); [left|right]; eauto.
  - intros [(b & Hin & H)|(b & Hin & H)]; exists b; set_solver.
Qed.

Lemma sum_Z_app l1 l2 : sum_Z (l1 ++ l2) = sum_Z l1 + sum_Z l2.
Proof. induction l1 as [|a l1 IH]; simpl; [done|]. unfold sum_Z in *. simpl. lia. Qed.

Lemma sum_Z_ge_length l :
  (forall s, s ∈ l -> 1 <= s) -> Z.of_nat (List.length l) <= sum_Z l.
Proof.
  induction l as [|a l IH]; intros Hpos; [done|].
  unfold sum_Z in *. simpl.
  pose proof (Hpos a ltac:(set_solver)).
  specialize (IH ltac:(intros; apply Hpos; set_solver)). lia.
Qed.

(** The bricks laid along a Horizontal run. *)
Lemma lay_H_paints ref w segs : forall x z c cx cy,
  (forall s, s ∈ segs -> 1 <= s) ->
  paints (lay_H ref w x segs) z c cx cy <->
  z = b_layer ref /\ c = b_color ref /\
  x <= cx < x + sum_Z segs /\ b_y ref <= cy < b_y ref + w.
Proof.
  induction segs as [|s segs IH]; intros x z c cx cy Hpos; simpl.
  - split; [by intros ?%paints_nil|]. unfold sum_Z. simpl. lia.
  - rewrite paints_cons, IH by (intros; apply Hpos; set_solver).
    pose proof (Hpos s ltac:(set_solver)).
    pose proof (sum_Z_ge_length segs ltac:(intros; apply Hpos; set_solver)).
    unfold covers, sum_Z in *. simpl. lia.
Qed.

Lemma lay_H_facts ref w segs : forall x b,
  (forall s, s ∈ segs -> 1 <= s) ->
  b ∈ lay_H ref w x segs ->
  b_layer b = b_layer ref /\ b_color b = b_color ref /\ b_y b = b_y ref /\
  b_width b = w /\ b_length b ∈ segs /\ b_orientation b = "H"%string /\
  x <= b_x b.
Proof.
  induction segs as [|s segs IH]; intros x b Hpos; simpl;
    [by intros ?%not_elem_of_nil|].
  pose proof (Hpos s ltac:(set_solver)) as Hs.
  intros [->|Hb]%elem_of_cons.
  - simpl. repeat split; try done; try lia; set_solver.
  - destruct (IH _ _ ltac:(intros; apply Hpos; set_solver) Hb)
      as (? & ? & ? & ? & ? & ? & ?).
    repeat split; try done; try lia; set_solver.
Qed.

Lemma lay_H_disjoint ref w segs : forall x (i j : nat) bi bj cx cy,
  (forall s, s ∈ segs -> 1 <= s) ->
  lay_H ref w x segs !! i = Some bi -> lay_H ref w x segs !! j = Some bj ->
  (i < j)%nat -> ~ (covers bi cx cy /\ covers bj cx cy).
Proof.
  induction segs as [|s segs IH]; intros x i j bi bj cx cy Hpos; simpl; [done|].
  destruct i as [|i], j as [|j]; simpl; try lia.
  - intros [= <-] Hj _ [Hi Hc].
    apply list_elem_of_lookup_2, lay_H_facts in Hj as (_ & _ & _ & _ & _ & _ & Hx);
      [|intros; apply Hpos; set_solver].
    unfold covers in *. simpl in *. lia.
  - intros Hi Hj Hij. eapply (IH _ i j); [intros; apply Hpos; set_solver|done..|lia].
Qed.

(** The bricks laid along a Vertical run. *)
Lemma lay_V_paints ref w segs : forall y z c cx cy,
  (forall s, s ∈ segs -> 1 <= s) ->
  paints (lay_V ref w y segs) z c cx cy <->
  z = b_layer ref /\ c = b_color ref /\
  b_x ref <= cx < b_x ref + w /\ y <= cy < y + sum_Z segs.
Proof.
  induction segs as [|s segs IH]; intros y z c cx cy Hpos; simpl.
  - split; [by intros ?%paints_nil|]. unfold sum_Z. simpl. lia.
  - rewrite paints_cons, IH by (intros; apply Hpos; set_solver).
    pose proof (Hpos s ltac:(set_solver)).
    pose proof (sum_Z_ge_length segs ltac:(intros; apply Hpos; set_solver)).
    unfold covers, sum_Z in *. simpl. lia.
Qed.

Lemma lay_V_facts ref w segs : forall y b,
  (forall s, s ∈ segs -> 1 <= s) ->
  b ∈ lay_V ref w y segs ->
  b_layer b = b_layer ref /\ b_color b = b_color ref /\ b_x b = b_x ref /\
  b_length b = w /\ b_width b ∈ segs /\ b_orientation b = "V"%string /\
  y <= b_y b.
Proof.
  induction segs as [|s segs IH]; intros y b Hpos; simpl;
    [by intros ?%not_elem_of_nil|].
  pose proof (Hpos s ltac:(set_solver)) as Hs.
  intros [->|Hb]%elem_of_cons.
  - simpl. repeat split; try done; try lia; set_solver.
  - destruct (IH _ _ ltac:(intros; apply Hpos; set_solver) Hb)
      as (? & ? & ? & ? & ? & ? & ?).
    repeat split; try done; try lia; set_solver.
Qed.

Lemma lay_V_disjoint ref w segs : forall y (i j : nat) bi bj cx cy,
  (forall s, s ∈ segs -> 1 <= s) ->
  lay_V ref w y segs !! i = Some bi -> lay_V ref w y segs !! j = Some bj ->
  (i < j)%nat -> ~ (covers bi cx cy /\ covers bj cx cy).
Proof.
  induction segs as [|s segs IH]; intros y i j bi bj cx cy Hpos; simpl; [done|].
  destruct i as [|i], j as [|j]; simpl; try lia.
  - intros [= <-] Hj _ [Hi Hc].
    apply list_elem_of_lookup_2, lay_V_facts in Hj as (_ & _ & _ & _ & _ & _ & Hy);
      [|intros; apply Hpos; set_solver].
    unfold covers in *. simpl in *. lia.
  - intros Hi Hj Hij. eapply (IH _ i j); [intros; apply Hpos; set_solver|done..|lia].
Qed.

Lemma length_lay_H ref w x segs : List.length (lay_H ref w x segs) = List.length segs.
Proof. revert x. induction segs; intros x; simpl; [done|]. by rewrite IHsegs. Qed.

Lemma length_lay_V ref w y segs : List.length (lay_V ref w y segs) = List.length segs.
Proof. revert y. induction segs; intros y; simpl; [done|]. by rewrite IHsegs. Qed.

Lemma process_run_H_facts V ref run :
  (forall L, L ∈ compatible_lengths V (b_width ref) -> 1 <= L) ->
  exists segments,
    get_best_partition V (sum_Z (map b_length (ref :: run))) (b_width ref)
    = Return segments /\
    process_run V (ref :: run) "H"
    = Return (lay_H ref (b_width ref) (b_x ref) segments) /\
    (forall s, s ∈ segments -> 1 <= s) /\
    sum_Z segments = Z.max 0 (sum_Z (map b_length (ref :: run))).
Proof.
  intros Hpos.
  destruct (get_best_partition_parts V (sum_Z (map b_length (ref :: run)))
    (b_width ref) Hpos) as (segments & Hret & Hsum & Hparts & _).
  exists segments. split; [done|]. unfold process_run.
  change (String.eqb "H" "H") with true. cbv iota. rewrite Hret. simpl.
  split; [done|]. split; [|done]. intros s Hs. by apply Hparts.
Qed.

Lemma process_run_V_facts V ref run o :
  String.eqb o "H" = false ->
  (forall L, L ∈ compatible_lengths V (b_length ref) -> 1 <= L) ->
  exists segments,
    get_best_partition V (sum_Z (map b_width (ref :: run))) (b_length ref)
    = Return segments /\
    process_run V (ref :: run) o
    = Return (lay_V ref (b_length ref) (b_y ref) segments) /\
    (forall s, s ∈ segments -> 1 <= s) /\
    sum_Z segments = Z.max 0 (sum_Z (map b_width (ref :: run))).
Proof.
  intros Ho Hpos.
  destruct (get_best_partition_parts V (sum_Z (map b_width (ref :: run)))
    (b_length ref) Hpos) as (segments & Hret & Hsum & Hparts & _).
  exists segments. split; [done|]. unfold process_run.
  rewrite Ho. rewrite Hret. simpl.
  split; [done|]. split; [|done]. intros s Hs. by apply Hparts.
Qed.

(** X7. A Horizontal run is replaced by bricks of its layer, color and width
    that tile the strip of the run: together they cover, from the corner of
    the first brick on, as many cells as the lengths of the run add up to,
    and no two of them share a cell. *)
Theorem process_run_H_tiles (V : catalog) (ref : Brick) (run : list Brick) :
  (forall L, L ∈ compatible_lengths V (b_width ref) -> 1 <= L) ->
  exists out,
    process_run V (ref :: run) "H" = Return out /\
    (forall z c cx cy,
       paints out z c cx cy <->
       z = b_layer ref /\ c = b_color ref /\
       b_x ref <= cx < b_x ref + sum_Z (map b_length (ref :: run)) /\
       b_y ref <= cy < b_y ref + b_width ref) /\
    (forall (i j : nat) bi bj cx cy,
       out !! i = Some bi -> out !! j = Some bj -> i <> j ->
       ~ (covers bi cx cy /\ covers bj cx cy)) /\
    (forall b, b ∈ out ->
       b_orientation b = "H"%string /\ b_width b = b_width ref /\ 1 <= b_length b).
Proof.
  intros Hpos.
  destruct (process_run_H_facts V ref run Hpos) as (segs & _ & Hret & Hsegs & Hsum).
  eexists. split; [exact Hret|]. split; [|split].
  - intros z c cx cy. rewrite lay_H_paints by done. rewrite Hsum. lia.
  - intros i j bi bj cx cy Hi Hj Hij.
    destruct (Nat.lt_total i j) as [Hlt|[->|Hlt]]; [|done|].
    + eapply (lay_H_disjoint ref _ segs _ i j); eauto.
    + intros [? ?]. eapply (lay_H_disjoint ref _ segs _ j i bj bi cx cy); eauto.
  - intros b Hb. apply lay_H_facts in Hb as (_ & _ & _ & Hw & Hl & Ho & _); [|done].
    split; [done|]. split; [done|]. by apply Hsegs.
Qed.

Lemma process_run_H_tiles_witness :
  exists out,
    process_run INVENTAIRE_BRIQUES
      (mkBrick 0 3 5 1 1 7 "H" :: [mkBrick 0 4 5 1 1 7 "H"; mkBrick 0 5 5 1 1 7 "H"]) "H"
    = Return out /\
    (forall z c cx cy,
       paints out z c cx cy <->
       z = b_layer (mkBrick 0 3 5 1 1 7 "H") /\ c = b_color (mkBrick 0 3 5 1 1 7 "H") /\
       b_x (mkBrick 0 3 5 1 1 7 "H") <= cx
         < b_x (mkBrick 0 3 5 1 1 7 "H")
           + sum_Z (map b_length (mkBrick 0 3 5 1 1 7 "H"
                      :: [mkBrick 0 4 5 1 1 7 "H"; mkBrick 0 5 5 1 1 7 "H"])) /\
       b_y (mkBrick 0 3 5 1 1 7 "H") <= cy
         < b_y (mkBrick 0 3 5 1 1 7 "H") + b_width (mkBrick 0 3 5 1 1 7 "H")) /\
    (forall (i j : nat) bi bj cx cy,
       out !! i = Some bi -> out !! j = Some bj -> i <> j ->
       ~ (covers bi cx cy /\ covers bj cx cy)) /\
    (forall b, b ∈ out ->
       b_orientation b = "H"%string /\
       b_width b = b_width (mkBrick 0 3 5 1 1 7 "H") /\ 1 <= b_length b).
Proof.
  apply (process_run_H_tiles INVENTAIRE_BRIQUES (mkBrick 0 3 5 1 1 7 "H")
           [mkBrick 0 4 5 1 1 7 "H"; mkBrick 0 5 5 1 1 7 "H"]).
  apply compatible_lengths_positive. exact INVENTAIRE_BRIQUES_positive.
Defined.

(** X8. A Vertical run is replaced by bricks of its layer, color and length
    that tile the strip of the run along y. *)
Theorem process_run_V_tiles (V : catalog) (ref : Brick) (run : list Brick) :
  (forall L, L ∈ compatible_lengths V (b_length ref) -> 1 <= L) ->
  exists out,
    process_run V (ref :: run) "V" = Return out /\
    (forall z c cx cy,
       paints out z c cx cy <->
       z = b_layer ref /\ c = b_color ref /\
       b_x ref <= cx < b_x ref + b_length ref /\
       b_y ref <= cy < b_y ref + sum_Z (map b_width (ref :: run))) /\
    (forall (i j : nat) bi bj cx cy,
       out !! i = Some bi -> out !! j = Some bj -> i <> j ->
       ~ (covers bi cx cy /\ covers bj cx cy)) /\
    (forall b, b ∈ out ->
       b_orientation b = "V"%string /\ b_length b = b_length ref /\ 1 <= b_width b).
Proof.
  intros Hpos.
  destruct (process_run_V_facts V ref run "V" eq_refl Hpos)
    as (segs & _ & Hret & Hsegs & Hsum).
  eexists. split; [exact Hret|]. split; [|split].
  - intros z c cx cy. rewrite lay_V_paints by done. rewrite Hsum. lia.
  - intros i j bi bj cx cy Hi Hj Hij.
    destruct (Nat.lt_total i j) as [Hlt|[->|Hlt]]; [|done|].
    + eapply (lay_V_disjoint ref _ segs _ i j); eauto.
    + intros [? ?]. eapply (lay_V_disjoint ref _ segs _ j i bj bi cx cy); eauto.
  - intros b Hb. apply lay_V_facts in Hb as (_ & _ & _ & Hw & Hl & Ho & _); [|done].
    split; [done|]. split; [done|]. by apply Hsegs.
Qed.

Lemma process_run_V_tiles_witness :
  exists out,
    process_run INVENTAIRE_BRIQUES
      (mkBrick 1 3 5 1 1 7 "V" :: [mkBrick 1 3 6 1 1 7 "V"]) "V"
    = Return out /\
    (forall z c cx cy,
       paints out z c cx cy <->
       z = b_layer (mkBrick 1 3 5 1 1 7 "V") /\ c = b_color (mkBrick 1 3 5 1 1 7 "V") /\
       b_x (mkBrick 1 3 5 1 1 7 "V") <= cx
         < b_x (mkBrick 1 3 5 1 1 7 "V") + b_length (mkBrick 1 3 5 1 1 7 "V") /\
       b_y (mkBrick 1 3 5 1 1 7 "V") <= cy
         < b_y (mkBrick 1 3 5 1 1 7 "V")
           + sum_Z (map b_width (mkBrick 1 3 5 1 1 7 "V" :: [mkBrick 1 3 6 1 1 7 "V"]))) /\
    (forall (i j : nat) bi bj cx cy,
       out !! i = Some bi -> out !! j = Some bj -> i <> j ->
       ~ (covers bi cx cy /\ covers bj cx cy)) /\
    (forall b, b ∈ out ->
       b_orientation b = "V"%string /\
       b_length b = b_length (mkBrick 1 3 5 1 1 7 "V") /\ 1 <= b_width b).
Proof.
  apply (process_run_V_tiles INVENTAIRE_BRIQUES (mkBrick 1 3 5 1 1 7 "V")
           [mkBrick 1 3 6 1 1 7 "V"]).
  apply compatible_lengths_positive. exact INVENTAIRE_BRIQUES_positive.
Defined.

End RunFacts.

(** ** solver.py: the passes on 1x1 bricks *)

Section UnitRuns.
Import Merge Solver.
Local Open Scope Z_scope.

Lemma insert_by_Permutation {A} (le : A -> A -> bool) a l :
  insert_by le a l ≡ₚ a :: l.
Proof.
  induction l as [|b l IH]; simpl; [done|].
  destruct (le b a); [|done]. rewrite IH. apply Permutation_swap.
Qed.

Lemma sort_by_Permutation {A} (le : A -> A -> bool) l : sort_by le l ≡ₚ l.
Proof.
  unfold sort_by.
  enough (forall acc, foldl (fun acc a => insert_by le a acc) acc l ≡ₚ l ++ acc) as H.
  { rewrite H. by rewrite app_nil_r. }
  induction l as [|a l IH]; intros acc; simpl; [done|].
  rewrite IH, insert_by_Permutation. by rewrite Permutation_middle.
Qed.

Lemma paints_Permutation l1 l2 z c cx cy :
  l1 ≡ₚ l2 -> paints l1 z c cx cy <-> paints l2 z c cx cy.
Proof.
  intros H. unfold paints.
  split; intros (b & Hb & Hrest); exists b; split; try done.
  - by rewrite <-H.
  - by rewrite H.
Qed.

Lemma paints_singleton b z c cx cy :
  paints [b] z c cx cy <-> b_layer b = z /\ b_color b = c /\ covers b cx cy.
Proof.
  rewrite paints_cons. split; [|tauto]. intros [H|H%paints_nil]; [done|done].
Qed.

Lemma total_area_cons b l : total_area (b :: l) = area b + total_area l.
Proof. reflexivity. Qed.

Lemma total_area_app l1 l2 : total_area (l1 ++ l2) = total_area l1 + total_area l2.
Proof. unfold total_area. by rewrite fmap_app, sum_Z_app. Qed.

Lemma total_area_Permutation l1 l2 : l1 ≡ₚ l2 -> total_area l1 = total_area l2.
Proof.
  induction 1 as [|b l1 l2 _ IH|b1 b2 l|l1 l2 l3 _ IH1 _ IH2];
    rewrite ?total_area_cons; [done|lia|lia|congruence].
Qed.

Lemma sum_Z_map_unit (f : Brick -> Z) run :
  (forall b, b ∈ run -> f b = 1) -> sum_Z (map f run) = Z.of_nat (List.length run).
Proof.
  induction run as [|b run IH]; intros Hf; [done|].
  unfold sum_Z in *. simpl.
  rewrite IH by (intros; apply Hf; set_solver).
  rewrite (Hf b) by set_solver. lia.
Qed.

Lemma compatible_lengths_in_catalog V w L :
  L ∈ compatible_lengths V w ->
  in_catalog (L, w) V = true \/ in_catalog (w, L) V = true.
Proof.
  intros HL. unfold compatible_lengths in HL.
  apply list_elem_of_In, in_flat_map in HL as ([l w'] & Hin & HL). simpl in HL.
  apply in_app_or in HL as [HL|HL].
  - destruct (Z.eqb_spec w' w) as [->|]; [|done]. destruct HL as [<-|[]].
    left. unfold in_catalog. apply existsb_exists. exists (l, w). split; [done|].
    unfold pair_eqb. simpl. by rewrite !Z.eqb_refl.
  - destruct (Z.eqb_spec l w) as [->|]; [|done]. destruct HL as [<-|[]].
    right. unfold in_catalog. apply existsb_exists. exists (w, w'). split; [done|].
    unfold pair_eqb. simpl. by rewrite !Z.eqb_refl.
Qed.

Lemma total_area_lay_H ref w segs : forall x,
  total_area (lay_H ref w x segs) = sum_Z segs * w.
Proof.
  induction segs as [|s segs IH]; intros x; [done|].
  simpl. rewrite total_area_cons, IH. unfold area, sum_Z. simpl. lia.
Qed.

Lemma run_H_single z b : unit_brick b -> b_layer b = z -> run_H z [b] b.
Proof.
  intros [Hl Hw] Hz. exists b, []. split; [done|].
  split. { intros b' Hb'%list_elem_of_singleton. by subst b'. }
  split; [done|]. split; [done|]. split; [simpl; lia|].
  intros z' c cx cy. rewrite paints_singleton. unfold covers. simpl. lia.
Qed.

Lemma run_H_snoc z run last b :
  run_H z run last -> unit_brick b -> b_layer b = z ->
  b_y b = b_y last -> b_color b = b_color last ->
  b_x b = b_x last + b_length last ->
  run_H z (run ++ [b]) b.
Proof.
  intros (ref & tl & -> & Hunit & Hy & Hc & Hx & Hp) [Hbl Hbw] Hbz Hby Hbc Hbx.
  exists ref, (tl ++ [b]). split; [done|].
  split. { intros b' [Hb'|Hb'%list_elem_of_singleton]%elem_of_app;
           [by apply Hunit | by subst b']. }
  split; [congruence|]. split; [congruence|].
  split. { rewrite length_app. simpl in *. lia. }
  intros z' c cx cy. rewrite paints_app, Hp, paints_singleton, length_app.
  unfold covers. simpl in *. lia.
Qed.

Lemma process_run_H_unit V z o run last :
  String.eqb o "H" = true ->
  (forall lw, lw ∈ V -> 1 <= lw.1 /\ 1 <= lw.2) ->
  run_H z run last ->
  exists out, process_run V run o = Return out /\
    (forall z' c cx cy, paints out z' c cx cy <-> paints run z' c cx cy) /\
    (List.length out <= List.length run)%nat /\
    total_area out = Z.of_nat (List.length run) /\
    forall b, b ∈ out ->
      positive_size b /\ b_layer b = z /\ b_orientation b = "H"%string /\
      stock_size V b.
Proof.
  intros Ho HV (ref & tl & -> & Hunit & _ & _ & _ & Hpaint).
  destruct (Hunit ref ltac:(set_solver)) as [[Hl Hw] Hz].
  pose proof (compatible_lengths_positive V (b_width ref) HV) as Hpos.
  destruct (get_best_partition_parts V (sum_Z (map b_length (ref :: tl)))
    (b_width ref) Hpos) as (segs & Hret & Hsum & Hparts & _).
  assert (forall s, s ∈ segs -> 1 <= s) as Hsegs by (intros s Hs; by apply Hparts).
  exists (lay_H ref (b_width ref) (b_x ref) segs).
  split. { unfold process_run. rewrite Ho. cbv zeta. by rewrite Hret. }
  rewrite (sum_Z_map_unit b_length) in Hsum
    by (intros b Hb; by apply Hunit in Hb as [[? ?] _]).
  split. { intros z' c cx cy. rewrite lay_H_paints by done.
           rewrite Hpaint, Hsum, Hz. lia. }
  split. { rewrite length_lay_H. pose proof (sum_Z_ge_length segs Hsegs). lia. }
  split. { rewrite total_area_lay_H, Hsum, ?Hl, ?Hw. lia. }
  intros b Hb.
  apply lay_H_facts in Hb as (Hblay & _ & _ & Hbw & Hblen & Hbo & _); [|done].
  destruct (Hparts _ Hblen) as [H1 Hc].
  split. { unfold positive_size. lia. }
  split; [congruence|]. split; [done|].
  unfold stock_size, unit_brick. rewrite Hbw.
  destruct Hc as [Hc%compatible_lengths_in_catalog|Hc]; [tauto|].
  right. right. lia.
Qed.

Lemma scan_runs_H_unit V z o :
  String.eqb o "H" = true ->
  (forall lw, lw ∈ V -> 1 <= lw.1 /\ 1 <= lw.2) ->
  forall bricks run last,
  run_H z run last ->
  (forall b, b ∈ bricks -> unit_brick b /\ b_layer b = z) ->
  exists out, scan_runs V o run last bricks = Return out /\
    (forall z' c cx cy,
       paints out z' c cx cy <-> paints (run ++ bricks) z' c cx cy) /\
    (List.length out <= List.length (run ++ bricks))%nat /\
    total_area out = Z.of_nat (List.length (run ++ bricks)) /\
    forall b, b ∈ out ->
      positive_size b /\ b_layer b = z /\ b_orientation b = "H"%string /\
      stock_size V b.
Proof.
  intros Ho HV. induction bricks as [|b rest IH]; intros run last Hrun Hbr.
  - simpl. rewrite app_nil_r. by apply (process_run_H_unit V z o run last).
  - cbn [scan_runs]. rewrite Ho.
    destruct (Hbr b ltac:(set_solver)) as [Hbu Hbz].
    assert (forall b', b' ∈ rest -> unit_brick b' /\ b_layer b' = z) as Hrest
      by (intros; apply Hbr; set_solver).
    destruct ((b_y b =? b_y last) && (b_color b =? b_color last)
              && (b_x b =? b_x last + b_length last)) eqn:Hc.
    + apply andb_true_iff in Hc as [[Hy%Z.eqb_eq Hcol%Z.eqb_eq]%andb_true_iff Hx%Z.eqb_eq].
      destruct (IH (run ++ [b]) b) as (out & Hret & Hp & Hlen & Ha & Hall);
        [by apply (run_H_snoc z run last)|done|].
      exists out. rewrite <-app_assoc in Hp, Hlen, Ha. done.
    + destruct (process_run_H_unit V z o run last Ho HV Hrun)
        as (d & Hd & Hdp & Hdl & Hda & Hdall).
      destruct (IH [b] b) as (out & Hret & Hp & Hlen & Ha & Hall);
        [by apply run_H_single|done|].
      rewrite Hd, Hret. exists (d ++ out). split; [done|].
      split. { intros z' c cx cy. rewrite !paints_app, Hdp, Hp. reflexivity. }
      split. { rewrite !length_app in *. simpl in *. lia. }
      split. { rewrite total_area_app, Hda, Ha, !length_app. simpl length. lia. }
      intros b' [Hb'|Hb']%elem_of_app; [by apply Hdall | by apply Hall].
Qed.

Lemma optimize_layer_smart_H_unit V z o bricks :
  String.eqb o "H" = true ->
  (forall lw, lw ∈ V -> 1 <= lw.1 /\ 1 <= lw.2) ->
  (forall b, b ∈ bricks -> unit_brick b /\ b_layer b = z) ->
  exists out, optimize_layer_smart V bricks o = Return out /\
    (forall z' c cx cy, paints out z' c cx cy <-> paints bricks z' c cx cy) /\
    (List.length out <= List.length bricks)%nat /\
    total_area out = Z.of_nat (List.length bricks) /\
    forall b, b ∈ out ->
      positive_size b /\ b_layer b = z /\ b_orientation b = "H"%string /\
      stock_size V b.
Proof.
  intros Ho HV Hbr. unfold optimize_layer_smart. rewrite Ho.
  match goal with |- context [sort_by ?le bricks] =>
    pose proof (sort_by_Permutation le bricks) as Hperm;
    destruct (sort_by le bricks) as [|b0 rest] end.
  - apply Permutation_nil_l in Hperm as <-. exists []. split; [done|].
    split; [done|]. split; [done|]. split; [done|].
    by intros b ?%not_elem_of_nil.
  - assert (forall b, b ∈ b0 :: rest -> unit_brick b /\ b_layer b = z) as Hs
      by (intros b Hb; apply Hbr; by rewrite <-Hperm).
    destruct (scan_runs_H_unit V z o Ho HV rest [b0] b0)
      as (out & Hret & Hp & Hlen & Ha & Hall).
    { by apply run_H_single; apply Hs; set_solver. }
    { intros; apply Hs; set_solver. }
    exists out. split; [done|].
    split. { intros z' c cx cy. rewrite Hp. by apply paints_Permutation. }
    split. { by rewrite <-Hperm. }
    split. { by rewrite <-Hperm. }
    done.
Qed.

Lemma total_area_lay_V ref w segs : forall x,
  total_area (lay_V ref w x segs) = sum_Z segs * w.
Proof.
  induction segs as [|s segs IH]; intros x; [done|].
  simpl. rewrite total_area_cons, IH. unfold area, sum_Z. simpl. lia.
Qed.

Lemma run_V_single z b : unit_brick b -> b_layer b = z -> run_V z [b] b.
Proof.
  intros [Hl Hw] Hz. exists b, []. split; [done|].
  split. { intros b' Hb'%list_elem_of_singleton. by subst b'. }
  split; [done|]. split; [done|]. split; [simpl; lia|].
  intros z' c cx cy. rewrite paints_singleton. unfold covers. simpl. lia.
Qed.

Lemma run_V_snoc z run last b :
  run_V z run last -> unit_brick b -> b_layer b = z ->
  b_x b = b_x last -> b_color b = b_color last ->
  b_y b = b_y last + b_width last ->
  run_V z (run ++ [b]) b.
Proof.
  intros (ref & tl & -> & Hunit & Hy & Hc & Hx & Hp) [Hbl Hbw] Hbz Hby Hbc Hbx.
  exists ref, (tl ++ [b]). split; [done|].
  split. { intros b' [Hb'|Hb'%list_elem_of_singleton]%elem_of_app;
           [by apply Hunit | by subst b']. }
  split; [congruence|]. split; [congruence|].
  split. { rewrite length_app. simpl in *. lia. }
  intros z' c cx cy. rewrite paints_app, Hp, paints_singleton, length_app.
  unfold covers. simpl in *. lia.
Qed.

Lemma process_run_V_unit V z o run last :
  String.eqb o "H" = false ->
  (forall lw, lw ∈ V -> 1 <= lw.1 /\ 1 <= lw.2) ->
  run_V z run last ->
  exists out, process_run V run o = Return out /\
    (forall z' c cx cy, paints out z' c cx cy <-> paints run z' c cx cy) /\
    (List.length out <= List.length run)%nat /\
    total_area out = Z.of_nat (List.length run) /\
    forall b, b ∈ out ->
      positive_size b /\ b_layer b = z /\ b_orientation b = "V"%string /\
      stock_size V b.
Proof.
  intros Ho HV (ref & tl & -> & Hunit & _ & _ & _ & Hpaint).
  destruct (Hunit ref ltac:(set_solver)) as [[Hl Hw] Hz].
  pose proof (compatible_lengths_positive V (b_length ref) HV) as Hpos.
  destruct (get_best_partition_parts V (sum_Z (map b_width (ref :: tl)))
    (b_length ref) Hpos) as (segs & Hret & Hsum & Hparts & _).
  assert (forall s, s ∈ segs -> 1 <= s) as Hsegs by (intros s Hs; by apply Hparts).
  exists (lay_V ref (b_length ref) (b_y ref) segs).
  split. { unfold process_run. rewrite Ho. cbv zeta. by rewrite Hret. }
  rewrite (sum_Z_map_unit b_width) in Hsum
    by (intros b Hb; by apply Hunit in Hb as [[? ?] _]).
  split. { intros z' c cx cy. rewrite lay_V_paints by done.
           rewrite Hpaint, Hsum, Hz. lia. }
  split. { rewrite length_lay_V. pose proof (sum_Z_ge_length segs Hsegs). lia. }
  split. { rewrite total_area_lay_V, Hsum, ?Hl, ?Hw. lia. }
  intros b Hb.
  apply lay_V_facts in Hb as (Hblay & _ & _ & Hbw & Hblen & Hbo & _); [|done].
  destruct (Hparts _ Hblen) as [H1 Hc].
  split. { unfold positive_size. lia. }
  split; [congruence|]. split; [done|].
  unfold stock_size, unit_brick. rewrite Hbw.
  destruct Hc as [Hc%compatible_lengths_in_catalog|Hc]; [tauto|].
  right. right. lia.
Qed.

Lemma scan_runs_V_unit V z o :
  String.eqb o "H" = false ->
  (forall lw, lw ∈ V -> 1 <= lw.1 /\ 1 <= lw.2) ->
  forall bricks run last,
  run_V z run last ->
  (forall b, b ∈ bricks -> unit_brick b /\ b_layer b = z) ->
  exists out, scan_runs V o run last bricks = Return out /\
    (forall z' c cx cy,
       paints out z' c cx cy <-> paints (run ++ bricks) z' c cx cy) /\
    (List.length out <= List.length (run ++ bricks))%nat /\
    total_area out = Z.of_nat (List.length (run ++ bricks)) /\
    forall b, b ∈ out ->
      positive_size b /\ b_layer b = z /\ b_orientation b = "V"%string /\
      stock_size V b.
Proof.
  intros Ho HV. induction bricks as [|b rest IH]; intros run last Hrun Hbr.
  - simpl. rewrite app_nil_r. by apply (process_run_V_unit V z o run last).
  - cbn [scan_runs]. rewrite Ho.
    destruct (Hbr b ltac:(set_solver)) as [Hbu Hbz].
    assert (forall b', b' ∈ rest -> unit_brick b' /\ b_layer b' = z) as Hrest
      by (intros; apply Hbr; set_solver).
    destruct ((b_x b =? b_x last) && (b_color b =? b_color last)
              && (b_y b =? b_y last + b_width last)) eqn:Hc.
    + apply andb_true_iff in Hc as [[Hy%Z.eqb_eq Hcol%Z.eqb_eq]%andb_true_iff Hx%Z.eqb_eq].
      destruct (IH (run ++ [b]) b) as (out & Hret & Hp & Hlen & Ha & Hall);
        [by apply (run_V_snoc z run last)|done|].
      exists out. rewrite <-app_assoc in Hp, Hlen, Ha. done.
    + destruct (process_run_V_unit V z o run last Ho HV Hrun)
        as (d & Hd & Hdp & Hdl & Hda & Hdall).
      destruct (IH [b] b) as (out & Hret & Hp & Hlen & Ha & Hall);
        [by apply run_V_single|done|].
      rewrite Hd, Hret. exists (d ++ out). split; [done|].
      split. { intros z' c cx cy. rewrite !paints_app, Hdp, Hp. reflexivity. }
      split. { rewrite !length_app in *. simpl in *. lia. }
      split. { rewrite total_area_app, Hda, Ha, !length_app. simpl length. lia. }
      intros b' [Hb'|Hb']%elem_of_app; [by apply Hdall | by apply Hall].
Qed.

Lemma optimize_layer_smart_V_unit V z o bricks :
  String.eqb o "H" = false ->
  (forall lw, lw ∈ V -> 1 <= lw.1 /\ 1 <= lw.2) ->
  (forall b, b ∈ bricks -> unit_brick b /\ b_layer b = z) ->
  exists out, optimize_layer_smart V bricks o = Return out /\
    (forall z' c cx cy, paints out z' c cx cy <-> paints bricks z' c cx cy) /\
    (List.length out <= List.length bricks)%nat /\
    total_area out = Z.of_nat (List.length bricks) /\
    forall b, b ∈ out ->
      positive_size b /\ b_layer b = z /\ b_orientation b = "V"%string /\
      stock_size V b.
Proof.
  intros Ho HV Hbr. unfold optimize_layer_smart. rewrite Ho.
  match goal with |- context [sort_by ?le bricks] =>
    pose proof (sort_by_Permutation le bricks) as Hperm;
    destruct (sort_by le bricks) as [|b0 rest] end.
  - apply Permutation_nil_l in Hperm as <-. exists []. split; [done|].
    split; [done|]. split; [done|]. split; [done|].
    by intros b ?%not_elem_of_nil.
  - assert (forall b, b ∈ b0 :: rest -> unit_brick b /\ b_layer b = z) as Hs
      by (intros b Hb; apply Hbr; by rewrite <-Hperm).
    destruct (scan_runs_V_unit V z o Ho HV rest [b0] b0)
      as (out & Hret & Hp & Hlen & Ha & Hall).
    { by apply run_V_single; apply Hs; set_solver. }
    { intros; apply Hs; set_solver. }
    exists out. split; [done|].
    split. { intros z' c cx cy. rewrite Hp. by apply paints_Permutation. }
    split. { by rewrite <-Hperm. }
    split. { by rewrite <-Hperm. }
    done.
Qed.

End UnitRuns.

(** ** solver.py: what the solver keeps of a model of 1x1 bricks *)

Section SolverModel.
Import Merge Solver.
Local Open Scope Z_scope.

Lemma optimize_layer_smart_unit_facts V z o bricks :
  (forall lw, lw ∈ V -> 1 <= lw.1 /\ 1 <= lw.2) ->
  (forall b, b ∈ bricks -> unit_brick b /\ b_layer b = z) ->
  exists out, optimize_layer_smart V bricks o = Return out /\
    (forall z' c cx cy, paints out z' c cx cy <-> paints bricks z' c cx cy) /\
    (List.length out <= List.length bricks)%nat /\
    total_area out = Z.of_nat (List.length bricks) /\
    forall b, b ∈ out ->
      positive_size b /\ b_layer b = z /\
      b_orientation b = (if String.eqb o "H" then "H" else "V")%string /\
      stock_size V b.
Proof.
  intros HV Hbr. destruct (String.eqb o "H") eqn:Ho.
  - by apply optimize_layer_smart_H_unit.
  - by apply optimize_layer_smart_V_unit.
Qed.

(** X9. The first pass, on the 1x1 bricks of one layer and against a catalog
    of positive sizes, returns bricks that carry the same colors on the
    same cells; they are no more than the 1x1 bricks were, their areas add
    up to the number of 1x1 bricks, and each one lies along the direction
    of the pass with a size of the catalog (either way round) or 1x1. *)
Theorem optimize_layer_smart_unit (V : catalog) (z : Z) (o : string)
  (bricks : list Brick) :
  (forall lw, lw ∈ V -> 1 <= lw.1 /\ 1 <= lw.2) ->
  (forall b, b ∈ bricks -> unit_brick b /\ b_layer b = z) ->
  exists out, optimize_layer_smart V bricks o = Return out /\
    (forall z' c cx cy, paints out z' c cx cy <-> paints bricks z' c cx cy) /\
    (List.length out <= List.length bricks)%nat /\
    total_area out = Z.of_nat (List.length bricks) /\
    forall b, b ∈ out ->
      positive_size b /\ b_layer b = z /\
      b_orientation b = (if String.eqb o "H" then "H" else "V")%string /\
      stock_size V b.
Proof. apply optimize_layer_smart_unit_facts. Qed.

Lemma optimize_layer_smart_unit_witness :
  exists out,
    optimize_layer_smart INVENTAIRE_BRIQUES
      [mkBrick 2 1 0 1 1 7 "H"; mkBrick 2 0 0 1 1 7 "H"; mkBrick 2 0 1 1 1 4 "H"] "H"
    = Return out /\
    (forall z' c cx cy, paints out z' c cx cy <->
       paints [mkBrick 2 1 0 1 1 7 "H"; mkBrick 2 0 0 1 1 7 "H";
               mkBrick 2 0 1 1 1 4 "H"] z' c cx cy) /\
    (List.length out <= List.length
       [mkBrick 2 1 0 1 1 7 "H"; mkBrick 2 0 0 1 1 7 "H"; mkBrick 2 0 1 1 1 4 "H"])%nat /\
    total_area out = Z.of_nat (List.length
       [mkBrick 2 1 0 1 1 7 "H"; mkBrick 2 0 0 1 1 7 "H"; mkBrick 2 0 1 1 1 4 "H"]) /\
    forall b, b ∈ out ->
      positive_size b /\ b_layer b = 2 /\
      b_orientation b = (if String.eqb "H" "H" then "H" else "V")%string /\
      stock_size INVENTAIRE_BRIQUES b.
Proof.
  apply (optimize_layer_smart_unit INVENTAIRE_BRIQUES 2 "H").
  - exact INVENTAIRE_BRIQUES_positive.
  - intros b Hb.
    repeat (apply elem_of_cons in Hb as [->|Hb]; [by split|]).
    by apply not_elem_of_nil in Hb.
Defined.

(** *** The lateral pass *)

Lemma side_scan_facts V : forall fuel l,
  (List.length l <= fuel)%nat ->
  (forall b, b ∈ l -> positive_size b) ->
  (forall z c cx cy, paints (side_scan fuel V l) z c cx cy <-> paints l z c cx cy) /\
  total_area (side_scan fuel V l) = total_area l /\
  (List.length (side_scan fuel V l) <= List.length l)%nat /\
  (List.length l <= 2 * List.length (side_scan fuel V l))%nat /\
  forall b, b ∈ side_scan fuel V l ->
    positive_size b /\
    (b ∈ l \/ exists b1 b2, b1 ∈ l /\ b2 ∈ l /\ merge_bricks_side V b1 b2 = Some b).
Proof.
  induction fuel as [|fuel IH]; intros l Hlen Hpos.
  - destruct l; [|simpl in Hlen; lia]. simpl.
    split; [done|]. split; [done|]. split; [done|]. split; [done|].
    by intros b ?%not_elem_of_nil.
  - destruct l as [|cur [|nxt rest]].
    + simpl. split; [done|]. split; [done|]. split; [done|]. split; [done|].
      by intros b ?%not_elem_of_nil.
    + simpl. split; [done|]. split; [done|]. split; [done|]. split; [lia|].
      intros b Hb. split; [by apply Hpos | by left].
    + cbn [side_scan]. destruct (merge_bricks_side V cur nxt) as [m|] eqn:Hm.
      * destruct (merge_bricks_side_facts V cur nxt m)
          as (Hl & Hc & _ & Hml & Hmc & _ & _ & Hma & Hmp & Hcov);
          [apply Hpos; set_solver | apply Hpos; set_solver | done |].
        destruct (IH rest) as (Hp & Ha & Hle & Hge & Hall);
          [simpl in Hlen; lia | intros; apply Hpos; set_solver |].
        split.
        { intros z c cx cy. rewrite !paints_cons, Hp, Hcov, Hml, Hmc, <-Hl, <-Hc.
          tauto. }
        split. { rewrite !total_area_cons, Ha, Hma. lia. }
        split. { simpl. lia. }
        split. { simpl. lia. }
        intros b [->|Hb]%elem_of_cons.
        -- split; [done|]. right. exists cur, nxt.
           split; [set_solver|]. split; [set_solver|done].
        -- destruct (Hall b Hb) as [Hbp [Hin|(b1 & b2 & H1 & H2 & H12)]];
             (split; [done|]).
           ++ left. set_solver.
           ++ right. exists b1, b2. split; [set_solver|]. split; [set_solver|done].
      * destruct (IH (nxt :: rest)) as (Hp & Ha & Hle & Hge & Hall);
          [simpl in *; lia | intros; apply Hpos; set_solver |].
        split. { intros z c cx cy. by rewrite !(paints_cons cur), Hp. }
        split. { by rewrite !(total_area_cons cur), Ha. }
        split. { simpl in *. lia. }
        split. { simpl in *. lia. }
        intros b [->|Hb]%elem_of_cons.
        -- split; [apply Hpos; set_solver | left; set_solver].
        -- destruct (Hall b Hb) as [Hbp [Hin|(b1 & b2 & H1 & H2 & H12)]];
             (split; [done|]).
           ++ left. set_solver.
           ++ right. exists b1, b2. split; [set_solver|]. split; [set_solver|done].
Qed.

Lemma optimize_layer_2d_side_facts V bricks o :
  (forall b, b ∈ bricks -> positive_size b) ->
  (forall z c cx cy,
     paints (optimize_layer_2d_side V bricks o) z c cx cy <-> paints bricks z c cx cy) /\
  total_area (optimize_layer_2d_side V bricks o) = total_area bricks /\
  (List.length (optimize_layer_2d_side V bricks o) <= List.length bricks)%nat /\
  (List.length bricks <= 2 * List.length (optimize_layer_2d_side V bricks o))%nat /\
  forall b, b ∈ optimize_layer_2d_side V bricks o ->
    positive_size b /\
    (b ∈ bricks \/
     exists b1 b2, b1 ∈ bricks /\ b2 ∈ bricks /\ merge_bricks_side V b1 b2 = Some b).
Proof.
  intros Hpos. unfold optimize_layer_2d_side.
  set (sorted := if String.eqb o "H" then _ else _).
  assert (sorted ≡ₚ bricks) as Hperm
    by (unfold sorted; destruct (String.eqb o "H"); apply sort_by_Permutation).
  destruct (side_scan_facts V (List.length sorted) sorted)
    as (Hp & Ha & Hle & Hge & Hall);
    [lia | by intros b Hb; apply Hpos; rewrite <-Hperm |].
  split. { intros z c cx cy. rewrite Hp. by apply paints_Permutation. }
  split. { rewrite Ha. by apply total_area_Permutation. }
  split. { by rewrite <-Hperm. }
  split. { by rewrite <-Hperm. }
  intros b Hb. destruct (Hall b Hb) as [Hbp [Hin|(b1 & b2 & H1 & H2 & H12)]];
    (split; [done|]).
  - left. by rewrite <-Hperm.
  - right. exists b1, b2. by rewrite <-Hperm.
Qed.

(** X10. The lateral pass on bricks of positive sizes keeps the colors of the
    cells and the total area; it returns at most as many bricks as it got
    and at least half as many, and each of its bricks is one of the input
    or has a size of the catalog. *)
Theorem optimize_layer_2d_side_spec (V : catalog) (bricks : list Brick)
  (o : string) :
  (forall b, b ∈ bricks -> positive_size b) ->
  (forall z c cx cy,
     paints (optimize_layer_2d_side V bricks o) z c cx cy <-> paints bricks z c cx cy) /\
  total_area (optimize_layer_2d_side V bricks o) = total_area bricks /\
  (List.length (optimize_layer_2d_side V bricks o) <= List.length bricks)%nat /\
  (List.length bricks <= 2 * List.length (optimize_layer_2d_side V bricks o))%nat /\
  forall b, b ∈ optimize_layer_2d_side V bricks o ->
    positive_size b /\
    (b ∈ bricks \/ in_catalog (b_length b, b_width b) V = true).
Proof.
  intros Hpos.
  destruct (optimize_layer_2d_side_facts V bricks o Hpos)
    as (Hp & Ha & Hle & Hge & Hall).
  split; [done|]. split; [done|]. split; [done|]. split; [done|].
  intros b Hb. destruct (Hall b Hb) as [Hbp [Hin|(b1 & b2 & H1 & H2 & H12)]];
    (split; [done|]); [by left|right].
  by destruct (merge_bricks_side_facts V b1 b2 b (Hpos _ H1) (Hpos _ H2) H12)
    as (_ & _ & _ & _ & _ & _ & Hcat & _).
Qed.

Lemma optimize_layer_2d_side_spec_witness :
  (forall z c cx cy,
     paints (optimize_layer_2d_side VALID_SIZES
               [mkBrick 0 0 1 4 1 7 "H"; mkBrick 0 0 0 4 1 7 "H"] "H") z c cx cy
     <-> paints [mkBrick 0 0 1 4 1 7 "H"; mkBrick 0 0 0 4 1 7 "H"] z c cx cy) /\
  total_area (optimize_layer_2d_side VALID_SIZES
                [mkBrick 0 0 1 4 1 7 "H"; mkBrick 0 0 0 4 1 7 "H"] "H")
  = total_area [mkBrick 0 0 1 4 1 7 "H"; mkBrick 0 0 0 4 1 7 "H"] /\
  (List.length (optimize_layer_2d_side VALID_SIZES
                  [mkBrick 0 0 1 4 1 7 "H"; mkBrick 0 0 0 4 1 7 "H"] "H")
   <= List.length [mkBrick 0 0 1 4 1 7 "H"; mkBrick 0 0 0 4 1 7 "H"])%nat /\
  (List.length [mkBrick 0 0 1 4 1 7 "H"; mkBrick 0 0 0 4 1 7 "H"]
   <= 2 * List.length (optimize_layer_2d_side VALID_SIZES
                  [mkBrick 0 0 1 4 1 7 "H"; mkBrick 0 0 0 4 1 7 "H"] "H"))%nat /\
  forall b, b ∈ optimize_layer_2d_side VALID_SIZES
                  [mkBrick 0 0 1 4 1 7 "H"; mkBrick 0 0 0 4 1 7 "H"] "H" ->
    positive_size b /\
    (b ∈ [mkBrick 0 0 1 4 1 7 "H"; mkBrick 0 0 0 4 1 7 "H"] \/
     in_catalog (b_length b, b_width b) VALID_SIZES = true).
Proof.
  apply (optimize_layer_2d_side_spec VALID_SIZES
           [mkBrick 0 0 1 4 1 7 "H"; mkBrick 0 0 0 4 1 7 "H"] "H").
  intros b Hb.
  repeat (apply elem_of_cons in Hb as [->|Hb]; [unfold positive_size; simpl; lia|]).
  by apply not_elem_of_nil in Hb.
Defined.

(** Two 1x4 bricks side by side, given in any order, become one 2x4
    brick. *)
Example optimize_layer_2d_side_pair :
  optimize_layer_2d_side VALID_SIZES
    [mkBrick 0 0 1 4 1 7 "H"; mkBrick 0 0 0 4 1 7 "H"] "H"
  = [mkBrick 0 0 0 4 2 7 "H"].
Proof. reflexivity. Qed.

(** *** All layers *)

Lemma paints_layer_content bricks l z c cx cy :
  paints (layer_content bricks l) z c cx cy <-> z = l /\ paints bricks z c cx cy.
Proof.
  unfold paints, layer_content. split.
  - intros (b & [Hbl Hb]%list_elem_of_filter & Hz & Hrest).
    split; [congruence|]. by exists b.
  - intros (-> & b & Hb & Hz & Hrest). exists b.
    rewrite list_elem_of_filter. done.
Qed.

Lemma asc_NoDup l : asc l -> NoDup l.
Proof.
  induction 1 as [|a l Hlt _ IH]; constructor; [|done].
  intros Hin. specialize (Hlt a Hin). lia.
Qed.

Lemma sum_list_fmap_ext (f g : Z -> nat) ids :
  (forall l, f l = g l) -> sum_list (f <$> ids) = sum_list (g <$> ids).
Proof.
  intros H. induction ids as [|a ids IH]; [done|]. csimpl. by rewrite H, IH.
Qed.

Lemma sum_list_fmap_add (f g : Z -> nat) ids :
  sum_list ((fun l => f l + g l)%nat <$> ids)
  = (sum_list (f <$> ids) + sum_list (g <$> ids))%nat.
Proof. induction ids as [|a ids IH]; [done|]. csimpl. rewrite IH. lia. Qed.

Lemma sum_list_fmap_zero (ids : list Z) :
  sum_list ((fun _ => 0%nat) <$> ids) = 0%nat.
Proof. induction ids as [|a ids IH]; [done|]. csimpl. by rewrite IH. Qed.

Lemma sum_list_indicator (x : Z) ids :
  NoDup ids -> x ∈ ids ->
  sum_list ((fun l => if decide (x = l) then 1 else 0)%nat <$> ids) = 1%nat.
Proof.
  assert (forall js : list Z, x ∉ js ->
    sum_list ((fun l => if decide (x = l) then 1 else 0)%nat <$> js) = 0%nat) as Hout.
  { intros js. induction js as [|c js IH]; [done|]. intros Hnot. csimpl.
    destruct (decide (x = c)) as [->|]; [set_solver|].
    rewrite IH; [done | set_solver]. }
  induction 1 as [|a ids Hnot Hnd IH]; [by intros ?%not_elem_of_nil|].
  intros Hin. csimpl. destruct (decide (x = a)) as [->|Hne].
  - by rewrite Hout.
  - rewrite IH; [done | set_solver].
Qed.

Lemma sum_layer_lengths bricks ids :
  NoDup ids -> (forall b, b ∈ bricks -> b_layer b ∈ ids) ->
  sum_list ((fun l => List.length (layer_content bricks l)) <$> ids)
  = List.length bricks.
Proof.
  intros Hnd. induction bricks as [|b bricks IH]; intros Hin.
  - by rewrite (sum_list_fmap_ext _ (fun _ => 0%nat)), sum_list_fmap_zero.
  - rewrite (sum_list_fmap_ext _
      (fun l => (if decide (b_layer b = l) then 1 else 0)
                + List.length (layer_content bricks l))%nat).
    + rewrite sum_list_fmap_add, IH by (intros; apply Hin; set_solver).
      rewrite sum_list_indicator; [done | done | apply Hin; set_solver].
    + intros l. unfold layer_content. rewrite filter_cons.
      by destruct (decide (b_layer b = l)).
Qed.

Lemma solve_layers_unit VS VM bricks :
  (forall lw, lw ∈ VS -> 1 <= lw.1 /\ 1 <= lw.2) ->
  (forall b, b ∈ bricks -> unit_brick b) ->
  forall ids, exists out, solve_layers VS VM bricks ids = Return out /\
    (forall z c cx cy,
       paints out z c cx cy <-> z ∈ ids /\ paints bricks z c cx cy) /\
    (List.length out
     <= sum_list ((fun l => List.length (layer_content bricks l)) <$> ids))%nat /\
    total_area out
    = Z.of_nat (sum_list ((fun l => List.length (layer_content bricks l)) <$> ids)) /\
    forall b, b ∈ out ->
      positive_size b /\ b_layer b ∈ ids /\
      b_orientation b = layer_orientation (b_layer b) /\
      (stock_size VS b \/ in_catalog (b_length b, b_width b) VM = true).
Proof.
  intros HV Hunit. induction ids as [|l ids IH].
  - exists []. split; [done|].
    split. { intros z c cx cy. split; [by intros ?%paints_nil|].
             by intros [?%not_elem_of_nil _]. }
    split; [done|]. split; [done|]. by intros b ?%not_elem_of_nil.
  - destruct IH as (others & Hret & Hp & Hlen & Ha & Hall).
    destruct (optimize_layer_smart_unit_facts VS l
                (if l mod 2 =? 0 then "H"%string else "V"%string)
                (layer_content bricks l) HV)
      as (p1 & Hp1 & Hp1p & Hp1l & Hp1a & Hp1all).
    { intros b [Hbl Hb]%list_elem_of_filter. split; [by apply Hunit | done]. }
    destruct (optimize_layer_2d_side_facts VM p1
                (if l mod 2 =? 0 then "H"%string else "V"%string))
      as (Hp2p & Hp2a & Hp2l & _ & Hp2all).
    { intros b Hb. by apply Hp1all. }
    eexists. split.
    { cbn [solve_layers]. rewrite Hp1. cbn [obind]. rewrite Hret. reflexivity. }
    assert (forall b, b ∈ p1 ->
              b_orientation b = layer_orientation (b_layer b)) as Hor.
    { intros b Hb. destruct (Hp1all b Hb) as (_ & -> & -> & _).
      unfold layer_orientation. by destruct (l mod 2 =? 0). }
    split.
    { intros z c cx cy.
      rewrite paints_app, Hp2p, Hp1p, paints_layer_content, Hp, elem_of_cons.
      tauto. }
    split. { rewrite length_app. csimpl. lia. }
    split. { rewrite total_area_app, Hp2a, Hp1a, Ha. csimpl. lia. }
    intros b [Hb|Hb]%elem_of_app.
    + destruct (Hp2all b Hb) as [Hbp [Hin|(b1 & b2 & H1 & H2 & H12)]];
        (split; [done|]).
      * destruct (Hp1all b Hin) as (_ & Hbl & _ & Hst).
        split; [rewrite Hbl; set_solver|]. split; [by apply Hor | by left].
      * destruct (Hp1all b1 H1) as (Hb1p & Hb1l & _).
        destruct (Hp1all b2 H2) as (Hb2p & _).
        destruct (merge_bricks_side_facts VM b1 b2 b Hb1p Hb2p H12)
          as (_ & _ & _ & Hml & _ & Hmo & Hcat & _).
        split; [rewrite Hml, Hb1l; set_solver|].
        split; [|by right]. rewrite Hmo, Hml. by apply Hor.
    + destruct (Hall b Hb) as (? & ? & ? & ?).
      split; [done|]. split; [set_solver|]. done.
Qed.

Lemma solve_greedy_stripe_unit_facts VS VM bricks :
  bricks <> [] ->
  (forall lw, lw ∈ VS -> 1 <= lw.1 /\ 1 <= lw.2) ->
  (forall b, b ∈ bricks -> unit_brick b) ->
  exists out, solve_greedy_stripe VS VM bricks = Return out /\
    (forall z c cx cy, paints out z c cx cy <-> paints bricks z c cx cy) /\
    (List.length out <= List.length bricks)%nat /\
    total_area out = Z.of_nat (List.length bricks) /\
    forall b, b ∈ out ->
      positive_size b /\
      b_orientation b = layer_orientation (b_layer b) /\
      (stock_size VS b \/ in_catalog (b_length b, b_width b) VM = true).
Proof.
  intros Hne HV Hunit.
  destruct (solve_layers_unit VS VM bricks HV Hunit (sorted_layers bricks))
    as (out & Hret & Hp & Hlen & Ha & Hall).
  assert (forall b, b ∈ bricks -> b_layer b ∈ sorted_layers bricks) as Hlay.
  { intros b Hb. unfold sorted_layers. rewrite elem_of_sorted_set_asc.
    apply list_elem_of_In, in_map, list_elem_of_In, Hb. }
  rewrite sum_layer_lengths in Hlen, Ha
    by (try done; apply asc_NoDup, sorted_set_asc_asc).
  exists out. split.
  { unfold solve_greedy_stripe. rewrite Hret. cbn [obind].
    destruct bricks; [done|reflexivity]. }
  split.
  { intros z c cx cy. rewrite Hp. split; [tauto|]. intros Hpaint. split; [|done].
    destruct Hpaint as (b & Hb & <- & _). by apply Hlay. }
  split; [done|]. split; [done|].
  intros b Hb. destruct (Hall b Hb) as (? & ? & ? & ?). done.
Qed.

(** X11. On a model of 1x1 bricks that is not empty, and against a catalog of
    positive sizes, the solver returns; its bricks carry the same colors
    on the same cells of the same layers as the 1x1 bricks did, they are
    no more than the 1x1 bricks were, and their areas add up to the number
    of 1x1 bricks. Each one is laid along x on an even layer and along y on
    an odd one, with a size of one of the two catalogs or 1x1. *)
Theorem solve_greedy_stripe_keeps_model (VS VM : catalog) (bricks : list Brick) :
  bricks <> [] ->
  (forall lw, lw ∈ VS -> 1 <= lw.1 /\ 1 <= lw.2) ->
  (forall b, b ∈ bricks -> unit_brick b) ->
  exists out, solve_greedy_stripe VS VM bricks = Return out /\
    (forall z c cx cy, paints out z c cx cy <-> paints bricks z c cx cy) /\
    (List.length out <= List.length bricks)%nat /\
    total_area out = Z.of_nat (List.length bricks) /\
    forall b, b ∈ out ->
      positive_size b /\
      b_orientation b = layer_orientation (b_layer b) /\
      (stock_size VS b \/ in_catalog (b_length b, b_width b) VM = true).
Proof. apply solve_greedy_stripe_unit_facts. Qed.

Lemma solve_greedy_stripe_keeps_model_witness :
  exists out,
    solve_greedy_stripe INVENTAIRE_BRIQUES INVENTAIRE_BRIQUES
      [mkBrick 0 0 0 1 1 7 "H"; mkBrick 1 0 0 1 1 7 "H"; mkBrick 0 1 0 1 1 7 "H"]
    = Return out /\
    (forall z c cx cy, paints out z c cx cy <->
       paints [mkBrick 0 0 0 1 1 7 "H"; mkBrick 1 0 0 1 1 7 "H";
               mkBrick 0 1 0 1 1 7 "H"] z c cx cy) /\
    (List.length out <= List.length
       [mkBrick 0 0 0 1 1 7 "H"; mkBrick 1 0 0 1 1 7 "H"; mkBrick 0 1 0 1 1 7 "H"])%nat /\
    total_area out = Z.of_nat (List.length
       [mkBrick 0 0 0 1 1 7 "H"; mkBrick 1 0 0 1 1 7 "H"; mkBrick 0 1 0 1 1 7 "H"]) /\
    forall b, b ∈ out ->
      positive_size b /\
      b_orientation b = layer_orientation (b_layer b) /\
      (stock_size INVENTAIRE_BRIQUES b \/
       in_catalog (b_length b, b_width b) INVENTAIRE_BRIQUES = true).
Proof.
  apply (solve_greedy_stripe_keeps_model INVENTAIRE_BRIQUES INVENTAIRE_BRIQUES).
  - discriminate.
  - exact INVENTAIRE_BRIQUES_positive.
  - intros b Hb.
    repeat (apply elem_of_cons in Hb as [->|Hb]; [by split|]).
    by apply not_elem_of_nil in Hb.
Defined.

End SolverModel.

(** ** brique_merge.py: from voxels to 1x1 bricks, and on to the solver *)

Section BricksFromNumpy.
Import Merge Solver BriqueMerge.
Local Open Scope Z_scope.

Lemma for_each_Return {A B} (f : A -> outcome B) (g : A -> B) l :
  (forall a, a ∈ l -> f a = Return (g a)) ->
  for_each f l = Return (g <$> l).
Proof.
  induction l as [|a l IH]; intros Hf; [done|].
  simpl. rewrite (Hf a) by set_solver. simpl.
  rewrite IH by (intros; apply Hf; set_solver). done.
Qed.

Lemma bricks_from_numpy_facts (ny nx nz : nat) counts class_maj vis :
  shape3 ny nx nz counts ->
  (forall cm, class_maj = Some cm -> shape3 ny nx nz cm) ->
  exists bricks,
    bricks_from_numpy counts class_maj vis = Return bricks /\
    List.length bricks = List.length (argwhere3 (fun n => 0 <? n) counts) /\
    (forall b, b ∈ bricks -> unit_brick b /\ b_orientation b = "H"%string) /\
    NoDup (position <$> bricks) /\
    (forall z c cx cy,
       paints bricks z c cx cy <->
       exists iy ix iz,
         cy = Z.of_nat iy /\ cx = Z.of_nat ix /\ z = Z.of_nat iz /\
         full_voxel counts iy ix iz /\
         c = voxel_color class_maj vis iy ix iz).
Proof.
  intros Hc Hcm.
  set (g := fun idx : nat * nat * nat =>
    mkBrick (Z.of_nat idx.2) (Z.of_nat idx.1.2) (Z.of_nat idx.1.1) 1 1
      (voxel_color class_maj vis idx.1.1 idx.1.2 idx.2) "H").
  exists (g <$> argwhere3 (fun n => 0 <? n) counts).
  split.
  { unfold bricks_from_numpy. apply for_each_Return.
    intros [[iy ix] iz] (n & Hn & _)%elem_of_argwhere3.
    unfold unit_brick_at, g, voxel_color. simpl.
    destruct (String.eqb vis "COULEUR"); [|by destruct class_maj].
    destruct class_maj as [cm|]; [|done].
    destruct (get3_Some_lt _ _ _ _ _ _ _ _ Hc Hn) as (Hy & Hx & Hz).
    destruct (get3_shape3 _ _ _ cm iy ix iz (Hcm cm eq_refl) Hy Hx Hz) as [k ->].
    done. }
  split; [by rewrite length_fmap|].
  split.
  { intros b (idx & -> & _)%list_elem_of_fmap. done. }
  split.
  { rewrite <-list_fmap_compose. apply NoDup_fmap_2; [|apply NoDup_argwhere3].
    intros [[a1 a2] a3] [[b1 b2] b3]. unfold position, g. simpl.
    intros [= H1 H2 H3]. apply Nat2Z.inj in H1, H2, H3. congruence. }
  intros z c cx cy. unfold paints. split.
  - intros (b & (idx & -> & Hidx)%list_elem_of_fmap & Hz & Hcol & Hcov).
    destruct idx as [[iy ix] iz]. apply elem_of_argwhere3 in Hidx as (n & Hn & Hpos).
    unfold covers, g in *. simpl in *.
    exists iy, ix, iz. split; [lia|]. split; [lia|]. split; [done|].
    split; [|done]. exists n. split; [done|]. by apply Z.ltb_lt.
  - intros (iy & ix & iz & -> & -> & -> & (n & Hn & Hpos) & ->).
    exists (g (iy, ix, iz)). split.
    + apply list_elem_of_fmap. exists (iy, ix, iz). split; [done|].
      apply elem_of_argwhere3. exists n. split; [done|]. by apply Z.ltb_lt.
    + unfold covers, g. simpl. lia.
Qed.

(** X12. On a count array and, when given, a class array of the same shape,
    [bricks_from_numpy] returns one brick per full voxel: all are 1x1 and
    Horizontal, no two lie on the same cell of the same layer, and the
    cell (ix, iy) of layer iz carries a brick exactly when the voxel
    (iy, ix, iz) is full, in the LEGO color of the class of the voxel, or
    in gray outside the mode COULEUR. *)
Theorem bricks_from_numpy_spec (ny nx nz : nat) (counts : array3 Z)
  (class_maj : option (array3 Z)) (vis : string) :
  shape3 ny nx nz counts ->
  (forall cm, class_maj = Some cm -> shape3 ny nx nz cm) ->
  exists bricks,
    bricks_from_numpy counts class_maj vis = Return bricks /\
    List.length bricks = List.length (argwhere3 (fun n => 0 <? n) counts) /\
    (forall b, b ∈ bricks -> unit_brick b /\ b_orientation b = "H"%string) /\
    NoDup (position <$> bricks) /\
    (forall z c cx cy,
       paints bricks z c cx cy <->
       exists iy ix iz,
         cy = Z.of_nat iy /\ cx = Z.of_nat ix /\ z = Z.of_nat iz /\
         full_voxel counts iy ix iz /\
         c = voxel_color class_maj vis iy ix iz).
Proof. apply bricks_from_numpy_facts. Qed.

Lemma shape3_check {A} (n1 n2 n3 : nat) (g : array3 A) :
  (List.length g =? n1)%nat &&
  forallb (fun plane : list (list A) =>
    (List.length plane =? n2)%nat &&
    forallb (fun row : list A => (List.length row =? n3)%nat) plane) g = true ->
  shape3 n1 n2 n3 g.
Proof.
  intros [H1%Nat.eqb_eq H2]%andb_true_iff. split; [done|].
  apply Forall_forall. intros plane Hp%list_elem_of_In.
  rewrite forallb_forall in H2. apply H2 in Hp as [Hp1%Nat.eqb_eq Hp2]%andb_true_iff.
  split; [done|]. apply Forall_forall. intros row Hr%list_elem_of_In.
  rewrite forallb_forall in Hp2. by apply Hp2, Nat.eqb_eq in Hr.
Qed.

Lemma bricks_from_numpy_spec_witness :
  exists bricks,
    bricks_from_numpy [[[2; 0]; [1; 1]]] (Some [[[2; 0]; [6; 1]]]) "COULEUR"
    = Return bricks /\
    List.length bricks
    = List.length (argwhere3 (fun n => 0 <? n) [[[2; 0]; [1; 1]]]) /\
    (forall b, b ∈ bricks -> unit_brick b /\ b_orientation b = "H"%string) /\
    NoDup (position <$> bricks) /\
    (forall z c cx cy,
       paints bricks z c cx cy <->
       exists iy ix iz,
         cy = Z.of_nat iy /\ cx = Z.of_nat ix /\ z = Z.of_nat iz /\
         full_voxel [[[2; 0]; [1; 1]]] iy ix iz /\
         c = voxel_color (Some [[[2; 0]; [6; 1]]]) "COULEUR" iy ix iz).
Proof.
  apply (bricks_from_numpy_spec 1 2 2).
  - by apply shape3_check.
  - intros cm [= <-]. by apply shape3_check.
Defined.

(** Ground becomes brown, a building light gray, an unclassified voxel
    black; without classes every brick is gray. *)
Example bricks_from_numpy_colors :
  bricks_from_numpy [[[2; 0]; [1; 1]]] (Some [[[2; 0]; [6; 1]]]) "COULEUR"
  = Return [mkBrick 0 0 0 1 1 6 "H"; mkBrick 0 1 0 1 1 7 "H";
            mkBrick 1 1 0 1 1 0 "H"] /\
  bricks_from_numpy [[[2; 0]; [1; 1]]] (Some [[[2; 0]; [6; 1]]]) "GRIS"
  = Return [mkBrick 0 0 0 1 1 16 "H"; mkBrick 0 1 0 1 1 16 "H";
            mkBrick 1 1 0 1 1 16 "H"] /\
  bricks_from_numpy [[[2; 0]; [1; 1]]] (Some [[[2; 0]]]) "COULEUR"
  = Raise Traitement.IndexError.
Proof. split; [|split]; vm_compute; reflexivity. Qed.

Lemma voxels_to_model_facts (VS VM : catalog) (ny nx nz : nat) counts class_maj vis :
  shape3 ny nx nz counts ->
  (forall cm, class_maj = Some cm -> shape3 ny nx nz cm) ->
  (exists iy ix iz, full_voxel counts iy ix iz) ->
  (forall lw, lw ∈ VS -> 1 <= lw.1 /\ 1 <= lw.2) ->
  exists raw out,
    bricks_from_numpy counts class_maj vis = Return raw /\
    solve_greedy_stripe VS VM raw = Return out /\
    (forall z c cx cy,
       paints out z c cx cy <->
       exists iy ix iz,
         cy = Z.of_nat iy /\ cx = Z.of_nat ix /\ z = Z.of_nat iz /\
         full_voxel counts iy ix iz /\
         c = voxel_color class_maj vis iy ix iz) /\
    (List.length out <= List.length raw)%nat /\
    total_area out = Z.of_nat (List.length raw).
Proof.
  intros Hc Hcm (iy & ix & iz & Hfull) HV.
  destruct (bricks_from_numpy_facts ny nx nz counts class_maj vis Hc Hcm)
    as (raw & Hraw & _ & Hunit & _ & Hp).
  assert (raw <> []) as Hne.
  { intros ->.
    apply (paints_nil (Z.of_nat iz) (voxel_color class_maj vis iy ix iz)
             (Z.of_nat ix) (Z.of_nat iy)).
    apply Hp. by exists iy, ix, iz. }
  destruct (solve_greedy_stripe_unit_facts VS VM raw Hne HV)
    as (out & Hout & Hpo & Hlen & Ha & _).
  { intros b Hb. by apply Hunit. }
  exists raw, out. split; [done|]. split; [done|].
  split; [|done]. intros z c cx cy. by rewrite Hpo, Hp.
Qed.

(** X13. From the voxel arrays to the solved model, as the main program chains
    the two steps: when at least one voxel is full and the catalog holds
    only positive sizes, the solver returns bricks that cover exactly the
    cells of the full voxels, each in the color of its voxel; they are no
    more than the full voxels, and their areas add up to the number of
    full voxels. *)
Theorem voxels_to_model (VS VM : catalog) (ny nx nz : nat) (counts : array3 Z)
  (class_maj : option (array3 Z)) (vis : string) :
  shape3 ny nx nz counts ->
  (forall cm, class_maj = Some cm -> shape3 ny nx nz cm) ->
  (exists iy ix iz, full_voxel counts iy ix iz) ->
  (forall lw, lw ∈ VS -> 1 <= lw.1 /\ 1 <= lw.2) ->
  exists raw out,
    bricks_from_numpy counts class_maj vis = Return raw /\
    solve_greedy_stripe VS VM raw = Return out /\
    (forall z c cx cy,
       paints out z c cx cy <->
       exists iy ix iz,
         cy = Z.of_nat iy /\ cx = Z.of_nat ix /\ z = Z.of_nat iz /\
         full_voxel counts iy ix iz /\
         c = voxel_color class_maj vis iy ix iz) /\
    (List.length out <= List.length raw)%nat /\
    total_area out = Z.of_nat (List.length raw).
Proof. apply voxels_to_model_facts. Qed.

Lemma voxels_to_model_witness :
  exists raw out,
    bricks_from_numpy [[[2; 0]; [1; 1]]] (Some [[[2; 0]; [6; 1]]]) "COULEUR"
    = Return raw /\
    solve_greedy_stripe INVENTAIRE_BRIQUES INVENTAIRE_BRIQUES raw = Return out /\
    (forall z c cx cy,
       paints out z c cx cy <->
       exists iy ix iz,
         cy = Z.of_nat iy /\ cx = Z.of_nat ix /\ z = Z.of_nat iz /\
         full_voxel [[[2; 0]; [1; 1]]] iy ix iz /\
         c = voxel_color (Some [[[2; 0]; [6; 1]]]) "COULEUR" iy ix iz) /\
    (List.length out <= List.length raw)%nat /\
    total_area out = Z.of_nat (List.length raw).
Proof.
  apply (voxels_to_model INVENTAIRE_BRIQUES INVENTAIRE_BRIQUES 1 2 2).
  - by apply shape3_check.
  - intros cm [= <-]. by apply shape3_check.
  - exists 0%nat, 0%nat, 0%nat. exists 2. split; [reflexivity | lia].
  - exact INVENTAIRE_BRIQUES_positive.
Defined.

End BricksFromNumpy.

(** ** cost_func_change.py: the spatial map and the crossing penalty *)

Section GridMap.
Import Merge Solver Cost.
Local Open Scope Z_scope.

Lemma elem_of_range n v : v ∈ range n <-> 0 <= v < n.
Proof.
  unfold range. rewrite list_elem_of_fmap. split.
  - intros (i & -> & Hi%elem_of_seq). lia.
  - intros Hv. exists (Z.to_nat v). split; [lia|]. apply elem_of_seq. lia.
Qed.

Lemma elem_of_range2 a b v : v ∈ range2 a b <-> a <= v < b.
Proof.
  unfold range2. rewrite list_elem_of_fmap. split.
  - intros (i & -> & Hi%elem_of_range). lia.
  - intros Hv. exists (v - a). split; [lia|]. apply elem_of_range. lia.
Qed.

Lemma foldl_insert_lookup (b : brick_obj) (cells : list (Z * Z * Z)) :
  forall (g : gmap (Z * Z * Z) brick_obj) k,
    foldl (fun g c => <[c := b]> g) g cells !! k
    = if decide (k ∈ cells) then Some b else g !! k.
Proof.
  induction cells as [|c cells IH]; intros g k; simpl.
  - destruct (decide (k ∈ [])) as [Hin|]; [by apply not_elem_of_nil in Hin | done].
  - rewrite IH. destruct (decide (k ∈ cells)) as [Hin|Hnin].
    + rewrite decide_True by set_solver. done.
    + destruct (decide (k = c)) as [->|Hne].
      * rewrite decide_True by set_solver. by rewrite lookup_insert_eq.
      * rewrite decide_False by set_solver. by rewrite lookup_insert_ne.
Qed.

Lemma foldl_flat_map {A B C} (f : A -> C -> A) (h : B -> list C) (l : list B) :
  forall a, foldl (fun a b => foldl f a (h b)) a l = foldl f a (flat_map h l).
Proof.
  induction l as [|b l IH]; intros a; simpl; [done|].
  by rewrite foldl_app, IH.
Qed.

Lemma foldl_fmap_list {A B C} (f : A -> C -> A) (h : B -> C) (l : list B) :
  forall a, foldl (fun a b => f a (h b)) a l = foldl f a (h <$> l).
Proof. induction l as [|b l IH]; intros a; simpl; [done|]. by rewrite IH. Qed.

(** The cells that one brick writes. *)
Lemma grid_of_brick_lookup (b : brick_obj) (g : gmap (Z * Z * Z) brick_obj) z x y :
  foldl (fun grid dx =>
    foldl (fun grid dy =>
      <[(b_layer b.2, b_x b.2 + dx, b_y b.2 + dy) := b]> grid)
      grid (range (b_width b.2)))
    g (range (b_length b.2)) !! (z, x, y)
  = if decide (b_layer b.2 = z /\ covers b.2 x y) then Some b else g !! (z, x, y).
Proof.
  rewrite (foldl_pointwise _
    (fun grid dx => foldl (fun g c => <[c := b]> g) grid
       ((fun dy => (b_layer b.2, b_x b.2 + dx, b_y b.2 + dy)) <$> range (b_width b.2))))
    by (intros grid dx;
        apply (foldl_fmap_list (fun g c => <[c := b]> g)
                 (fun dy => (b_layer b.2, b_x b.2 + dx, b_y b.2 + dy)))).
  rewrite (foldl_flat_map (fun g c => <[c := b]> g)), foldl_insert_lookup.
  apply decide_ext. rewrite list_elem_of_In, in_flat_map. unfold covers. split.
  - intros (dx & Hdx%list_elem_of_In%elem_of_range
            & (dy & [= -> -> ->] & Hdy%elem_of_range)%list_elem_of_In%list_elem_of_fmap).
    lia.
  - intros (<- & Hx & Hy). exists (x - b_x b.2). split.
    + apply list_elem_of_In, elem_of_range. lia.
    + apply list_elem_of_In, list_elem_of_fmap. exists (y - b_y b.2).
      split; [f_equal; [f_equal|]; lia|]. apply elem_of_range. lia.
Qed.

Lemma build_grid_map_snoc bricks b z x y :
  build_grid_map (bricks ++ [b]) !! (z, x, y)
  = if decide (b_layer b.2 = z /\ covers b.2 x y) then Some b
    else build_grid_map bricks !! (z, x, y).
Proof.
  unfold build_grid_map. rewrite foldl_app. simpl. apply grid_of_brick_lookup.
Qed.

Lemma lookup_snoc_Some {A} (l : list A) (a b : A) (i : nat) :
  (l ++ [a]) !! i = Some b <->
  l !! i = Some b \/ (i = List.length l /\ b = a).
Proof.
  rewrite lookup_app_Some, list_lookup_singleton_Some.
  split; (intros [?|?]; [by left|right]).
  - split; [lia|]. by destruct H as (_ & _ & ->).
  - destruct H as [-> ->]. split; [lia|]. split; [lia|done].
Qed.

Lemma build_grid_map_lookup bricks z x y b :
  build_grid_map bricks !! (z, x, y) = Some b <->
  exists i : nat,
    bricks !! i = Some b /\ b_layer b.2 = z /\ covers b.2 x y /\
    forall (j : nat) b', bricks !! j = Some b' -> (i < j)%nat ->
      ~ (b_layer b'.2 = z /\ covers b'.2 x y).
Proof.
  revert b. induction bricks as [|b0 bricks IH] using rev_ind; intros b.
  - unfold build_grid_map. simpl. rewrite lookup_empty. split; [done|].
    by intros (i & Hi & _).
  - rewrite build_grid_map_snoc.
    destruct (decide (b_layer b0.2 = z /\ covers b0.2 x y)) as [Hc|Hc].
    + split.
      * intros [= <-]. exists (List.length bricks).
        split; [apply lookup_snoc_Some; by right|].
        split; [tauto|]. split; [tauto|].
        intros j b' Hj Hlt. apply lookup_lt_Some in Hj.
        rewrite length_app in Hj. simpl in Hj. lia.
      * intros (i & [Hi|[-> ->]]%lookup_snoc_Some & Hz & Hcov & Hlast); [|done].
        exfalso. apply (Hlast (List.length bricks) b0); [|by apply lookup_lt_Some in Hi|done].
        apply lookup_snoc_Some. by right.
    + rewrite IH. split.
      * intros (i & Hi & Hz & Hcov & Hlast). exists i.
        split; [apply lookup_snoc_Some; by left|]. split; [done|]. split; [done|].
        intros j b' [Hj|[-> ->]]%lookup_snoc_Some Hlt; [by apply (Hlast j)|done].
      * intros (i & [Hi|[-> ->]]%lookup_snoc_Some & Hz & Hcov & Hlast); [|tauto].
        exists i. split; [done|]. split; [done|]. split; [done|].
        intros j b' Hj Hlt. apply (Hlast j); [|done].
        apply lookup_snoc_Some. by left.
Qed.

(** X14. The spatial map holds a brick on a cell exactly when some brick of the
    list lies on that layer and covers the cell, and the brick it holds is
    the last such brick of the list. *)
Theorem build_grid_map_spec (bricks : list brick_obj) (z x y : Z) :
  (forall b,
     build_grid_map bricks !! (z, x, y) = Some b <->
     exists i : nat,
       bricks !! i = Some b /\ b_layer b.2 = z /\ covers b.2 x y /\
       forall (j : nat) b', bricks !! j = Some b' -> (i < j)%nat ->
         ~ (b_layer b'.2 = z /\ covers b'.2 x y)) /\
  (build_grid_map bricks !! (z, x, y) = None <->
   forall b, b ∈ bricks -> ~ (b_layer b.2 = z /\ covers b.2 x y)).
Proof.
  split; [intros b; apply build_grid_map_lookup|].
  induction bricks as [|b0 bricks IH] using rev_ind.
  - split; [by intros _ b ?%not_elem_of_nil | done].
  - rewrite build_grid_map_snoc.
    destruct (decide (b_layer b0.2 = z /\ covers b0.2 x y)) as [Hc|Hc].
    + split; [done|]. intros Hno. exfalso. apply (Hno b0); [set_solver|done].
    + rewrite IH. split.
      * intros Hno b [Hb|Hb%list_elem_of_singleton]%elem_of_app;
          [by apply Hno | by subst b].
      * intros Hno b Hb. apply Hno. set_solver.
Qed.

Lemma layer_orientation_alternates z :
  layer_orientation z <> layer_orientation (z - 1).
Proof.
  unfold layer_orientation.
  pose proof (Z.div_mod z 2 ltac:(lia)).
  pose proof (Z.div_mod (z - 1) 2 ltac:(lia)).
  pose proof (Z.mod_pos_bound z 2 ltac:(lia)).
  pose proof (Z.mod_pos_bound (z - 1) 2 ltac:(lia)).
  destruct (Z.eqb_spec (z mod 2) 0), (Z.eqb_spec ((z - 1) mod 2) 0);
    try discriminate; lia.
Qed.

Lemma perpendicularity_penalty_striped (bricks : list brick_obj) z :
  (forall b, b ∈ bricks -> b_orientation b.2 = layer_orientation (b_layer b.2)) ->
  perpendicularity_penalty_fast
    (filter (fun b => b_layer b.2 = z) bricks) (build_grid_map bricks) z = 0.
Proof.
  intros Hor. unfold perpendicularity_penalty_fast.
  set (layer_bricks := filter (fun b => b_layer b.2 = z) bricks).
  assert (forall b, b ∈ layer_bricks -> b ∈ bricks /\ b_layer b.2 = z) as Hlb
    by (intros b [? ?]%list_elem_of_filter; done).
  clearbody layer_bricks.
  enough (forall st : Z * list (nat * nat), st.1 = 0 ->
    (foldl (fun st b =>
       let '(x1, y1, x2, y2) := bbox b.2 in
       foldl (fun st ix =>
         foldl (fun (st : Z * list (nat * nat)) iy =>
           match build_grid_map bricks !! (z - 1, ix, iy) with
           | Some brick_below =>
               let pair_id := (b.1, brick_below.1) in
               if bool_decide (pair_id ∈ st.2) then st
               else
                 (if String.eqb (b_orientation b.2) (b_orientation brick_below.2)
                  then st.1 + 1 else st.1,
                  pair_id :: st.2)
           | None => st
           end) st (range2 y1 y2)) st (range2 x1 x2)) st layer_bricks).1 = 0) as H
    by (by apply H).
  induction layer_bricks as [|b layer_bricks IH]; intros st Hst; [done|].
  simpl. apply IH; [intros; apply Hlb; set_solver|].
  destruct (Hlb b ltac:(set_solver)) as [Hb Hbz].
  unfold bbox.
  apply (foldl_invariant (fun st : Z * list (nat * nat) => st.1 = 0)); [done|].
  intros st1 ix Hst1.
  apply (foldl_invariant (fun st : Z * list (nat * nat) => st.1 = 0)); [done|].
  intros st2 iy Hst2.
  destruct (build_grid_map bricks !! (z - 1, ix, iy)) as [below|] eqn:Hg; [|done].
  destruct (bool_decide _); [done|]. simpl.
  apply build_grid_map_lookup in Hg as (i & Hi & Hz & _).
  apply list_elem_of_lookup_2 in Hi.
  rewrite (Hor b Hb), (Hor below Hi), Hbz, Hz.
  destruct (String.eqb_spec (layer_orientation z) (layer_orientation (z - 1)))
    as [Heq|_]; [|done].
  by apply layer_orientation_alternates in Heq.
Qed.

(** X15. In a model whose bricks are Horizontal on the even layers and Vertical
    on the odd ones, no brick rests on a brick of its own orientation: the
    perpendicularity penalty of every layer is 0. *)
Theorem striped_model_crosses (bricks : list brick_obj) (z : Z) :
  (forall b, b ∈ bricks -> b_orientation b.2 = layer_orientation (b_layer b.2)) ->
  perpendicularity_penalty_fast
    (filter (fun b => b_layer b.2 = z) bricks) (build_grid_map bricks) z = 0.
Proof. apply perpendicularity_penalty_striped. Qed.

Lemma striped_model_crosses_witness :
  perpendicularity_penalty_fast
    (filter (fun b => b_layer b.2 = 1) pile_HV) (build_grid_map pile_HV) 1 = 0.
Proof.
  apply (striped_model_crosses pile_HV 1).
  intros b Hb. unfold pile_HV in Hb.
  repeat (apply elem_of_cons in Hb as [->|Hb]; [reflexivity|]).
  by apply not_elem_of_nil in Hb.
Defined.

Lemma elem_of_objects bricks (o : brick_obj) :
  o ∈ objects bricks -> o.2 ∈ bricks.
Proof.
  unfold objects. intros (i & Hi)%list_elem_of_lookup_1.
  rewrite list_lookup_imap in Hi.
  destruct (bricks !! i) as [b|] eqn:Hb; simpl in Hi; [|done].
  simplify_eq. simpl. by eapply list_elem_of_lookup_2.
Qed.

(** X16. The model that the solver makes of 1x1 bricks has perpendicularity
    penalty 0 on every layer, whatever the catalogs. *)
Theorem solver_output_crosses (VS VM : catalog) (raw out : list Brick) (z : Z) :
  (forall lw, lw ∈ VS -> 1 <= lw.1 /\ 1 <= lw.2) ->
  (forall b, b ∈ raw -> unit_brick b) ->
  solve_greedy_stripe VS VM raw = Return out ->
  perpendicularity_penalty_fast
    (filter (fun b => b_layer b.2 = z) (objects out))
    (build_grid_map (objects out)) z = 0.
Proof.
  intros HV Hunit Hout. apply perpendicularity_penalty_striped.
  intros o Ho%elem_of_objects.
  destruct raw as [|b0 raw]; [done|].
  destruct (solve_greedy_stripe_unit_facts VS VM (b0 :: raw) ltac:(done) HV Hunit)
    as (out' & Hout' & _ & _ & _ & Hall).
  rewrite Hout in Hout'. simplify_eq. by apply Hall.
Qed.

Lemma solver_output_crosses_witness :
  perpendicularity_penalty_fast
    (filter (fun b => b_layer b.2 = 1)
       (objects [mkBrick 0 0 0 2 1 7 "H"; mkBrick 1 0 0 1 2 7 "V"]))
    (build_grid_map
       (objects [mkBrick 0 0 0 2 1 7 "H"; mkBrick 1 0 0 1 2 7 "V"])) 1 = 0.
Proof.
  apply (solver_output_crosses INVENTAIRE_BRIQUES INVENTAIRE_BRIQUES
           [mkBrick 0 0 0 1 1 7 "H"; mkBrick 1 0 0 1 1 7 "H";
            mkBrick 0 1 0 1 1 7 "H"; mkBrick 1 0 1 1 1 7 "H"]).
  - exact INVENTAIRE_BRIQUES_positive.
  - intros b Hb.
    repeat (apply elem_of_cons in Hb as [->|Hb]; [by split|]).
    by apply not_elem_of_nil in Hb.
  - reflexivity.
Defined.

(** Every brick of the layer adds at most 2 to the vertical boundary
    penalty. *)
Lemma vertical_boundary_penalty_le layer_bricks grid current_z :
  vertical_boundary_penalty_fast layer_bricks grid current_z
  <= 2 * Z.of_nat (List.length layer_bricks).
Proof.
  unfold vertical_boundary_penalty_fast.
  enough (forall p0,
    foldl (fun penalty b =>
      let '(x1, y1, x2, y2) := bbox b.2 in
      let differ (k_in k_out : Z * Z * Z) : Z :=
        if bool_decide (id_at grid k_in = id_at grid k_out) then 0 else 1 in
      if String.eqb (b_orientation b.2) "H" then
        penalty
        + differ (current_z - 1, x1, y1) (current_z - 1, x1 - 1, y1)
        + differ (current_z - 1, x2 - 1, y1) (current_z - 1, x2, y1)
      else if String.eqb (b_orientation b.2) "V" then
        penalty
        + differ (current_z - 1, x1, y1) (current_z - 1, x1, y1 - 1)
        + differ (current_z - 1, x1, y2 - 1) (current_z - 1, x1, y2)
      else penalty) p0 layer_bricks
    <= p0 + 2 * Z.of_nat (List.length layer_bricks)) as H by apply (H 0).
  induction layer_bricks as [|b l IH]; intros p0; [simpl; lia|].
  cbn [foldl]. etrans; [apply IH|]. unfold bbox. cbv zeta.
  rewrite (Nat2Z.inj_succ (List.length l)) || simpl List.length.
  repeat match goal with
         | |- context [bool_decide ?P] => destruct (bool_decide P)
         | |- context [String.eqb ?a ?b] => destruct (String.eqb a b)
         end; lia.
Qed.

End GridMap.

(** ** LIDAR_traitement.py: the graph of the full voxels *)

Section VoxelGraphe.
Import Traitement.
Local Open Scope Z_scope.

Lemma elem_of_voisins c1 c2 : c2 ∈ voisins c1 <-> face_adjacent c1 c2.
Proof.
  destruct c1 as [[a b] d], c2 as [[a' b'] d'].
  unfold voisins, face_adjacent. simpl. split.
  - intros H. destruct a, b, d; simpl in H;
      repeat (apply elem_of_cons in H as [H|H]; [simplify_eq; lia|]);
      by apply not_elem_of_nil in H.
  - intros H.
    assert ((a' = S a /\ b' = b /\ d' = d) \/ (a = S a' /\ b' = b /\ d' = d) \/
            (a' = a /\ b' = S b /\ d' = d) \/ (a' = a /\ b = S b' /\ d' = d) \/
            (a' = a /\ b' = b /\ d' = S d) \/ (a' = a /\ b' = b /\ d = S d'))%nat
      as Hcases by lia.
    clear H.
    destruct a, b, d; simpl;
      destruct Hcases as [(? & ? & ?)|[(? & ? & ?)|[(? & ? & ?)|
                         [(? & ? & ?)|[(? & ? & ?)|(? & ? & ?)]]]]];
      simplify_eq; set_solver.
Qed.

Lemma face_adjacent_sym c1 c2 : face_adjacent c1 c2 -> face_adjacent c2 c1.
Proof. unfold face_adjacent. lia. Qed.

Lemma id_map_Some coords c (b : nat) :
  NoDup coords -> id_map coords c = Some b <-> coords !! b = Some c.
Proof.
  intros Hnd. unfold id_map. rewrite fmap_Some. split.
  - intros ([i x] & (Hi & -> & _)%list_find_Some & ->). done.
  - intros Hb. exists (b, c). split; [|done]. apply list_find_Some.
    split; [done|]. split; [done|]. intros j y Hj Hlt ->.
    pose proof (NoDup_lookup _ _ _ _ Hnd Hj Hb). lia.
Qed.

Lemma elem_of_imap_pair {A} (l : list A) (n : nat) (d : A) :
  (n, d) ∈ imap (fun i d => (i, d)) l <-> l !! n = Some d.
Proof.
  rewrite list_elem_of_lookup. split.
  - intros (i & Hi). rewrite list_lookup_imap in Hi.
    destruct (l !! i) eqn:Hl; simpl in Hi; [|done]. by simplify_eq.
  - intros Hn. exists n. by rewrite list_lookup_imap, Hn.
Qed.

Lemma fst_imap_pair {A} (l : list A) :
  fst <$> imap (fun i d => (i, d)) l = seq 0 (List.length l).
Proof.
  apply list_eq. intros i. rewrite list_lookup_fmap, list_lookup_imap.
  destruct (l !! i) as [d|] eqn:Hl; simpl.
  - symmetry. apply lookup_seq. split; [done|]. by eapply lookup_lt_Some.
  - symmetry. apply lookup_seq_ge. by apply lookup_ge_None.
Qed.

Lemma voxel_graphe_facts (ny nx nz : nat) (counts cm : array3 Z) :
  shape3 ny nx nz counts -> shape3 ny nx nz cm ->
  exists G,
    voxel_graphe counts cm = Return G /\
    graph_wf G /\
    node_ids G = seq 0 (List.length (argwhere3 (fun c => 0 <? c) counts)) /\
    (forall iy ix iz,
       full_voxel counts iy ix iz <->
       exists n d, (n, d) ∈ nodes G /\ coord d = (ix, iy, iz)) /\
    (forall n d, (n, d) ∈ nodes G ->
       get3 cm (coord d).1.2 (coord d).1.1 (coord d).2 = Some (class_maj d)) /\
    (forall n m d e, (n, d) ∈ nodes G -> (m, e) ∈ nodes G ->
       coord d = coord e -> n = m) /\
    (forall a b,
       (a, b) ∈ edges G <->
       exists da db, (a, da) ∈ nodes G /\ (b, db) ∈ nodes G /\
                     face_adjacent (coord da) (coord db)).
Proof.
  intros Hc Hcm. unfold voxel_graphe.
  set (coords := argwhere3 (fun c => 0 <? c) counts).
  assert (NoDup coords) as Hnd by apply NoDup_argwhere3.
  assert (forall c, c ∈ coords -> is_Some (get3 cm c.1.1 c.1.2 c.2)) as Hin.
  { intros [[iy ix] iz] (n & Hn & _)%elem_of_argwhere3.
    destruct (get3_Some_lt _ _ _ _ _ _ _ _ Hc Hn) as (Hy & Hx & Hz).
    by apply (get3_shape3 ny nx nz). }
  rewrite (node_attributes_Return cm coords Hin). simpl.
  eexists. split; [reflexivity|].
  assert (forall n d,
    (n, d) ∈ imap (fun i d => (i, d)) (node_of cm <$> coords) <->
    exists c, coords !! n = Some c /\ d = node_of cm c) as Hnodes.
  { intros n d. rewrite elem_of_imap_pair, list_lookup_fmap, fmap_Some.
    split; intros (c & ? & ?); by exists c. }
  assert (forall a b,
    (a, b) ∈ concat (imap (fun a c1 =>
      flat_map (fun c2 =>
        match id_map coords c2 with Some b => [(a, b)] | None => [] end)
        (voisins c1)) coords) <->
    exists c1 c2, coords !! a = Some c1 /\ coords !! b = Some c2 /\
                  face_adjacent c1 c2) as Hedges.
  { intros a b. rewrite elem_of_concat_imap. split.
    - intros (a' & c1 & Ha & Hab). apply list_elem_of_In, in_flat_map in Hab
        as (c2 & Hc2%list_elem_of_In%elem_of_voisins & Hab).
      destruct (id_map coords c2) as [b'|] eqn:Hid; [|done].
      destruct Hab as [[= <- <-]|[]]. apply id_map_Some in Hid; [|done].
      by exists c1, c2.
    - intros (c1 & c2 & Ha & Hb & Hadj). exists a, c1. split; [done|].
      apply list_elem_of_In, in_flat_map. exists c2.
      split; [by apply list_elem_of_In, elem_of_voisins|].
      apply (id_map_Some coords c2 b Hnd) in Hb. rewrite Hb. by left. }
  split.
  { split.
    - unfold node_ids. simpl. rewrite fst_imap_pair. apply NoDup_seq.
    - intros a b. simpl. rewrite (Hedges a b).
      intros (c1 & c2 & Ha & Hb & _). unfold node_ids. simpl.
      rewrite fst_imap_pair, !elem_of_seq, length_fmap.
      apply lookup_lt_Some in Ha, Hb. lia. }
  split.
  { unfold node_ids. simpl. by rewrite fst_imap_pair, length_fmap. }
  split.
  { intros iy ix iz. simpl. split.
    - intros (n & Hn & Hpos).
      assert ((iy, ix, iz) ∈ coords) as (i & Hi)%list_elem_of_lookup_1.
      { apply elem_of_argwhere3. exists n. split; [done|]. by apply Z.ltb_lt. }
      exists i, (node_of cm (iy, ix, iz)). split; [|done].
      apply Hnodes. by exists (iy, ix, iz).
    - intros (n & d & (c & Hcn & ->)%Hnodes & Hcoord).
      destruct c as [[cy cx] cz]. unfold node_of in Hcoord. simpl in Hcoord.
      simplify_eq.
      apply list_elem_of_lookup_2, elem_of_argwhere3 in Hcn as (k & Hk & Hpos).
      exists k. split; [done|]. by apply Z.ltb_lt. }
  split.
  { intros n d (c & Hcn & ->)%Hnodes. simpl.
    destruct (Hin c) as [k Hk]; [by eapply list_elem_of_lookup_2|].
    unfold node_of. simpl. by rewrite Hk. }
  split.
  { intros n m d e (c & Hcn & ->)%Hnodes (c' & Hcm' & ->)%Hnodes Heq. simpl in *.
    destruct c as [[cy cx] cz], c' as [[cy' cx'] cz'].
    unfold node_of in Heq. simpl in Heq. simplify_eq.
    by eapply NoDup_lookup. }
  intros a b. simpl. rewrite Hedges. split.
  - intros (c1 & c2 & Ha & Hb & Hadj).
    exists (node_of cm c1), (node_of cm c2).
    split; [apply Hnodes; by exists c1|]. split; [apply Hnodes; by exists c2|].
    unfold face_adjacent, node_of in *. simpl. lia.
  - intros (da & db & (c1 & Ha & ->)%Hnodes & (c2 & Hb & ->)%Hnodes & Hadj).
    exists c1, c2. split; [done|]. split; [done|].
    unfold face_adjacent, node_of in *. simpl in Hadj. lia.
Qed.

(** X18. On a count array and a class array of one shape, [voxel_graphe]
    returns a graph with distinct node identifiers 0, 1, ... and edges
    between nodes only. Its nodes are the full voxels, one node per voxel,
    each with the class of its voxel; an edge joins two nodes exactly when
    their voxels are one step apart along one axis, so that every edge is
    there in both directions. *)
Theorem voxel_graphe_spec (ny nx nz : nat) (counts cm : array3 Z) :
  shape3 ny nx nz counts -> shape3 ny nx nz cm ->
  exists G,
    voxel_graphe counts cm = Return G /\
    graph_wf G /\
    node_ids G = seq 0 (List.length (argwhere3 (fun c => 0 <? c) counts)) /\
    (forall iy ix iz,
       full_voxel counts iy ix iz <->
       exists n d, (n, d) ∈ nodes G /\ coord d = (ix, iy, iz)) /\
    (forall n d, (n, d) ∈ nodes G ->
       get3 cm (coord d).1.2 (coord d).1.1 (coord d).2 = Some (class_maj d)) /\
    (forall n m d e, (n, d) ∈ nodes G -> (m, e) ∈ nodes G ->
       coord d = coord e -> n = m) /\
    (forall a b,
       (a, b) ∈ edges G <->
       exists da db, (a, da) ∈ nodes G /\ (b, db) ∈ nodes G /\
                     face_adjacent (coord da) (coord db)) /\
    (forall a b, (a, b) ∈ edges G -> (b, a) ∈ edges G).
Proof.
  intros Hc Hcm.
  destruct (voxel_graphe_facts ny nx nz counts cm Hc Hcm)
    as (G & HG & Hwf & Hids & Hfull & Hcls & Hinj & Hedges).
  exists G. split; [done|]. split; [done|]. split; [done|]. split; [done|].
  split; [done|]. split; [done|]. split; [done|].
  intros a b (da & db & Ha & Hb & Hadj)%Hedges. apply Hedges.
  exists db, da. split; [done|]. split; [done|]. by apply face_adjacent_sym.
Qed.

Lemma voxel_graphe_spec_witness :
  exists G,
    voxel_graphe [[[2; 0]; [1; 1]]] [[[2; 0]; [6; 1]]] = Return G /\
    graph_wf G /\
    node_ids G
    = seq 0 (List.length (argwhere3 (fun c => 0 <? c) [[[2; 0]; [1; 1]]])) /\
    (forall iy ix iz,
       full_voxel [[[2; 0]; [1; 1]]] iy ix iz <->
       exists n d, (n, d) ∈ nodes G /\ coord d = (ix, iy, iz)) /\
    (forall n d, (n, d) ∈ nodes G ->
       get3 [[[2; 0]; [6; 1]]] (coord d).1.2 (coord d).1.1 (coord d).2
       = Some (class_maj d)) /\
    (forall n m d e, (n, d) ∈ nodes G -> (m, e) ∈ nodes G ->
       coord d = coord e -> n = m) /\
    (forall a b,
       (a, b) ∈ edges G <->
       exists da db, (a, da) ∈ nodes G /\ (b, db) ∈ nodes G /\
                     face_adjacent (coord da) (coord db)) /\
    (forall a b, (a, b) ∈ edges G -> (b, a) ∈ edges G).
Proof.
  apply (voxel_graphe_spec 1 2 2); by apply shape3_check.
Defined.

(** Three full voxels in an L: two edges, each in both directions. *)
Example voxel_graphe_L :
  voxel_graphe [[[2; 0]; [1; 1]]] [[[2; 0]; [6; 1]]]
  = Return (mkGraph
      [ (0, mkNode (0, 0, 0) 2); (1, mkNode (1, 0, 0) 6);
        (2, mkNode (1, 0, 1) 1) ]%nat
      [ (0, 1); (1, 0); (1, 2); (2, 1) ]%nat).
Proof. reflexivity. Qed.

End VoxelGraphe.

(** ** LIDAR_traitement.py: what the two filters keep *)

Section Filtres.
Import Traitement.

Lemma filter_id {A} (P : A -> Prop) `{!forall a, Decision (P a)} (l : list A) :
  (forall a, a ∈ l -> P a) -> filter P l = l.
Proof.
  induction l as [|a l IH]; intros Hall; [done|].
  rewrite filter_cons_True by (apply Hall; set_solver).
  by rewrite IH by (intros; apply Hall; set_solver).
Qed.

Lemma subgraph_wf G (keep : gset nat) : graph_wf G -> graph_wf (subgraph G keep).
Proof.
  intros [Hnd Hed]. split.
  - unfold node_ids, subgraph. simpl.
    apply (sublist_NoDup _ _ Hnd), fmap_sublist, sublist_filter.
  - intros a b [[Ha Hb] Hab]%list_elem_of_filter. simpl in Ha, Hb.
    destruct (Hed a b Hab) as [Hna Hnb].
    split; by apply elem_of_subgraph_ids.
Qed.

Lemma subgraph_all G (keep : gset nat) :
  graph_wf G -> (forall n, n ∈ node_ids G -> n ∈ keep) -> subgraph G keep = G.
Proof.
  intros [_ Hed] Hall. destruct G as [ns es]. unfold subgraph. simpl in *. f_equal.
  - apply filter_id. intros [n d] Hin. simpl. apply Hall.
    unfold node_ids. simpl. by apply (list_elem_of_fmap_2 fst) in Hin.
  - apply filter_id. intros [a b] Hin. simpl.
    destruct (Hed a b Hin). split; by apply Hall.
Qed.

Lemma node_data_unique G n d d' :
  graph_wf G -> (n, d) ∈ nodes G -> (n, d') ∈ nodes G -> d = d'.
Proof.
  intros [Hnd _] (i & Hi)%list_elem_of_lookup_1 (j & Hj)%list_elem_of_lookup_1.
  assert (i = j) as ->.
  { eapply (NoDup_lookup (node_ids G)); [done| |];
      unfold node_ids; rewrite list_lookup_fmap; [by rewrite Hi | by rewrite Hj]. }
  congruence.
Qed.

Lemma graphe_filtre_sol_facts (G : Graph) (class_sol : Z) :
  graph_wf G ->
  graph_wf (graphe_filtre_sol G class_sol) /\
  (forall n d, (n, d) ∈ nodes (graphe_filtre_sol G class_sol) -> (n, d) ∈ nodes G) /\
  (forall a b, (a, b) ∈ edges (graphe_filtre_sol G class_sol) -> (a, b) ∈ edges G) /\
  (forall g, is_sol G class_sol g -> g ∈ node_ids (graphe_filtre_sol G class_sol)) /\
  (forall n m, n ∈ node_ids (graphe_filtre_sol G class_sol) ->
     adjacent G n m ->
     m ∈ node_ids (graphe_filtre_sol G class_sol) /\
     adjacent (graphe_filtre_sol G class_sol) n m) /\
  graphe_filtre_sol (graphe_filtre_sol G class_sol) class_sol
  = graphe_filtre_sol G class_sol.
Proof.
  intros Hwf. unfold graphe_filtre_sol at 1 2 3 4 5 6.
  set (keep := nodes_valides G class_sol).
  pose proof (elem_of_nodes_valides G Hwf class_sol) as Hkeep. fold keep in Hkeep.
  assert (forall n m, n ∈ keep -> adjacent G n m -> m ∈ keep) as Hclosed.
  { intros n m [Hn (g & Hsol & Hng)]%Hkeep Hadj. apply Hkeep.
    split; [by apply (adjacent_node G Hwf) in Hadj as [_ ?]|].
    exists g. split; [done|].
    eapply rtc_l; [by apply adjacent_sym|done]. }
  assert (forall g, is_sol G class_sol g -> g ∈ keep) as Hsolkeep.
  { intros g Hsol. apply Hkeep. split; [by eapply is_sol_node|].
    exists g. split; [done | apply rtc_refl]. }
  pose proof (subgraph_wf G keep Hwf) as Hwf'.
  split; [done|].
  split. { by intros n d [? _]%elem_of_subgraph_nodes. }
  split. { by intros a b [_ ?]%list_elem_of_filter. }
  split.
  { intros g Hsol. apply elem_of_subgraph_ids.
    split; [by eapply is_sol_node | by apply Hsolkeep]. }
  split.
  { intros n m [Hn Hk]%elem_of_subgraph_ids Hadj.
    pose proof (Hclosed n m Hk Hadj) as Hm.
    split; [|by apply subgraph_adjacent].
    apply elem_of_subgraph_ids. split; [|done].
    by apply (adjacent_node G Hwf) in Hadj as [_ ?]. }
  unfold graphe_filtre_sol. fold keep.
  apply subgraph_all; [done|].
  intros n Hn. apply (elem_of_nodes_valides _ Hwf').
  split; [done|].
  apply elem_of_subgraph_ids in Hn as [Hn Hk].
  pose proof Hk as [_ (g & Hsol & Hng)]%Hkeep.
  exists g. split; [|by apply subgraph_connected].
  destruct Hsol as (d & Hd & Hc). exists d. split; [|done].
  apply elem_of_subgraph_nodes. split; [done|]. apply Hsolkeep. by exists d.
Qed.

(** X21. On a graph as networkx keeps them, the ground filter returns such a
    graph again, made of nodes and edges of the input. It keeps every
    ground node, and with a node it keeps all the neighbours of the node
    and the edges to them. Filtering a second time changes nothing. *)
Theorem graphe_filtre_sol_keeps_ground (G : Graph) (class_sol : Z) :
  graph_wf G ->
  graph_wf (graphe_filtre_sol G class_sol) /\
  (forall n d, (n, d) ∈ nodes (graphe_filtre_sol G class_sol) -> (n, d) ∈ nodes G) /\
  (forall a b, (a, b) ∈ edges (graphe_filtre_sol G class_sol) -> (a, b) ∈ edges G) /\
  (forall g, is_sol G class_sol g -> g ∈ node_ids (graphe_filtre_sol G class_sol)) /\
  (forall n m, n ∈ node_ids (graphe_filtre_sol G class_sol) ->
     adjacent G n m ->
     m ∈ node_ids (graphe_filtre_sol G class_sol) /\
     adjacent (graphe_filtre_sol G class_sol) n m) /\
  graphe_filtre_sol (graphe_filtre_sol G class_sol) class_sol
  = graphe_filtre_sol G class_sol.
Proof. apply graphe_filtre_sol_facts. Qed.

Lemma graphe_filtre_sol_keeps_ground_witness :
  graph_wf (graphe_filtre_sol scene_flottante 2) /\
  (forall n d, (n, d) ∈ nodes (graphe_filtre_sol scene_flottante 2) ->
     (n, d) ∈ nodes scene_flottante) /\
  (forall a b, (a, b) ∈ edges (graphe_filtre_sol scene_flottante 2) ->
     (a, b) ∈ edges scene_flottante) /\
  (forall g, is_sol scene_flottante 2 g ->
     g ∈ node_ids (graphe_filtre_sol scene_flottante 2)) /\
  (forall n m, n ∈ node_ids (graphe_filtre_sol scene_flottante 2) ->
     adjacent scene_flottante n m ->
     m ∈ node_ids (graphe_filtre_sol scene_flottante 2) /\
     adjacent (graphe_filtre_sol scene_flottante 2) n m) /\
  graphe_filtre_sol (graphe_filtre_sol scene_flottante 2) 2
  = graphe_filtre_sol scene_flottante 2.
Proof.
  apply (graphe_filtre_sol_keeps_ground scene_flottante 2).
  exact graph_wf_scene_flottante.
Defined.

Lemma graphe_filtre_classes_nodes G classes n d :
  graph_wf G ->
  (n, d) ∈ nodes (graphe_filtre_classes G classes) <->
  (n, d) ∈ nodes G /\ class_maj d ∈ classes.
Proof.
  intros Hwf. unfold graphe_filtre_classes.
  rewrite elem_of_subgraph_nodes, elem_of_list_to_set, list_elem_of_fmap.
  split.
  - intros [Hd ([n' d'] & Hn & [Hc Hd']%list_elem_of_filter)]. simpl in *. subst n'.
    split; [done|]. by rewrite (node_data_unique G n d d' Hwf Hd Hd').
  - intros [Hd Hc]. split; [done|]. exists (n, d). split; [done|].
    by apply list_elem_of_filter.
Qed.

Lemma graphe_filtre_classes_facts (G : Graph) (classes : list Z) :
  graph_wf G ->
  graph_wf (graphe_filtre_classes G classes) /\
  (forall n d,
     (n, d) ∈ nodes (graphe_filtre_classes G classes) <->
     (n, d) ∈ nodes G /\ class_maj d ∈ classes) /\
  (forall a b,
     (a, b) ∈ edges (graphe_filtre_classes G classes) <->
     (a, b) ∈ edges G /\
     a ∈ node_ids (graphe_filtre_classes G classes) /\
     b ∈ node_ids (graphe_filtre_classes G classes)) /\
  graphe_filtre_classes (graphe_filtre_classes G classes) classes
  = graphe_filtre_classes G classes.
Proof.
  intros Hwf.
  pose proof (graphe_filtre_classes_nodes G classes) as Hnodes.
  assert (graph_wf (graphe_filtre_classes G classes)) as Hwf'
    by (by apply subgraph_wf).
  split; [done|]. split; [intros; by apply Hnodes|].
  split.
  { intros a b. unfold graphe_filtre_classes at 1.
    unfold subgraph at 1. simpl. rewrite list_elem_of_filter. simpl.
    split.
    - intros [[Ha Hb] Hab]. split; [done|].
      destruct Hwf as [_ Hed]. destruct (Hed a b Hab) as [Hna Hnb].
      unfold graphe_filtre_classes. rewrite !elem_of_subgraph_ids. done.
    - intros (Hab & Ha & Hb). split; [|done].
      unfold graphe_filtre_classes in Ha, Hb.
      apply elem_of_subgraph_ids in Ha as [_ Ha], Hb as [_ Hb]. done. }
  unfold graphe_filtre_classes at 1. apply subgraph_all; [done|].
  intros n (nd & -> & Hnd)%list_elem_of_fmap. destruct nd as [n d].
  rewrite elem_of_list_to_set, list_elem_of_fmap. exists (n, d). split; [done|].
  apply list_elem_of_filter. split; [|done]. simpl.
  by apply Hnodes in Hnd as [_ ?].
Qed.

(** X20. On a graph as networkx keeps them, the class filter keeps exactly the
    nodes whose class is in the list, with their attributes, and exactly
    the edges between two of them; the result is such a graph again, and
    filtering it a second time with the same list changes nothing. *)
Theorem graphe_filtre_classes_spec (G : Graph) (classes : list Z) :
  graph_wf G ->
  graph_wf (graphe_filtre_classes G classes) /\
  (forall n d,
     (n, d) ∈ nodes (graphe_filtre_classes G classes) <->
     (n, d) ∈ nodes G /\ class_maj d ∈ classes) /\
  (forall a b,
     (a, b) ∈ edges (graphe_filtre_classes G classes) <->
     (a, b) ∈ edges G /\
     a ∈ node_ids (graphe_filtre_classes G classes) /\
     b ∈ node_ids (graphe_filtre_classes G classes)) /\
  graphe_filtre_classes (graphe_filtre_classes G classes) classes
  = graphe_filtre_classes G classes.
Proof. apply graphe_filtre_classes_facts. Qed.

Lemma graphe_filtre_classes_spec_witness :
  graph_wf (graphe_filtre_classes scene_flottante [2%Z]) /\
  (forall n d,
     (n, d) ∈ nodes (graphe_filtre_classes scene_flottante [2%Z]) <->
     (n, d) ∈ nodes scene_flottante /\ class_maj d ∈ [2%Z]) /\
  (forall a b,
     (a, b) ∈ edges (graphe_filtre_classes scene_flottante [2%Z]) <->
     (a, b) ∈ edges scene_flottante /\
     a ∈ node_ids (graphe_filtre_classes scene_flottante [2%Z]) /\
     b ∈ node_ids (graphe_filtre_classes scene_flottante [2%Z])) /\
  graphe_filtre_classes (graphe_filtre_classes scene_flottante [2%Z]) [2%Z]
  = graphe_filtre_classes scene_flottante [2%Z].
Proof.
  apply (graphe_filtre_classes_spec scene_flottante [2%Z]).
  exact graph_wf_scene_flottante.
Defined.

(** Of the scene, the class filter for ground keeps the ground voxel
    alone; the filter for buildings keeps the six others and the edges of
    the cluster. *)
Example graphe_filtre_classes_scene :
  graphe_filtre_classes scene_flottante [2%Z]
  = mkGraph [ (0, mkNode (0, 0, 0) 2) ]%nat [] /\
  edges (graphe_filtre_classes scene_flottante [6%Z])
  = [ (2, 3); (3, 2); (3, 4); (4, 3); (3, 5); (5, 3); (3, 6); (6, 3) ]%nat.
Proof. split; vm_compute; reflexivity. Qed.

End Filtres.

(** ** LIDAR_traitement.py: what the shell erosion removes *)

Section Coque.
Import Traitement.
Local Open Scope Z_scope.

Lemma is_internal_true class_sol pillar_step pillar_width
  (nx_max ny_max nz_max : nat) (grid : array3 Z) (x y z : nat) :
  shape3 nx_max ny_max nz_max grid ->
  is_internal class_sol pillar_step pillar_width nx_max ny_max nz_max grid x y z
    = true <->
  enclosed class_sol grid x y z /\ ~ on_pillar pillar_step pillar_width x y.
Proof.
  intros Hshape. unfold is_internal, enclosed, on_pillar.
  set (sol := fun x y z : nat =>
    match get3 grid x y z with Some v => v =? class_sol | None => false end).
  assert (forall a b c, sol a b c = true <-> get3 grid a b c = Some class_sol) as Hsol.
  { intros a b c. unfold sol. destruct (get3 grid a b c) as [v|]; [|done].
    rewrite Z.eqb_eq. split; congruence. }
  assert (forall a b c, get3 grid a b c = Some class_sol ->
            (a < nx_max /\ b < ny_max /\ c < nz_max)%nat) as Hlt
    by (intros a b c; apply (get3_Some_lt _ _ _ _ _ _ _ _ Hshape)).
  cbv zeta. fold (sol x y z) (sol (S x) y z) (sol x (S y) z) (sol x y (S z)).
  rewrite !andb_true_iff, !negb_true_iff, !orb_false_iff, !Nat.eqb_neq.
  rewrite !andb_false_iff, !Z.ltb_ge, !Hsol.
  split.
  - intros ((((((((((H0 & Hxn) & Hxp) & Hyn) & Hyp) & Hzn) & Hzp) & [Hx0 Hx1])
             & [Hy0 Hy1]) & [Hz0 Hz1]) & Hpil).
    destruct (Hlt _ _ _ H0) as (Hx & Hy & Hz).
    destruct (Nat.ltb_spec (S x) nx_max); [|lia].
    destruct (Nat.ltb_spec (S y) ny_max); [|lia].
    destruct (Nat.ltb_spec (S z) nz_max); [|lia].
    destruct x as [|x'], y as [|y'], z as [|z']; try done.
    apply Hsol in Hxn, Hxp, Hyn, Hyp, Hzn, Hzp. simpl.
    split; [|lia]. split; [lia|]. tauto.
  - intros [((Hx0 & Hy0 & Hz0) & H0 & Hxn & Hxp & Hyn & Hyp & Hzn & Hzp) Hpil].
    destruct (Hlt _ _ _ Hxn) as (Hx & _ & _).
    destruct (Hlt _ _ _ Hyn) as (_ & Hy & _).
    destruct (Hlt _ _ _ Hzn) as (_ & _ & Hz).
    destruct (Nat.ltb_spec (S x) nx_max); [|lia].
    destruct (Nat.ltb_spec (S y) ny_max); [|lia].
    destruct (Nat.ltb_spec (S z) nz_max); [|lia].
    destruct x as [|x'], y as [|y'], z as [|z']; try lia.
    simpl in *. rewrite Hxp, Hyp, Hzp, !Z.eqb_refl.
    repeat split; try done; try lia; by apply Hsol.
Qed.

Lemma coque_avec_piliers_cell class_sol pillar_step pillar_width
  (nx_max ny_max nz_max : nat) (grid : array3 Z) (x y z : nat) v :
  shape3 nx_max ny_max nz_max grid ->
  get3 grid x y z = Some v ->
  (enclosed class_sol grid x y z /\ ~ on_pillar pillar_step pillar_width x y /\
   get3 (coque_avec_piliers class_sol pillar_step pillar_width
           nx_max ny_max nz_max grid) x y z = Some 0) \/
  (~ (enclosed class_sol grid x y z /\ ~ on_pillar pillar_step pillar_width x y) /\
   get3 (coque_avec_piliers class_sol pillar_step pillar_width
           nx_max ny_max nz_max grid) x y z = Some v).
Proof.
  intros Hshape Hv.
  destruct (is_internal class_sol pillar_step pillar_width
              nx_max ny_max nz_max grid x y z) eqn:Hint.
  - left. pose proof Hint as [? ?]%is_internal_true; [|done].
    split; [done|]. split; [done|]. by eapply coque_avec_piliers_removed.
  - right. split; [|by eapply coque_avec_piliers_kept].
    intros H%(is_internal_true _ _ _ _ _ _ _ _ _ _ Hshape). congruence.
Qed.

Lemma shape3_coque_avec_piliers class_sol pillar_step pillar_width
  (nx_max ny_max nz_max : nat) (grid : array3 Z) :
  shape3 nx_max ny_max nz_max grid ->
  shape3 nx_max ny_max nz_max
    (coque_avec_piliers class_sol pillar_step pillar_width
       nx_max ny_max nz_max grid).
Proof.
  intros Hshape. unfold coque_avec_piliers.
  apply shape3_zip_with3; [done | apply shape3_build3].
Qed.

Lemma coque_avec_piliers_stable class_sol pillar_step pillar_width
  (nx_max ny_max nz_max : nat) (grid : array3 Z) :
  shape3 nx_max ny_max nz_max grid ->
  coque_avec_piliers class_sol pillar_step pillar_width nx_max ny_max nz_max
    (coque_avec_piliers class_sol pillar_step pillar_width
       nx_max ny_max nz_max grid)
  = coque_avec_piliers class_sol pillar_step pillar_width
      nx_max ny_max nz_max grid.
Proof.
  intros Hshape.
  set (out := coque_avec_piliers class_sol pillar_step pillar_width
                nx_max ny_max nz_max grid).
  pose proof (shape3_coque_avec_piliers class_sol pillar_step pillar_width
                _ _ _ grid Hshape) as Hout. fold out in Hout.
  assert (forall a b c w, get3 out a b c = Some w ->
            w = 0 \/ get3 grid a b c = Some w) as Hback.
  { intros a b c w Hw.
    destruct (get3_Some_lt _ _ _ _ _ _ _ _ Hout Hw) as (Ha & Hb & Hc).
    destruct (get3_shape3 _ _ _ grid a b c Hshape Ha Hb Hc) as [v Hv].
    destruct (coque_avec_piliers_cell class_sol pillar_step pillar_width
                _ _ _ grid a b c v Hshape Hv) as [(_ & _ & H0)|(_ & H1)];
      fold out in H0 || fold out in H1; [left|right]; congruence. }
  apply (array3_eq nx_max ny_max nz_max);
    [by apply shape3_coque_avec_piliers | done |].
  intros x y z Hx Hy Hz.
  destruct (get3_shape3 _ _ _ out x y z Hout Hx Hy Hz) as [w Hw].
  destruct (coque_avec_piliers_cell class_sol pillar_step pillar_width
              _ _ _ out x y z w Hout Hw) as [(Henc & Hpil & H0)|(_ & H1)];
    [|congruence].
  rewrite H0, Hw. f_equal.
  destruct (decide (class_sol = 0)) as [Hcs|Hcs];
    [destruct Henc as (_ & Hc & _); congruence|].
  exfalso.
  assert (forall a b c, get3 out a b c = Some class_sol ->
            get3 grid a b c = Some class_sol) as Hup
    by (intros a b c [?|?]%Hback; [done|done]).
  destruct Henc as (Hpos & Hc & Hxn & Hxp & Hyn & Hyp & Hzn & Hzp).
  destruct (get3_shape3 _ _ _ grid x y z Hshape Hx Hy Hz) as [v Hv].
  destruct (coque_avec_piliers_cell class_sol pillar_step pillar_width
              _ _ _ grid x y z v Hshape Hv) as [(_ & _ & H0')|(Hnot & _)].
  - fold out in H0'. congruence.
  - apply Hnot. split; [|done]. unfold enclosed. auto 10.
Qed.

(** X22. The erosion of [ajouter_sol_coque_pillier] keeps the shape of the
    grid and decides each cell from the grid before erosion: a ground cell
    whose six neighbours exist and are ground, outside the pillar columns,
    becomes 0; every other cell keeps its value. Eroding the result a
    second time changes nothing. *)
Theorem coque_avec_piliers_spec (class_sol pillar_step pillar_width : Z)
  (nx_max ny_max nz_max : nat) (grid : array3 Z) :
  shape3 nx_max ny_max nz_max grid ->
  shape3 nx_max ny_max nz_max
    (coque_avec_piliers class_sol pillar_step pillar_width
       nx_max ny_max nz_max grid) /\
  (forall x y z v, get3 grid x y z = Some v ->
     (enclosed class_sol grid x y z /\ ~ on_pillar pillar_step pillar_width x y /\
      get3 (coque_avec_piliers class_sol pillar_step pillar_width
              nx_max ny_max nz_max grid) x y z = Some 0) \/
     (~ (enclosed class_sol grid x y z /\
         ~ on_pillar pillar_step pillar_width x y) /\
      get3 (coque_avec_piliers class_sol pillar_step pillar_width
              nx_max ny_max nz_max grid) x y z = Some v)) /\
  coque_avec_piliers class_sol pillar_step pillar_width nx_max ny_max nz_max
    (coque_avec_piliers class_sol pillar_step pillar_width
       nx_max ny_max nz_max grid)
  = coque_avec_piliers class_sol pillar_step pillar_width
      nx_max ny_max nz_max grid.
Proof.
  intros Hshape. split; [by apply shape3_coque_avec_piliers|].
  split; [intros x y z v; by apply coque_avec_piliers_cell|].
  by apply coque_avec_piliers_stable.
Qed.

Lemma coque_avec_piliers_spec_witness :
  shape3 5 5 3 (coque_avec_piliers 2 4 2 5 5 3 bloc_sol) /\
  (forall x y z v, get3 bloc_sol x y z = Some v ->
     (enclosed 2 bloc_sol x y z /\ ~ on_pillar 4 2 x y /\
      get3 (coque_avec_piliers 2 4 2 5 5 3 bloc_sol) x y z = Some 0) \/
     (~ (enclosed 2 bloc_sol x y z /\ ~ on_pillar 4 2 x y) /\
      get3 (coque_avec_piliers 2 4 2 5 5 3 bloc_sol) x y z = Some v)) /\
  coque_avec_piliers 2 4 2 5 5 3 (coque_avec_piliers 2 4 2 5 5 3 bloc_sol)
  = coque_avec_piliers 2 4 2 5 5 3 bloc_sol.
Proof.
  apply (coque_avec_piliers_spec 2 4 2 5 5 3 bloc_sol).
  exact shape3_bloc_sol.
Defined.

End Coque.

(** ** LIDAR_traitement.py: the arrays of any graph *)

Section GrapheVoxel.
Import Traitement.
Local Open Scope Z_scope.

Local Abbreviation rule :=
  (fun (m c : Z) => if (m =? 0) || ((m =? 1) && negb (c =? 1)) then c else m).

Lemma foldl_rule_mem cs : forall m0,
  foldl rule m0 cs = m0 \/ foldl rule m0 cs ∈ cs.
Proof.
  induction cs as [|c cs IH]; intros m0; simpl; [by left|].
  destruct (IH (if (m0 =? 0) || ((m0 =? 1) && negb (c =? 1)) then c else m0))
    as [H|H]; [|right; set_solver].
  rewrite H. destruct ((m0 =? 0) || ((m0 =? 1) && negb (c =? 1)));
    [right; set_solver | by left].
Qed.

Lemma foldl_rule_fixed cs : forall m, m <> 0 -> m <> 1 -> foldl rule m cs = m.
Proof.
  induction cs as [|c cs IH]; intros m H0 H1; simpl; [done|].
  apply Z.eqb_neq in H0 as H0', H1 as H1'. rewrite H0', H1'. simpl. by apply IH.
Qed.

Lemma foldl_rule_low cs : forall m0,
  m0 = 0 \/ m0 = 1 -> (forall e, e ∈ cs -> e = 0 \/ e = 1) ->
  foldl rule m0 cs = 0 \/ foldl rule m0 cs = 1.
Proof.
  induction cs as [|c cs IH]; intros m0 Hm Hall; simpl; [done|].
  apply IH; [|intros; apply Hall; set_solver].
  destruct ((m0 =? 0) || ((m0 =? 1) && negb (c =? 1))); [|done].
  apply Hall. set_solver.
Qed.

Lemma foldl_rule_first pre c post m0 :
  m0 = 0 \/ m0 = 1 -> (forall e, e ∈ pre -> e = 0 \/ e = 1) ->
  c <> 0 -> c <> 1 ->
  foldl rule m0 (pre ++ c :: post) = c.
Proof.
  intros Hm Hpre H0 H1. rewrite foldl_app. simpl.
  destruct (foldl_rule_low pre m0 Hm Hpre) as [-> | ->]; simpl.
  - by apply foldl_rule_fixed.
  - apply Z.eqb_neq in H1 as H1'. rewrite H1'. simpl. by apply foldl_rule_fixed.
Qed.

Lemma foldl_fill_voxel_cell ds (y x z : nat) : forall (C M : array3 Z) c0 m0,
  get3 C y x z = Some c0 -> get3 M y x z = Some m0 ->
  get3 (foldl fill_voxel (C, M) ds).1 y x z
  = Some (c0 + Z.of_nat (List.length (filter (fun d => coord d = (x, y, z)) ds))) /\
  get3 (foldl fill_voxel (C, M) ds).2 y x z
  = Some (foldl rule m0 (class_maj <$> filter (fun d => coord d = (x, y, z)) ds)).
Proof.
  induction ds as [|d ds IH]; intros C M c0 m0 HC HM; simpl.
  - rewrite HC, HM. split; f_equal; lia.
  - unfold fill_voxel at 2 4.
    destruct (coord d) as [[x' y'] z'] eqn:Hd. simpl.
    destruct (decide ((x', y', z') = (x, y, z))) as [Heq|Hne].
    + injection Heq as -> -> ->.
      rewrite filter_cons_True by congruence.
      destruct (IH (alter3 (fun n => n + 1) y x z C)
        (alter3 (fun m => if (m =? 0) || ((m =? 1) && negb (class_maj d =? 1))
                          then class_maj d else m) y x z M)
        (c0 + 1)
        (if (m0 =? 0) || ((m0 =? 1) && negb (class_maj d =? 1))
         then class_maj d else m0)) as [-> ->].
      * by rewrite get3_alter3_eq, HC.
      * by rewrite get3_alter3_eq, HM.
      * split; [f_equal; simpl; lia | reflexivity].
    + rewrite filter_cons_False by congruence.
      apply IH; rewrite get3_alter3_ne by congruence; done.
Qed.

Lemma graphe_voxel_facts (G : Graph) :
  nodes G <> [] ->
  exists ny nx nz counts cm,
    graphe_voxel G = Return (counts, cm) /\
    shape3 ny nx nz counts /\ shape3 ny nx nz cm /\
    (forall n d, (n, d) ∈ nodes G ->
       ((coord d).1.2 < ny)%nat /\ ((coord d).1.1 < nx)%nat /\
       ((coord d).2 < nz)%nat) /\
    forall y x z, (y < ny)%nat -> (x < nx)%nat -> (z < nz)%nat ->
      get3 counts y x z = Some (Z.of_nat (List.length (nodes_at G x y z))) /\
      exists m, get3 cm y x z = Some m /\
        (m = 0 \/ exists d, d ∈ nodes_at G x y z /\ class_maj d = m) /\
        (forall pre d post, nodes_at G x y z = pre ++ d :: post ->
           (forall e, e ∈ pre -> class_maj e = 0 \/ class_maj e = 1) ->
           class_maj d <> 0 -> class_maj d <> 1 -> m = class_maj d).
Proof.
  intros Hne. unfold graphe_voxel, nodes_at.
  set (data := snd <$> nodes G).
  destruct data as [|d0 data'] eqn:Hdata.
  { unfold data in Hdata. by apply fmap_nil_inv in Hdata. }
  rewrite <-Hdata. clear Hdata d0 data'.
  set (ny := S (max_list ((fun d => (coord d).1.2) <$> data))).
  set (nx := S (max_list ((fun d => (coord d).1.1) <$> data))).
  set (nz := S (max_list ((fun d => (coord d).2) <$> data))).
  exists ny, nx, nz,
    (foldl fill_voxel (full3 ny nx nz 0, full3 ny nx nz 0) data).1,
    (foldl fill_voxel (full3 ny nx nz 0, full3 ny nx nz 0) data).2.
  split; [by rewrite <-surjective_pairing|].
  destruct (foldl_fill_voxel_shape ny nx nz data
    (full3 ny nx nz 0) (full3 ny nx nz 0)) as [HC HM];
    [apply shape3_full3..|].
  split; [done|]. split; [done|].
  split.
  { intros n d Hd.
    assert (d ∈ data) as Hin by (by apply (list_elem_of_fmap_2 snd) in Hd).
    unfold ny, nx, nz.
    pose proof (max_list_elem_of_le ((coord d).1.2)
      ((fun d => (coord d).1.2) <$> data)
      ltac:(by apply (list_elem_of_fmap_2 (fun d => (coord d).1.2)))).
    pose proof (max_list_elem_of_le ((coord d).1.1)
      ((fun d => (coord d).1.1) <$> data)
      ltac:(by apply (list_elem_of_fmap_2 (fun d => (coord d).1.1)))).
    pose proof (max_list_elem_of_le ((coord d).2)
      ((fun d => (coord d).2) <$> data)
      ltac:(by apply (list_elem_of_fmap_2 (fun d => (coord d).2)))).
    lia. }
  intros y x z Hy Hx Hz.
  destruct (foldl_fill_voxel_cell data y x z
    (full3 ny nx nz 0) (full3 ny nx nz 0) 0 0) as [-> ->];
    [by apply get3_full3..|].
  split; [done|]. eexists. split; [reflexivity|].
  set (here := filter (fun d => coord d = (x, y, z)) data).
  split.
  - destruct (foldl_rule_mem (class_maj <$> here) 0) as [->|Hin]; [by left|].
    right. apply list_elem_of_fmap in Hin as (d & Hd & Hin). by exists d.
  - intros pre d post Hsplit Hpre H0 H1. rewrite Hsplit, fmap_app, fmap_cons.
    apply foldl_rule_first; [by left| |done..].
    intros e (e' & -> & He')%list_elem_of_fmap. by apply Hpre.
Qed.

(** X24. On a graph with at least one node [graphe_voxel] returns two arrays of
    one shape in which every node has its cell. The count of a cell is the
    number of nodes that lie on it. The class of a cell is 0 or the class
    of one of its nodes; when one of its nodes has a class other than 0
    and 1, it is the class of the first such node. *)
Theorem graphe_voxel_spec (G : Graph) :
  nodes G <> [] ->
  exists ny nx nz counts cm,
    graphe_voxel G = Return (counts, cm) /\
    shape3 ny nx nz counts /\ shape3 ny nx nz cm /\
    (forall n d, (n, d) ∈ nodes G ->
       ((coord d).1.2 < ny)%nat /\ ((coord d).1.1 < nx)%nat /\
       ((coord d).2 < nz)%nat) /\
    forall y x z, (y < ny)%nat -> (x < nx)%nat -> (z < nz)%nat ->
      get3 counts y x z = Some (Z.of_nat (List.length (nodes_at G x y z))) /\
      exists m, get3 cm y x z = Some m /\
        (m = 0 \/ exists d, d ∈ nodes_at G x y z /\ class_maj d = m) /\
        (forall pre d post, nodes_at G x y z = pre ++ d :: post ->
           (forall e, e ∈ pre -> class_maj e = 0 \/ class_maj e = 1) ->
           class_maj d <> 0 -> class_maj d <> 1 -> m = class_maj d).
Proof. apply graphe_voxel_facts. Qed.

Lemma graphe_voxel_spec_witness :
  exists ny nx nz counts cm,
    graphe_voxel deux_sur_un = Return (counts, cm) /\
    shape3 ny nx nz counts /\ shape3 ny nx nz cm /\
    (forall n d, (n, d) ∈ nodes deux_sur_un ->
       ((coord d).1.2 < ny)%nat /\ ((coord d).1.1 < nx)%nat /\
       ((coord d).2 < nz)%nat) /\
    forall y x z, (y < ny)%nat -> (x < nx)%nat -> (z < nz)%nat ->
      get3 counts y x z
      = Some (Z.of_nat (List.length (nodes_at deux_sur_un x y z))) /\
      exists m, get3 cm y x z = Some m /\
        (m = 0 \/ exists d, d ∈ nodes_at deux_sur_un x y z /\ class_maj d = m) /\
        (forall pre d post, nodes_at deux_sur_un x y z = pre ++ d :: post ->
           (forall e, e ∈ pre -> class_maj e = 0 \/ class_maj e = 1) ->
           class_maj d <> 0 -> class_maj d <> 1 -> m = class_maj d).
Proof. apply (graphe_voxel_spec deux_sur_un). discriminate. Defined.

(** Two nodes on voxel (x, y, z) = (1, 0, 0): the count is 2 and the
    class that of the classified node. *)
Example graphe_voxel_deux_sur_un :
  graphe_voxel deux_sur_un = Return ([[[0]; [2]]], [[[0]; [6]]]).
Proof. reflexivity. Qed.

End GrapheVoxel.

(** ** LIDAR_couches.py: the majority vote without unclassified points *)

Section CouchesMore.
Import Couches.
Local Open Scope Z_scope.

Lemma majority_vote_facts
  (histogramdd : list (Z * Z * Z) -> nat * nat * nat -> array3 Z)
  (nx ny nz : nat) (points : list ipoint) (densite_min : Z)
  (counts class_maj : array3 Z) (vy vx vz : nat) :
  (forall sample n1 n2 n3, shape3 n1 n2 n3 (histogramdd sample (n1, n2, n3))) ->
  LIDAR_couches histogramdd nx ny nz points densite_min = Return (counts, class_maj) ->
  (vy < ny)%nat -> (vx < nx)%nat -> (vz < nz)%nat ->
  (forall p, p ∈ points ->
     (p_iy p, p_ix p, p_iz p) = (Z.of_nat vy, Z.of_nat vx, Z.of_nat vz) ->
     p_classification p <> 1) ->
  let pts := filter (fun p => valid nx ny nz p = true) points in
  let classes_uniques := sorted_set_asc (p_classification <$> pts) in
  exists maj m,
    get3 (class_maj_brut ny nx nz classes_uniques pts) vy vx vz = Some maj /\
    maj ∈ classes_uniques /\
    (forall k, votes pts vy vx vz k <= votes pts vy vx vz maj) /\
    (forall k, k ∈ classes_uniques ->
       votes pts vy vx vz k = votes pts vy vx vz maj -> maj <= k) /\
    get3 class_maj vy vx vz = Some m /\
    (m = maj \/ m = 0).
Proof.
  intros Hshape Hret Hvy Hvx Hvz Hno1 pts cu.
  assert (forall p, p ∈ pts -> valid nx ny nz p = true) as Hvalid.
  { intros p Hp. by apply list_elem_of_filter in Hp as [? _]. }
  assert (asc cu) as Hasc by apply sorted_set_asc_asc.
  assert (forall k, k ∈ cu <-> exists p, p ∈ pts /\ p_classification p = k) as Hcu.
  { intros k. unfold cu. rewrite elem_of_sorted_set_asc, list_elem_of_fmap.
    naive_solver. }
  assert (forall k, k ∉ cu -> votes pts vy vx vz k = 0) as Hzero.
  { intros k Hk. unfold votes.
    destruct (filter _ pts) as [|q l] eqn:Hf; [done|]. exfalso. apply Hk, Hcu.
    assert (q ∈ filter (fun p =>
      (p_iy p, p_ix p, p_iz p) = (Z.of_nat vy, Z.of_nat vx, Z.of_nat vz) /\
      p_classification p = k) pts) as Hq by (rewrite Hf; set_solver).
    apply list_elem_of_filter in Hq as [[_ Hq] Hin]. eauto. }
  assert (votes pts vy vx vz 1 = 0) as Hv1.
  { unfold votes.
    destruct (filter _ pts) as [|q l] eqn:Hf; [done|]. exfalso.
    assert (q ∈ filter (fun p =>
      (p_iy p, p_ix p, p_iz p) = (Z.of_nat vy, Z.of_nat vx, Z.of_nat vz) /\
      p_classification p = 1) pts) as Hq by (rewrite Hf; set_solver).
    apply list_elem_of_filter in Hq as [[Hcell Hq] Hin].
    apply list_elem_of_filter in Hin as [_ Hin]. by apply (Hno1 q). }
  set (v := ravel_multi_index (Z.of_nat vy) (Z.of_nat vx) (Z.of_nat vz) ny nx nz).
  set (row0 := tally ny nx nz cu pts v <$> seq 0 (List.length cu)).
  assert (forall (c : nat) k, cu !! c = Some k ->
    row0 !! c = Some (votes pts vy vx vz k)) as Hrow0.
  { intros c k Hc. unfold row0.
    rewrite list_lookup_fmap, lookup_seq_lt by by eapply lookup_lt_Some.
    simpl. f_equal. by apply tally_votes. }
  assert (List.length row0 = List.length cu) as Hlen0
    by (unfold row0; by rewrite length_fmap, length_seq).
  assert (suppress_non_classe cu row0 = row0) as Hsupp.
  { unfold suppress_non_classe.
    destruct (index_of 1 cu) as [i1|] eqn:Hi1; [|done].
    rewrite (Hrow0 _ _ (index_of_Some _ _ _ Hi1)), Hv1. simpl.
    by rewrite andb_false_r. }
  unfold LIDAR_couches in Hret. fold pts in Hret. fold cu in Hret.
  destruct (Nat.eqb_spec (List.length cu) 0) as [|Hlen]; [done|].
  injection Hret as <- <-.
  assert (row0 <> []) as Hnil.
  { intros Hrow. apply (f_equal List.length) in Hrow. simpl in Hrow. lia. }
  destruct (argmax_spec row0 Hnil) as (t & Ht & Hmax).
  set (i := argmax row0) in *.
  assert (i < List.length cu)%nat as Hilt
    by (apply lookup_lt_Some in Ht; lia).
  destruct (lookup_lt_is_Some_2 cu i Hilt) as [maj Hmaj].
  assert (t = votes pts vy vx vz maj) as Htv
    by (rewrite (Hrow0 _ _ Hmaj) in Ht; congruence).
  assert (get3 (class_maj_brut ny nx nz cu pts) vy vx vz = Some maj) as Hbrut.
  { unfold class_maj_brut, class_counts. rewrite get3_map3, get3_build3 by done.
    simpl. fold v. fold row0. rewrite Hsupp. fold i. by rewrite Hmaj. }
  set (raw := histogramdd ((fun p => (p_iy p, p_ix p, p_iz p)) <$> pts) (ny, nx, nz)).
  destruct (get3_shape3 _ _ _ raw vy vx vz (Hshape _ ny nx nz) Hvy Hvx Hvz) as [c0 Hc0].
  exists maj, (if c0 <? densite_min then 0 else maj).
  split; [done|]. split; [by eapply list_elem_of_lookup_2|].
  split.
  { intros k. destruct (decide (k ∈ cu)) as [Hin|Hnin].
    - apply list_elem_of_lookup in Hin as [j Hj].
      destruct (Hmax _ _ (Hrow0 _ _ Hj)) as [Hle _]. lia.
    - rewrite (Hzero k Hnin). unfold votes. lia. }
  split.
  { intros k [j Hj]%list_elem_of_lookup Heq.
    destruct (Hmax _ _ (Hrow0 _ _ Hj)) as [_ Hlt].
    destruct (decide (j < i)%nat) as [Hji|Hji]; [specialize (Hlt Hji); lia|].
    destruct (decide (j = i)) as [->|Hne']; [rewrite Hmaj in Hj; injection Hj; lia|].
    assert (maj < k); [|lia]. apply (asc_lookup_lt cu i j); [done..|lia]. }
  split; [by rewrite (get3_zip_with3 _ raw _ vy vx vz c0 maj)|].
  destruct (c0 <? densite_min); auto.
Qed.

(** X25. In a voxel that holds no unclassified point, the class selected before
    the density threshold is a class of the cloud with the most votes in
    the voxel, the lowest code among the classes of the cloud that tie;
    so a voxel without any point gets the lowest class code of the cloud.
    The class returned for the voxel is that class, or 0 below the
    threshold. *)
Theorem majority_vote
  (histogramdd : list (Z * Z * Z) -> nat * nat * nat -> array3 Z)
  (nx ny nz : nat) (points : list ipoint) (densite_min : Z)
  (counts class_maj : array3 Z) (vy vx vz : nat) :
  (forall sample n1 n2 n3, shape3 n1 n2 n3 (histogramdd sample (n1, n2, n3))) ->
  LIDAR_couches histogramdd nx ny nz points densite_min = Return (counts, class_maj) ->
  (vy < ny)%nat -> (vx < nx)%nat -> (vz < nz)%nat ->
  (forall p, p ∈ points ->
     (p_iy p, p_ix p, p_iz p) = (Z.of_nat vy, Z.of_nat vx, Z.of_nat vz) ->
     p_classification p <> 1) ->
  let pts := filter (fun p => valid nx ny nz p = true) points in
  let classes_uniques := sorted_set_asc (p_classification <$> pts) in
  exists maj m,
    get3 (class_maj_brut ny nx nz classes_uniques pts) vy vx vz = Some maj /\
    maj ∈ classes_uniques /\
    (forall k, votes pts vy vx vz k <= votes pts vy vx vz maj) /\
    (forall k, k ∈ classes_uniques ->
       votes pts vy vx vz k = votes pts vy vx vz maj -> maj <= k) /\
    get3 class_maj vy vx vz = Some m /\
    (m = maj \/ m = 0).
Proof. apply majority_vote_facts. Qed.

Lemma majority_vote_witness :
  let pts := filter (fun p => valid 2 1 1 p = true) points_par_classe in
  let classes_uniques := sorted_set_asc (p_classification <$> pts) in
  exists maj m,
    get3 (class_maj_brut 1 2 1 classes_uniques pts) 0 1 0 = Some maj /\
    maj ∈ classes_uniques /\
    (forall k, votes pts 0 1 0 k <= votes pts 0 1 0 maj) /\
    (forall k, k ∈ classes_uniques ->
       votes pts 0 1 0 k = votes pts 0 1 0 maj -> maj <= k) /\
    get3 [[[1]; [3]]] 0 1 0 = Some m /\
    (m = maj \/ m = 0).
Proof.
  apply (majority_vote histogram_cells 2 1 1 points_par_classe 1
           [[[1]; [4]]] [[[1]; [3]]] 0 1 0).
  - intros. apply shape3_histogram_cells.
  - reflexivity.
  - lia.
  - lia.
  - lia.
  - intros p Hp Hcell. unfold points_par_classe in Hp.
    repeat (apply elem_of_cons in Hp as [->|Hp];
      [cbv in Hcell; first [discriminate Hcell | simpl; lia]|]).
    by apply not_elem_of_nil in Hp.
Defined.

Lemma sorted_set_asc_nil l : sorted_set_asc l = [] <-> l = [].
Proof.
  split; [|by intros ->]. intros Hs. destruct l as [|a l]; [done|].
  assert (a ∈ sorted_set_asc (a :: l)) as Hin
    by (apply elem_of_sorted_set_asc; set_solver).
  rewrite Hs in Hin. by apply not_elem_of_nil in Hin.
Qed.

(** X26. [LIDAR_couches] fails exactly when no point falls inside the grid, and
    then with ValueError; so it fails on every grid that has no cell along
    one axis, as the grid of a cloud without extent along that axis. *)
Theorem LIDAR_couches_raises
  (histogramdd : list (Z * Z * Z) -> nat * nat * nat -> array3 Z)
  (nx ny nz : nat) (points : list ipoint) (densite_min : Z) :
  (LIDAR_couches histogramdd nx ny nz points densite_min = Raise ValueError <->
   forall p, p ∈ points -> valid nx ny nz p = false) /\
  (forall e, LIDAR_couches histogramdd nx ny nz points densite_min = Raise e ->
     e = ValueError) /\
  (LIDAR_couches histogramdd nx ny nz points densite_min <> Diverge) /\
  ((nx = 0 \/ ny = 0 \/ nz = 0)%nat ->
   LIDAR_couches histogramdd nx ny nz points densite_min = Raise ValueError).
Proof.
  assert (filter (fun p => valid nx ny nz p = true) points = [] <->
          forall p, p ∈ points -> valid nx ny nz p = false) as Hnil.
  { split.
    - intros Hf p Hp. destruct (valid nx ny nz p) eqn:Hv; [|done].
      exfalso. by apply (filter_nil_not_elem_of _ _ p Hf Hv).
    - intros Hall. destruct (filter _ points) as [|q l] eqn:Hf; [done|].
      assert (q ∈ filter (fun p => valid nx ny nz p = true) points) as Hq
        by (rewrite Hf; set_solver).
      apply list_elem_of_filter in Hq as [Hv Hq]. rewrite (Hall q Hq) in Hv. done. }
  assert (LIDAR_couches histogramdd nx ny nz points densite_min = Raise ValueError <->
          forall p, p ∈ points -> valid nx ny nz p = false) as Hiff.
  { rewrite <-Hnil. unfold LIDAR_couches.
    destruct (Nat.eqb_spec (List.length (sorted_set_asc
      (p_classification <$> filter (fun p => valid nx ny nz p = true) points))) 0)
      as [Hlen|Hlen].
    - split; [|done]. intros _.
      apply length_zero_iff_nil in Hlen.
      apply (proj1 (sorted_set_asc_nil _)) in Hlen.
      by apply fmap_nil_inv in Hlen.
    - split; [done|]. intros Hf. rewrite Hf in Hlen. done. }
  split; [done|]. split; [|split].
  - unfold LIDAR_couches. destruct (Nat.eqb _ 0); [congruence|done].
  - unfold LIDAR_couches. by destruct (Nat.eqb _ 0).
  - intros Hdim. apply Hiff. intros p _. apply not_true_is_false. intros Hv.
    unfold valid in Hv. rewrite !andb_true_iff, !Z.leb_le, !Z.ltb_lt in Hv. lia.
Qed.

End CouchesMore.

(** ** donnees_echantillonnees_LIDAR.py: the points of a sample *)

Section EchantillonContents.
Import Echantillon.
Context {F S : Type}.
Variable leb : F -> F -> bool.
Variable add sub : F -> F -> F.
Variable uniform : F -> F -> S -> F * S.
Variable choice : list nat -> nat -> S -> list nat * S.

Lemma elem_of_indices_zone x0 x1 y0 y1 (las : list (point F)) i :
  i ∈ indices_zone leb x0 x1 y0 y1 las <->
  exists p, las !! i = Some p /\ masque_zone leb x0 x1 y0 y1 p = true.
Proof.
  unfold indices_zone. rewrite elem_of_concat_imap. split.
  - intros (j & p & Hj & Hin). destruct (masque_zone leb x0 x1 y0 y1 p) eqn:Hm.
    + apply list_elem_of_singleton in Hin as ->. by exists p.
    + by apply not_elem_of_nil in Hin.
  - intros (p & Hi & Hm). exists i, p. split; [done|]. rewrite Hm. set_solver.
Qed.

Lemma take_points_elem (las : list (point F)) indices ps p :
  take_points las indices = Return ps -> p ∈ ps ->
  exists i, i ∈ indices /\ las !! i = Some p.
Proof.
  revert ps. induction indices as [|i indices IH]; intros ps; simpl.
  - intros [= <-] Hp. by apply not_elem_of_nil in Hp.
  - destruct (las !! i) as [q|] eqn:Hq; [|done].
    destruct (take_points las indices) as [ps'| |] eqn:Hps; simpl; [|done..].
    intros [= <-] [->|Hp]%elem_of_cons.
    + exists i. split; [set_solver|done].
    + destruct (IH ps' eq_refl Hp) as (j & Hj & Hl). exists j. split; [set_solver|done].
Qed.

Lemma take_points_where (P : point F -> bool) (l : list (point F)) :
  forall pre,
    take_points (pre ++ l)
      (concat (imap (fun i p => if P p then [(List.length pre + i)%nat] else []) l))
    = Return (filter (fun p => P p = true) l).
Proof.
  induction l as [|a l IH]; intros pre; [done|].
  rewrite imap_cons, filter_cons.
  assert (imap ((fun i p => if P p then [(List.length pre + i)%nat] else [])
                ∘ Datatypes.S) l
          = imap (fun i p => if P p then [(List.length (pre ++ [a]) + i)%nat] else []) l)
    as ->.
  { apply imap_ext. intros i p _. simpl. rewrite length_app. simpl.
    by replace (List.length pre + 1 + i)%nat with (List.length pre + Datatypes.S i)%nat
      by lia. }
  specialize (IH (pre ++ [a])). rewrite <-app_assoc in IH. simpl in IH.
  simpl concat. destruct (P a) eqn:HP.
  - rewrite decide_True by done. simpl.
    rewrite Nat.add_0_r, list_lookup_middle by done. rewrite IH. done.
  - rewrite decide_False by congruence. simpl. exact IH.
Qed.

Lemma take_points_indices_zone x0 x1 y0 y1 (las : list (point F)) :
  take_points las (indices_zone leb x0 x1 y0 y1 las)
  = Return (filter (fun p => masque_zone leb x0 x1 y0 y1 p = true) las).
Proof. exact (take_points_where (masque_zone leb x0 x1 y0 y1) las []). Qed.

Hypothesis choice_spec : forall a size s,
  size <= List.length a ->
  List.length (choice a size s).1 = size /\
  forall i, i ∈ (choice a size s).1 -> i ∈ a.

Lemma echantillonner_contents x0 x1 y0 y1 (las : list (point F)) nb_points s :
  exists res s',
    echantillonner choice las nb_points (indices_zone leb x0 x1 y0 y1 las) s
    = Return (res, s') /\
    (forall p, p ∈ res -> p ∈ las /\ masque_zone leb x0 x1 y0 y1 p = true) /\
    (List.length (filter (fun p => masque_zone leb x0 x1 y0 y1 p = true) las)
     <= nb_points ->
     res = filter (fun p => masque_zone leb x0 x1 y0 y1 p = true) las /\ s' = s).
Proof.
  unfold echantillonner. rewrite <-length_indices_zone.
  destruct (Nat.ltb_spec nb_points
    (List.length (indices_zone leb x0 x1 y0 y1 las))) as [Hmany|Hfew].
  - destruct (choice_spec (indices_zone leb x0 x1 y0 y1 las) nb_points s
      ltac:(lia)) as [Hlen Hsub].
    destruct (choice (indices_zone leb x0 x1 y0 y1 las) nb_points s)
      as [chosen s'] eqn:Hch. simpl in *.
    destruct (take_points_Return choice las chosen) as (ps & Hps & _).
    { intros i Hi. by apply (indices_zone_lt leb x0 x1 y0 y1), Hsub. }
    rewrite Hps. exists ps, s'. simpl. split; [done|]. split; [|lia].
    intros p Hp.
    destruct (take_points_elem las chosen ps p Hps Hp) as (i & Hi & Hl).
    apply Hsub, elem_of_indices_zone in Hi as (q & Hq & Hm).
    rewrite Hl in Hq. injection Hq as <-.
    split; [by eapply list_elem_of_lookup_2 | done].
  - rewrite take_points_indices_zone. eexists _, s. simpl.
    split; [reflexivity|]. split; [|done].
    by intros p [Hm Hp]%list_elem_of_filter.
Qed.


End EchantillonContents.

Section EchantillonContentsWitness.
Import Echantillon.


End EchantillonContentsWitness.

(** ** LIDAR_traitement.py: propagation to the unclassified voxels *)

Section CorrigerFacts.
Import Traitement.
Local Open Scope Z_scope.

Variable set_iter : list Z -> list Z.
Hypothesis set_iter_elem : forall l x, x ∈ set_iter l -> x ∈ l.
Hypothesis set_iter_nonempty : forall l, l <> [] -> set_iter l <> [].

Variable G : Graph.
Hypothesis Hwf : graph_wf G.
Variable class_non_classe : Z.
Variable classes_a_propager : list Z.

Local Abbreviation Inv ns :=
  (Forall2 (corrige class_non_classe classes_a_propager) (nodes G) ns).

Lemma Inv_ids ns : Inv ns -> fst <$> ns = node_ids G.
Proof.
  unfold node_ids. induction 1 as [|nd nd' l ns' (Hid & _) _ IH]; [done|].
  rewrite !fmap_cons. by rewrite Hid, IH.
Qed.

Lemma class_of_Return ns v :
  v ∈ fst <$> ns -> exists c, class_of ns v = Return c.
Proof.
  intros (nd & -> & Hin)%list_elem_of_fmap. unfold class_of.
  destruct (list_find (fun nd0 : nat * node_data => nd0.1 = nd.1) ns)
    as [[i nd']|] eqn:Hf; [eauto|].
  apply list_find_None in Hf. rewrite Forall_forall in Hf. by destruct (Hf nd Hin).
Qed.

Lemma classes_voisins_Return ns voisins :
  (forall v, v ∈ voisins -> v ∈ fst <$> ns) ->
  exists cs, classes_voisins ns classes_a_propager voisins = Return cs /\
             forall c, c ∈ cs -> c ∈ classes_a_propager.
Proof.
  induction voisins as [|v voisins IH]; intros Hin; simpl.
  - exists []. split; [done|]. by intros c ?%not_elem_of_nil.
  - destruct (class_of_Return ns v) as [c ->]; [apply Hin; set_solver|].
    destruct IH as (cs & -> & Hcs); [intros; apply Hin; set_solver|]. simpl.
    eexists. split; [reflexivity|]. intros c'.
    destruct (bool_decide (c ∈ classes_a_propager)) eqn:Hc; [|apply Hcs].
    apply bool_decide_eq_true_1 in Hc.
    intros [->|Hc']%elem_of_cons; [done | by apply Hcs].
Qed.

Lemma max_by_elem key l : forall best, max_by key best l ∈ best :: l.
Proof.
  induction l as [|c l IH]; intros best; simpl; [set_solver|].
  destruct (key best <? key c)%nat.
  - specialize (IH c). set_solver.
  - specialize (IH best). set_solver.
Qed.

Lemma set_class_corrige l ns n c :
  Forall2 (corrige class_non_classe classes_a_propager) l ns ->
  (forall nd, nd ∈ l -> nd.1 = n -> class_maj nd.2 = class_non_classe) ->
  c ∈ classes_a_propager ->
  Forall2 (corrige class_non_classe classes_a_propager) l (set_class ns n c).
Proof.
  intros HF. unfold set_class.
  induction HF as [|nd nd' l ns' (Hid & Hco & Hcl) _ IH]; intros Hn Hc;
    [constructor|].
  rewrite fmap_cons. constructor; [|apply IH; [intros; apply Hn; set_solver|done]].
  destruct (decide (nd'.1 = n)) as [Heq|Hne]; [|done].
  split; [done|]. split; [done|]. right. simpl. split; [|done].
  apply Hn; [set_solver | congruence].
Qed.

Lemma set_class_Inv ns n c :
  Inv ns ->
  (forall nd, nd ∈ nodes G -> nd.1 = n -> class_maj nd.2 = class_non_classe) ->
  c ∈ classes_a_propager ->
  Inv (set_class ns n c).
Proof. apply set_class_corrige. Qed.

Lemma corriger_noeud_Inv st n :
  Inv st.1 -> n ∈ node_ids G ->
  (forall nd, nd ∈ nodes G -> nd.1 = n -> class_maj nd.2 = class_non_classe) ->
  exists st', corriger_noeud set_iter G classes_a_propager st n = Return st' /\
              Inv st'.1.
Proof.
  intros HInv Hnode Hn. unfold corriger_noeud.
  destruct (classes_voisins_Return st.1 (elements (neighbors G n)))
    as (cv & -> & Hcv).
  { intros v Hv%elem_of_elements%elem_of_neighbors.
    rewrite (Inv_ids _ HInv). by apply (adjacent_node G Hwf) in Hv as [_ ?]. }
  simpl. destruct cv as [|c cv]; [by exists st|].
  destruct (set_iter (c :: cv)) as [|c0 rest] eqn:Hs;
    [by apply set_iter_nonempty in Hs|].
  eexists. split; [reflexivity|]. simpl.
  apply set_class_Inv; [done..|].
  apply Hcv, set_iter_elem. rewrite Hs. apply max_by_elem.
Qed.

Lemma corriger_passe_Inv nodes_nc : forall st,
  Inv st.1 ->
  (forall n, n ∈ nodes_nc ->
     n ∈ node_ids G /\
     forall nd, nd ∈ nodes G -> nd.1 = n -> class_maj nd.2 = class_non_classe) ->
  exists st', corriger_passe set_iter G classes_a_propager st nodes_nc = Return st' /\
              Inv st'.1.
Proof.
  induction nodes_nc as [|n rest IH]; intros st HInv Hnc; simpl; [by exists st|].
  destruct (Hnc n ltac:(set_solver)) as [Hnode Hn].
  destruct (corriger_noeud_Inv st n HInv Hnode Hn) as (st1 & -> & HInv1). simpl.
  apply IH; [done|]. intros; apply Hnc; set_solver.
Qed.

Lemma Inv_nodes_nc ns n :
  Inv ns ->
  n ∈ fst <$> filter (fun nd => class_maj nd.2 = class_non_classe) ns ->
  n ∈ node_ids G /\
  forall nd, nd ∈ nodes G -> nd.1 = n -> class_maj nd.2 = class_non_classe.
Proof.
  intros HInv (nd' & -> & [Hc Hin]%list_elem_of_filter)%list_elem_of_fmap.
  apply list_elem_of_lookup_1 in Hin as [i Hi].
  destruct (Forall2_lookup_r _ _ _ _ _ HInv Hi) as (nd & Hnd & Hid & _ & Hcl).
  assert (class_maj nd.2 = class_non_classe) as Hnc by (destruct Hcl; [congruence|tauto]).
  split.
  - rewrite Hid. unfold node_ids. apply list_elem_of_fmap_2.
    by eapply list_elem_of_lookup_2.
  - intros nd2 (j & Hj)%list_elem_of_lookup_1 Heq.
    destruct Hwf as [Hnodup _].
    assert (j = i) as ->.
    { eapply (NoDup_lookup (node_ids G)); [done| |];
        unfold node_ids; rewrite list_lookup_fmap; [by rewrite Hj | rewrite Hnd].
      simpl. congruence. }
    congruence.
Qed.

Lemma corriger_iter_Inv max_iter : forall ns,
  Inv ns ->
  exists ns', corriger_iter set_iter G class_non_classe classes_a_propager
                max_iter ns = Return ns' /\
              Inv ns'.
Proof.
  induction max_iter as [|k IH]; intros ns HInv; simpl; [by exists ns|].
  destruct (fst <$> filter (fun nd => class_maj nd.2 = class_non_classe) ns)
    as [|n0 rest] eqn:Hnc; [by exists ns|].
  destruct (corriger_passe_Inv (n0 :: rest) (ns, O) HInv) as (st & -> & HInv').
  { intros n Hn. apply (Inv_nodes_nc ns); [done|]. by rewrite Hnc. }
  simpl. destruct (Nat.eqb st.2 0); [by exists st.1 | by apply IH].
Qed.

Lemma Inv_refl : Inv (nodes G).
Proof.
  apply Forall2_same_length_lookup. split; [done|].
  intros i nd nd' H1 H2. rewrite H1 in H2. injection H2 as <-.
  split; [done|]. split; [done|]. by left.
Qed.

Lemma corriger_facts class_sol max_iter :
  exists G',
    corriger_voxels_non_classes_iteratif set_iter G class_non_classe
      classes_a_propager class_sol max_iter = Return G' /\
    edges G' = edges G /\
    node_ids G' = node_ids G /\
    graph_wf G' /\
    Forall2 (corrige class_non_classe classes_a_propager) (nodes G) (nodes G') /\
    ((max_iter <= 0 \/
      forall n d, (n, d) ∈ nodes G -> class_maj d <> class_non_classe) ->
     G' = G).
Proof.
  unfold corriger_voxels_non_classes_iteratif.
  destruct (corriger_iter_Inv (Z.to_nat max_iter) (nodes G) Inv_refl)
    as (ns & Hns & HInv).
  rewrite Hns. simpl. eexists. split; [reflexivity|]. simpl.
  pose proof (Inv_ids ns HInv) as Hids.
  split; [done|]. split; [done|].
  split.
  { destruct Hwf as [Hnd Hed]. split; unfold node_ids; simpl; by rewrite Hids. }
  split; [done|].
  intros Hidle.
  assert (ns = nodes G) as ->; [|by destruct G].
  destruct Hidle as [Hle|Hnone].
  - replace (Z.to_nat max_iter) with O in Hns by lia. simpl in Hns. congruence.
  - destruct (Z.to_nat max_iter) as [|k]; simpl in Hns; [congruence|].
    destruct (fst <$> filter (fun nd => class_maj nd.2 = class_non_classe) (nodes G))
      as [|n0 rest] eqn:Hnc; [congruence|].
    exfalso.
    assert (n0 ∈ fst <$> filter (fun nd => class_maj nd.2 = class_non_classe)
                           (nodes G)) as Hin by (rewrite Hnc; set_solver).
    apply list_elem_of_fmap in Hin as ([m d] & _ & [Hc Hin]%list_elem_of_filter).
    by apply (Hnone m d).
Qed.

End CorrigerFacts.

Section CorrigerTheorem.
Import Traitement.
Local Open Scope Z_scope.

(** X19. On a graph as networkx keeps them, and whatever the order in which
    Python goes through a set of classes, the propagation returns a graph
    with the same edges and the same nodes in the same order: every node
    keeps its identifier and its coordinates, and its class too unless it
    was unclassified and now carries one of the classes to propagate.
    Without iteration, or without unclassified node, the graph comes
    back unchanged. *)
Theorem corriger_voxels_non_classes_spec (set_iter : list Z -> list Z)
  (G : Graph) (class_non_classe : Z) (classes_a_propager : list Z)
  (class_sol max_iter : Z) :
  (forall l x, x ∈ set_iter l -> x ∈ l) ->
  (forall l, l <> [] -> set_iter l <> []) ->
  graph_wf G ->
  exists G',
    corriger_voxels_non_classes_iteratif set_iter G class_non_classe
      classes_a_propager class_sol max_iter = Return G' /\
    edges G' = edges G /\
    node_ids G' = node_ids G /\
    graph_wf G' /\
    Forall2 (corrige class_non_classe classes_a_propager) (nodes G) (nodes G') /\
    ((max_iter <= 0 \/
      forall n d, (n, d) ∈ nodes G -> class_maj d <> class_non_classe) ->
     G' = G).
Proof. intros H1 H2 Hwf. by apply corriger_facts. Qed.

Lemma graph_wf_mur_troue : graph_wf mur_troue.
Proof. by apply graph_wf_check. Qed.

Lemma corriger_voxels_non_classes_spec_witness :
  exists G',
    corriger_voxels_non_classes_iteratif id mur_troue 1 [6] 2 5 = Return G' /\
    edges G' = edges mur_troue /\
    node_ids G' = node_ids mur_troue /\
    graph_wf G' /\
    Forall2 (corrige 1 [6]) (nodes mur_troue) (nodes G') /\
    ((5 <= 0 \/
      forall n d, (n, d) ∈ nodes mur_troue -> class_maj d <> 1) ->
     G' = mur_troue).
Proof.
  apply (corriger_voxels_non_classes_spec id mur_troue 1 [6] 2 5).
  - intros l x Hx. exact Hx.
  - intros l Hl. exact Hl.
  - exact graph_wf_mur_troue.
Defined.

(** The unclassified voxel of the wall becomes building; the one that
    stands apart stays unclassified. *)
Example corriger_mur_troue :
  corriger_voxels_non_classes_iteratif id mur_troue 1 [6] 2 5
  = Return (mkGraph
      [ (0, mkNode (0, 0, 0) 6); (1, mkNode (0, 0, 1) 6);
        (2, mkNode (0, 0, 2) 6); (3, mkNode (5, 5, 0) 1) ]%nat
      [ (0, 1); (1, 0); (1, 2); (2, 1) ]%nat).
Proof. vm_compute. reflexivity. Qed.

End CorrigerTheorem.

(** ** cost_func_change.py: range of the vertical boundary penalty *)

Section CostBounds.
Import Merge Cost.
Local Open Scope Z_scope.

(** X17. The vertical boundary penalty of a layer lies between 0 and twice the
    number of bricks of the layer, whatever the spatial map holds: each
    brick is checked at its two ends. *)
Theorem vertical_boundary_penalty_bounds (layer_bricks : list brick_obj)
  (grid : gmap (Z * Z * Z) brick_obj) (current_z : Z) :
  0 <= vertical_boundary_penalty_fast layer_bricks grid current_z
    <= 2 * Z.of_nat (List.length layer_bricks).
Proof.
  split; [apply vertical_boundary_penalty_nonneg | apply vertical_boundary_penalty_le].
Qed.

End CostBounds.

(** ** merge.py: the mergeable neighbours of a brick *)

Section VoisinageFacts.
Import Merge Cost Voisinage.
Local Open Scope Z_scope.

(** X5. The bricks that [get_neighbors] returns for a brick of positive size
    are bricks of the list, in the order of the list, that share no cell
    with the brick; none of them has the fields of the brick, so that the
    test of identity only matters for a brick without area. The relation
    goes both ways: the brick is among the neighbours of each of them,
    when it is in the list. *)
Theorem get_neighbors_spec (brick : brick_obj) (bricks : list brick_obj) :
  positive_size brick.2 ->
  get_neighbors brick bricks `sublist_of` bricks /\
  forall b, b ∈ get_neighbors brick bricks ->
    can_merge brick.2 b.2 = true /\
    b.2 <> brick.2 /\
    (forall cx cy, ~ (covers brick.2 cx cy /\ covers b.2 cx cy)) /\
    (brick ∈ bricks -> brick ∈ get_neighbors b bricks).
Proof.
  intros [Hl Hw]. split; [apply sublist_filter|].
  intros b [[Hid Hm] Hb]%list_elem_of_filter.
  pose proof Hm as (_ & _ & _ & Hn & _)%can_merge_true.
  pose proof Hn as [_ Hgeo]%are_neighbors_true.
  split; [done|]. split; [|split].
  - intros Heq. rewrite Heq in Hgeo. lia.
  - intros cx cy [H1 H2]. unfold covers in *. lia.
  - intros Hin. apply list_elem_of_filter. split; [|done].
    split; [congruence|]. by rewrite can_merge_sym.
Qed.

Lemma get_neighbors_spec_witness :
  get_neighbors (0%nat, mkBrick 0 0 0 2 1 7 "H")
    [ (0%nat, mkBrick 0 0 0 2 1 7 "H"); (1%nat, mkBrick 0 2 0 2 1 7 "H");
      (2%nat, mkBrick 0 0 1 2 1 7 "H") ]
  `sublist_of`
    [ (0%nat, mkBrick 0 0 0 2 1 7 "H"); (1%nat, mkBrick 0 2 0 2 1 7 "H");
      (2%nat, mkBrick 0 0 1 2 1 7 "H") ] /\
  forall b,
    b ∈ get_neighbors (0%nat, mkBrick 0 0 0 2 1 7 "H")
          [ (0%nat, mkBrick 0 0 0 2 1 7 "H"); (1%nat, mkBrick 0 2 0 2 1 7 "H");
            (2%nat, mkBrick 0 0 1 2 1 7 "H") ] ->
    can_merge (0%nat, mkBrick 0 0 0 2 1 7 "H").2 b.2 = true /\
    b.2 <> (0%nat, mkBrick 0 0 0 2 1 7 "H").2 /\
    (forall cx cy, ~ (covers (0%nat, mkBrick 0 0 0 2 1 7 "H").2 cx cy /\
                      covers b.2 cx cy)) /\
    ((0%nat, mkBrick 0 0 0 2 1 7 "H")
       ∈ [ (0%nat, mkBrick 0 0 0 2 1 7 "H"); (1%nat, mkBrick 0 2 0 2 1 7 "H");
           (2%nat, mkBrick 0 0 1 2 1 7 "H") ] ->
     (0%nat, mkBrick 0 0 0 2 1 7 "H")
       ∈ get_neighbors b
           [ (0%nat, mkBrick 0 0 0 2 1 7 "H"); (1%nat, mkBrick 0 2 0 2 1 7 "H");
             (2%nat, mkBrick 0 0 1 2 1 7 "H") ]).
Proof.
  apply (get_neighbors_spec (0%nat, mkBrick 0 0 0 2 1 7 "H")).
  unfold positive_size. simpl. lia.
Defined.

(** Of the brick end to end with it and the brick beside it, only the
    first is a mergeable neighbour. *)
Example get_neighbors_row :
  get_neighbors (0%nat, mkBrick 0 0 0 2 1 7 "H")
    [ (0%nat, mkBrick 0 0 0 2 1 7 "H"); (1%nat, mkBrick 0 2 0 2 1 7 "H");
      (2%nat, mkBrick 0 0 1 2 1 7 "H") ]
  = [ (1%nat, mkBrick 0 2 0 2 1 7 "H") ].
Proof. reflexivity. Qed.

End VoisinageFacts.

(** ** LIDAR_traitement.py: the graph rebuilt after the erosion *)

Section Reconstruction.
Import Traitement.
Local Open Scope Z_scope.

Lemma reconstruction_nodes (min_coords : nat * nat * nat) (grid : array3 Z) n d :
  (n, d) ∈ nodes (reconstruction min_coords grid) <->
  exists x y z v,
    argwhere3 (fun v => negb (v =? 0)) grid !! n = Some (x, y, z) /\
    get3 grid x y z = Some v /\ v <> 0 /\
    d = mkNode ((x + min_coords.1.1)%nat, (y + min_coords.1.2)%nat,
                (z + min_coords.2)%nat) v.
Proof.
  unfold reconstruction. simpl. rewrite list_elem_of_lookup. split.
  - intros (i & Hi). rewrite list_lookup_imap in Hi.
    destruct (argwhere3 _ grid !! i) as [[[x y] z]|] eqn:Hc; simpl in Hi; [|done].
    injection Hi as <- <-.
    pose proof (list_elem_of_lookup_2 _ _ _ Hc) as (v & Hv & Hnz)%elem_of_argwhere3.
    exists x, y, z, v. split; [done|]. split; [done|].
    split; [by apply negb_true_iff, Z.eqb_neq in Hnz|]. by rewrite Hv.
  - intros (x & y & z & v & Hc & Hv & _ & ->). exists n.
    rewrite list_lookup_imap, Hc. simpl. by rewrite Hv.
Qed.

Lemma reconstruction_facts class_sol pillar_step pillar_width
  (nx_max ny_max nz_max : nat) (min_coords : nat * nat * nat) (grid : array3 Z) :
  shape3 nx_max ny_max nz_max grid ->
  let G := reconstruction min_coords
             (coque_avec_piliers class_sol pillar_step pillar_width
                nx_max ny_max nz_max grid) in
  edges G = [] /\
  graph_wf G /\
  (forall x y z v, get3 grid x y z = Some v ->
     (exists n, (n, mkNode ((x + min_coords.1.1)%nat, (y + min_coords.1.2)%nat,
                            (z + min_coords.2)%nat) v) ∈ nodes G) <->
     v <> 0 /\
     ~ (enclosed class_sol grid x y z /\ ~ on_pillar pillar_step pillar_width x y)) /\
  (forall n d, (n, d) ∈ nodes G ->
     class_maj d <> 0 /\
     exists x y z,
       coord d = ((x + min_coords.1.1)%nat, (y + min_coords.1.2)%nat,
                  (z + min_coords.2)%nat) /\
       get3 grid x y z = Some (class_maj d)) /\
  (forall n m d e, (n, d) ∈ nodes G -> (m, e) ∈ nodes G ->
     coord d = coord e -> n = m).
Proof.
  intros Hshape G.
  set (out := coque_avec_piliers class_sol pillar_step pillar_width
                nx_max ny_max nz_max grid) in *.
  pose proof (shape3_coque_avec_piliers class_sol pillar_step pillar_width
                _ _ _ grid Hshape) as Hout. fold out in Hout.
  assert (forall x y z v, get3 grid x y z = Some v ->
    (get3 out x y z = Some 0 /\
     enclosed class_sol grid x y z /\ ~ on_pillar pillar_step pillar_width x y) \/
    (get3 out x y z = Some v /\
     ~ (enclosed class_sol grid x y z /\ ~ on_pillar pillar_step pillar_width x y)))
    as Hcell.
  { intros x y z v Hv.
    destruct (coque_avec_piliers_cell class_sol pillar_step pillar_width
                _ _ _ grid x y z v Hshape Hv) as [(? & ? & ?)|(? & ?)]; tauto. }
  split; [done|]. split.
  { split.
    - unfold node_ids, G, reconstruction. simpl.
      assert (forall l : list (nat * nat * nat),
        fst <$> imap (fun (i : nat) '(x, y, z) =>
          (i, mkNode ((x + min_coords.1.1)%nat, (y + min_coords.1.2)%nat,
                      (z + min_coords.2)%nat)
                     (default 0 (get3 out x y z)))) l
        = seq 0 (List.length l)) as ->; [|apply NoDup_seq].
      intros l. apply list_eq. intros i.
      rewrite list_lookup_fmap, list_lookup_imap.
      destruct (l !! i) as [[[x y] z]|] eqn:Hl; simpl.
      + symmetry. apply lookup_seq. split; [done|]. by eapply lookup_lt_Some.
      + symmetry. apply lookup_seq_ge. by apply lookup_ge_None.
    - intros a b Hab. by apply not_elem_of_nil in Hab. }
  split.
  { intros x y z v Hv. split.
    - intros (n & (x' & y' & z' & w & Hc & Hw & Hnz & Heq)%reconstruction_nodes).
      injection Heq as Hx Hy Hz <-.
      assert (x' = x /\ y' = y /\ z' = z) as (-> & -> & ->) by lia.
      destruct (Hcell x y z v Hv) as [(H0 & _)|(H1 & Hnot)]; [congruence|].
      split; [congruence | done].
    - intros [Hnz Hnot].
      destruct (Hcell x y z v Hv) as [(_ & Henc & Hpil)|(H1 & _)]; [tauto|].
      assert ((x, y, z) ∈ argwhere3 (fun v => negb (v =? 0)) out)
        as (n & Hn)%list_elem_of_lookup_1.
      { apply elem_of_argwhere3. exists v. split; [done|].
        by apply negb_true_iff, Z.eqb_neq. }
      exists n. apply reconstruction_nodes. by exists x, y, z, v. }
  split.
  { intros n d (x & y & z & w & Hc & Hw & Hnz & ->)%reconstruction_nodes. simpl.
    split; [done|]. exists x, y, z. split; [done|].
    destruct (get3_Some_lt _ _ _ _ _ _ _ _ Hout Hw) as (Hx & Hy & Hz).
    destruct (get3_shape3 _ _ _ grid x y z Hshape Hx Hy Hz) as [v Hv].
    destruct (Hcell x y z v Hv) as [(H0 & _)|(H1 & _)]; congruence. }
  intros n m d e (x & y & z & w & Hc & _ & _ & ->)%reconstruction_nodes
    (x' & y' & z' & w' & Hc' & _ & _ & ->)%reconstruction_nodes Heq.
  simpl in Heq. injection Heq as Hx Hy Hz.
  assert (x' = x /\ y' = y /\ z' = z) as (-> & -> & ->) by lia.
  exact (NoDup_lookup _ _ _ _ (NoDup_argwhere3 (fun v => negb (v =? 0)) out) Hc Hc').
Qed.

(** X23. The graph that [ajouter_sol_coque_pillier] rebuilds after the erosion
    has no edge, and distinct node identifiers. A cell of the dense grid
    gives a node, at its coordinates shifted back and with its class,
    exactly when it is not 0 and the erosion leaves it; every node comes
    from such a cell, and no two nodes from the same one. *)
Theorem reconstruction_spec (class_sol pillar_step pillar_width : Z)
  (nx_max ny_max nz_max : nat) (min_coords : nat * nat * nat) (grid : array3 Z) :
  shape3 nx_max ny_max nz_max grid ->
  let G := reconstruction min_coords
             (coque_avec_piliers class_sol pillar_step pillar_width
                nx_max ny_max nz_max grid) in
  edges G = [] /\
  graph_wf G /\
  (forall x y z v, get3 grid x y z = Some v ->
     (exists n, (n, mkNode ((x + min_coords.1.1)%nat, (y + min_coords.1.2)%nat,
                            (z + min_coords.2)%nat) v) ∈ nodes G) <->
     v <> 0 /\
     ~ (enclosed class_sol grid x y z /\ ~ on_pillar pillar_step pillar_width x y)) /\
  (forall n d, (n, d) ∈ nodes G ->
     class_maj d <> 0 /\
     exists x y z,
       coord d = ((x + min_coords.1.1)%nat, (y + min_coords.1.2)%nat,
                  (z + min_coords.2)%nat) /\
       get3 grid x y z = Some (class_maj d)) /\
  (forall n m d e, (n, d) ∈ nodes G -> (m, e) ∈ nodes G ->
     coord d = coord e -> n = m).
Proof. apply reconstruction_facts. Qed.

Lemma reconstruction_spec_witness :
  let G := reconstruction (10, 20, 0)%nat
             (coque_avec_piliers 2 4 2 5 5 3 bloc_sol) in
  edges G = [] /\
  graph_wf G /\
  (forall x y z v, get3 bloc_sol x y z = Some v ->
     (exists n, (n, mkNode ((x + (10, 20, 0)%nat.1.1)%nat,
                            (y + (10, 20, 0)%nat.1.2)%nat,
                            (z + (10, 20, 0)%nat.2)%nat) v) ∈ nodes G) <->
     v <> 0 /\ ~ (enclosed 2 bloc_sol x y z /\ ~ on_pillar 4 2 x y)) /\
  (forall n d, (n, d) ∈ nodes G ->
     class_maj d <> 0 /\
     exists x y z,
       coord d = ((x + (10, 20, 0)%nat.1.1)%nat, (y + (10, 20, 0)%nat.1.2)%nat,
                  (z + (10, 20, 0)%nat.2)%nat) /\
       get3 bloc_sol x y z = Some (class_maj d)) /\
  (forall n m d e, (n, d) ∈ nodes G -> (m, e) ∈ nodes G ->
     coord d = coord e -> n = m).
Proof.
  apply (reconstruction_spec 2 4 2 5 5 3 (10, 20, 0)%nat bloc_sol).
  exact shape3_bloc_sol.
Defined.

End Reconstruction.
